(** * YuneecCameraControl: a shallow embedding and its properties

    Source: [custom/src/FirmwarePlugin/YuneecCameraControl.cc], the camera
    controller of the Typhoon H plugin.  Part I embeds the handlers of the
    controller as Rocq functions, Parts II and III state and prove their
    properties.

    Conventions of the embedding:
    - C++ integers are [Z], with the wrap-around of each conversion written
      out ([to_int32], [to_uint32], [to_uint8]);
    - [float] and [double] values are the finite IEEE 754 numbers, kept as
      integers in units of the smallest subnormal (2^-149 for binary32,
      2^-1074 for binary64); every operation is the exact operation followed
      by round-to-nearest-even ([IEEE.rnd_pos]), each [float] expression
      being evaluated in [float] precision;
    - two [QVariant]s are compared as Qt 5 compares them: integers
      exactly, doubles with [qFuzzyCompare];
    - member variables are grouped in one record per handler family;
    - [emit], sound playback, timers and outbound requests are returned as a
      list of [Effect]s, in program order;
    - wall-clock time is an explicit argument ([now], milliseconds since
      midnight) of every handler that reads [QTime::currentTime]. *)

From Stdlib Require Import ZArith List Lia Bool SpecFloat DecimalString.
From stdpp Require Import gmap strings.
Import ListNotations.

Local Open Scope Z_scope.

(* ===================================================================== *)
(** * Part I: the embedding                                               *)
(* ===================================================================== *)

(** ** Machine integers *)

Definition to_uint8 (z : Z) : Z := z mod 2 ^ 8.
Definition to_uint16 (z : Z) : Z := z mod 2 ^ 16.
Definition to_uint32 (z : Z) : Z := z mod 2 ^ 32.
Definition to_int32 (z : Z) : Z := (z + 2 ^ 31) mod 2 ^ 32 - 2 ^ 31.

(** [int] subtraction and [abs] as two's-complement targets compute them
    (the C++ standard leaves the overflowing cases undefined). *)
Definition int_sub (a b : Z) : Z := to_int32 (a - b).
Definition int_abs (a : Z) : Z := to_int32 (Z.abs a).

(** ** IEEE 754 arithmetic, round to nearest even *)

Module IEEE.

(** [rne_div a b]: the integer nearest to [a / b], ties to even
    ([0 <= a], [0 < b]). *)
Definition rne_div (a b : Z) : Z :=
  let q := a / b in
  match 2 * (a mod b) ?= b with
  | Lt => q
  | Gt => q + 1
  | Eq => if Z.even q then q else q + 1
  end.

(** [rnd_pos prec num den]: the rational [num / den], given in units of the
    smallest subnormal, rounded to [prec] significant bits.  Below
    [2 ^ prec] units the representable numbers are the integers; from there
    on their spacing is [2 ^ s] with [s = log2 (num / den) - (prec - 1)]. *)
Definition rnd_pos (prec num den : Z) : Z :=
  let s := Z.log2 (num / den) - (prec - 1) in
  if s <=? 0 then rne_div num den else 2 ^ s * rne_div num (den * 2 ^ s).

(** Rounding is symmetric in the sign. *)
Definition rnd (prec num den : Z) : Z :=
  Z.sgn num * rnd_pos prec (Z.abs num) den.

(** *** binary64 ([double]) *)

Definition dbl_unit : Z := 2 ^ 1074.

(** [dbl m e] is the double of value [m * 2 ^ e]. *)
Definition dbl (m e : Z) : Z := m * 2 ^ (1074 + e).

(** The first power of two beyond the largest finite double stands for
    infinity: a result that rounds to it or beyond has overflowed. *)
Definition dbl_inf : Z := 2 ^ (1024 + 1074).

Definition dbl_clamp (z : Z) : Z := Z.max (- dbl_inf) (Z.min z dbl_inf).

Definition is_double (z : Z) : Prop :=
  rnd 53 z 1 = z /\ Z.abs z < dbl_inf.

Definition dbl_sub (a b : Z) : Z := dbl_clamp (rnd 53 (a - b) 1).
Definition dbl_mul (a b : Z) : Z := dbl_clamp (rnd 53 (a * b) dbl_unit).
Definition dbl_fabs (a : Z) : Z := Z.abs a.

(** *** binary32 ([float]); [None] is a result that is not finite *)

Definition flt_unit : Z := 2 ^ 149.
Definition flt_inf : Z := 2 ^ (128 + 149).

Definition flt_finite (z : Z) : option Z :=
  if Z.abs z <? flt_inf then Some z else None.

(** [(float) n] for an integer [n]. *)
Definition flt_of_int (n : Z) : option Z :=
  flt_finite (rnd 24 (n * flt_unit) 1).

Definition flt_mul (a b : Z) : option Z :=
  flt_finite (rnd 24 (a * b) flt_unit).

Definition flt_div (a b : Z) : option Z :=
  if b =? 0 then None
  else flt_finite (Z.sgn b * rnd 24 (a * flt_unit) (Z.abs b)).

(** A floating-to-integer conversion truncates toward zero. *)
Definition flt_trunc (a : Z) : Z := Z.quot a flt_unit.

(** [(uint8_t) a] and [(int) a]: defined only when the truncated value fits
    the destination type. *)
Definition flt_to_uint8 (a : Z) : option Z :=
  let t := flt_trunc a in
  if (0 <=? t) && (t <? 2 ^ 8) then Some t else None.

Definition flt_to_int (a : Z) : option Z :=
  let t := flt_trunc a in
  if (- 2 ^ 31 <=? t) && (t <? 2 ^ 31) then Some t else None.

(** Reading a [spec_float] of the Standard Library in the same units, to
    compare this model with [SFsub], [SFmul] and [SFdiv]. *)
Definition of_spec_float (emin : Z) (f : spec_float) : option Z :=
  match f with
  | S754_zero _ => Some 0
  | S754_finite s m e =>
      Some ((if s then -1 else 1) * Z.pos m * 2 ^ (e - emin))
  | _ => None
  end.

Definition sf32 (n : Z) : spec_float := binary_normalize 24 128 n 0 false.
Definition sf64 (m e : Z) : spec_float := binary_normalize 53 1024 m e false.

End IEEE.

(** ** QMap

    [QMap<Key, T>] keeps its entries in ascending key order, at most one per
    key: [operator[]] followed by an assignment replaces the value of a key
    that is already present.  [first()] is the value of the smallest key;
    on an empty map it is undefined, which is [None] here. *)

Section QMap.

Context {T : Type}.

Definition QMap : Type := list (Z * T).

Fixpoint qmap_insert (k : Z) (v : T) (m : QMap) : QMap :=
  match m with
  | [] => [(k, v)]
  | (k', v') :: rest =>
      if k <? k' then (k, v) :: m
      else if k' <? k then (k', v') :: qmap_insert k v rest
      else (k, v) :: rest
  end.

Definition qmap_first (m : QMap) : option T :=
  match m with
  | [] => None
  | (_, v) :: _ => Some v
  end.

(** The entry a new key competes with for the first place. *)
Definition qmap_pick (best : option (Z * T)) (k : Z) (v : T) : option (Z * T) :=
  match best with
  | None => Some (k, v)
  | Some (k0, v0) => if k <=? k0 then Some (k, v) else Some (k0, v0)
  end.

End QMap.

Arguments QMap : clear implicits.

(** ** Value reconciler

    The [QVariant]s of [CAM_ISO] hold integers; those of [CAM_SHUTTERSPD]
    hold finite doubles.  [enumValues] is [pFact->enumValues()]. *)

Definition toInt (v : Z) : Z := to_int32 v.
Definition toUInt (v : Z) : Z := to_uint32 v.

(** [abs(newValue.toInt() - v.toInt())] converted to [uint32_t]. *)
Definition iso_diff (newValue v : Z) : Z :=
  to_uint32 (int_abs (int_sub (toInt newValue) (toInt v))).

(** [fabs(newValue.toDouble() - v.toDouble())]. *)
Definition shutter_diff (newValue v : Z) : Z :=
  IEEE.dbl_fabs (IEEE.dbl_sub newValue v).

Definition _validateShutterSpeed (enumValues : list Z) (newValue : Z) : option Z :=
  let values :=
    fold_left
      (fun (values : QMap Z) v => qmap_insert (shutter_diff newValue v) v values)
      enumValues [] in
  qmap_first values.

Definition _validateISO (enumValues : list Z) (newValue : Z) : option Z :=
  let values :=
    fold_left
      (fun (values : QMap Z) v => qmap_insert (iso_diff newValue v) (toUInt v) values)
      enumValues [] in
  qmap_first values.

(** The two parameters the reconciler is applied to, as [incomingParameter]
    and [validateParameter] select them by name. *)
Inductive ReconciledParam : Type :=
  | CAM_SHUTTERSPD
  | CAM_ISO.

Definition reconcile (p : ReconciledParam) (enumValues : list Z) (newValue : Z)
  : option Z :=
  match p with
  | CAM_SHUTTERSPD => _validateShutterSpeed enumValues newValue
  | CAM_ISO => _validateISO enumValues newValue
  end.

(** [qFuzzyCompare(double p1, double p2)] of Qt 5:
    [qAbs(p1 - p2) * 1000000000000. <= qMin(qAbs(p1), qAbs(p2))], every
    operation in [double]. *)
Definition qFuzzyCompare (p1 p2 : Z) : bool :=
  IEEE.dbl_mul (IEEE.dbl_fabs (IEEE.dbl_sub p1 p2)) (IEEE.dbl (10 ^ 12) 0)
  <=? Z.min (IEEE.dbl_fabs p1) (IEEE.dbl_fabs p2).

(** [QVariant::operator==] of Qt 5 on two numeric variants: two integers
    are compared exactly; as soon as one side holds a floating-point
    number both are read as [double]s, which are equal when [r1 == r2] or
    [qFuzzyCompare(r1, r2)].  [operator!=] is its negation. *)
Definition QVariant_eq (p : ReconciledParam) (a b : Z) : bool :=
  match p with
  | CAM_SHUTTERSPD => (a =? b) || qFuzzyCompare a b
  | CAM_ISO => a =? b
  end.

(** [validateParameter]: a proposed value passes when it compares equal
    to its nearest match. *)
Definition validateParameter (p : ReconciledParam) (enumValues : list Z)
  (newValue : Z) : option bool :=
  match reconcile p enumValues newValue with
  | Some v => Some (QVariant_eq p v newValue)
  | None => None
  end.

(** [incomingParameter]: the adjusted value, the pending-update list and
    whether a flush was scheduled. *)
Definition incomingParameter (p : ReconciledParam) (name : string)
  (enumValues : list Z) (newValue : Z) (_updatesToSend : list string)
  : option (Z * list string * bool) :=
  match reconcile p enumValues newValue with
  | Some v =>
      if QVariant_eq p newValue v then Some (newValue, _updatesToSend, false)
      else
        let pending :=
          if existsb (String.eqb name) _updatesToSend then _updatesToSend
          else _updatesToSend ++ [name] in
        Some (v, pending, true)
  | None => None
  end.

(** The values each parameter ranges over: ISO settings are non-negative
    [int]s (so that [toInt] and [toUInt] agree and no subtraction
    overflows), shutter speeds are finite doubles. *)
Definition param_value (p : ReconciledParam) (v : Z) : Prop :=
  match p with
  | CAM_SHUTTERSPD => IEEE.is_double v
  | CAM_ISO => 0 <= v < 2 ^ 31
  end.

(** The key the candidates are ordered by in the [QMap]: the rounded
    [double] difference for a shutter speed; for ISO values of the domain
    above [iso_diff] is the difference itself. *)
Definition ordering_key (p : ReconciledParam) (m v : Z) : Z :=
  match p with
  | CAM_SHUTTERSPD => shutter_diff m v
  | CAM_ISO => Z.abs (m - v)
  end.

(** The absolute difference of the specification: the distance of two
    values as numbers, with no rounding. *)
Definition abs_diff (m v : Z) : Z := Z.abs (m - v).

(** The differences of a shutter speed [m] to the allowed values are
    [double]s themselves, so that the subtractions of the code do not
    round; the [int] differences of ISO values never round. *)
Definition exact_diffs (p : ReconciledParam) (m : Z) (enumValues : list Z) : Prop :=
  match p with
  | CAM_SHUTTERSPD => Forall (fun v => IEEE.is_double (m - v)) enumValues
  | CAM_ISO => True
  end.

(** [r] is nearest to [m] as far as [v] is concerned.  For ISO values [v]
    is not nearer than [r].  For shutter speeds [v] is not nearer than [r]
    when both differences are [double]s, and in general [v] is nearer by
    no more than the rounding of the two subtractions, a relative
    [2 ^ -52], as long as the difference to [v] is below [2 ^ 1023]. *)
Definition no_closer (p : ReconciledParam) (m r v : Z) : Prop :=
  match p with
  | CAM_ISO => abs_diff m r <= abs_diff m v
  | CAM_SHUTTERSPD =>
      (IEEE.is_double (m - r) -> IEEE.is_double (m - v) ->
       abs_diff m r <= abs_diff m v) /\
      (abs_diff m v <= IEEE.dbl 1 1023 ->
       (2 ^ 53 - 1) * abs_diff m r <= (2 ^ 53 + 1) * abs_diff m v)
  end.

(** Two values that [QVariant] comparison can take for equal: the same
    integer, or two [double]s within a relative [1 / (10 ^ 12 - 1)] of
    each other. *)
Definition same_value (p : ReconciledParam) (a b : Z) : Prop :=
  match p with
  | CAM_ISO => a = b
  | CAM_SHUTTERSPD =>
      (10 ^ 12 - 1) * abs_diff a b <= Z.min (Z.abs a) (Z.abs b)
  end.

(** The tie rule as the specification words it: among the candidates at
    the smallest difference, the one met first in the allowed set. *)
Fixpoint first_nearest (diff : Z -> Z) (enumValues : list Z) : option Z :=
  match enumValues with
  | [] => None
  | v :: rest =>
      match first_nearest diff rest with
      | None => Some v
      | Some w => if diff v <=? diff w then Some v else Some w
      end
  end.

(** ** Protocol constants and effects

    The numeric constants of the MAVLink and PX4 headers are not part of
    this source file: the handlers are embedded over any choice of them.
    [px4_sub_mode] reads the [sub_mode] member of the [px4_custom_mode]
    union laid over the heartbeat's 32-bit [custom_mode]. *)

Class Protocol : Type := {
  MAV_COMP_ID_GIMBAL : Z;
  MAV_CMD_PREFLIGHT_CALIBRATION : Z;
  PX4_CUSTOM_SUB_MODE_AUTO_MISSION : Z;
  px4_sub_mode : Z -> Z
}.

(** The values of MAVLink's common message set and of PX4's
    [px4_custom_mode.h] (little-endian layout: 16 reserved bits, then
    [main_mode], then [sub_mode]). *)
Definition mavlink_px4 : Protocol := {|
  MAV_COMP_ID_GIMBAL := 154;
  MAV_CMD_PREFLIGHT_CALIBRATION := 241;
  PX4_CUSTOM_SUB_MODE_AUTO_MISSION := 4;
  px4_sub_mode := fun custom_mode => Z.land (Z.shiftr custom_mode 24) 255
|}.

(** Qt signals of the controller. *)
Inductive Signal : Type :=
  | gimbalVersionChanged
  | gimbalCalOnChanged
  | gimbalProgressChanged
  | recordTimeChanged
  | activeSettingsChanged
  | spotAreaChanged.

Inductive Sound : Type :=
  | _cameraSound
  | _videoSound
  | _errorSound.

(** Member functions a handler calls or schedules. *)
Inductive Call : Type :=
  | takePhoto
  | startVideo
  | toggleVideo
  | setPhotoMode
  | setVideoMode
  | _delayedTakePhoto
  | _delayedStartVideo
  | _requestAllParameters.

Inductive Effect : Type :=
  | Emit (s : Signal)
  | Play (s : Sound) (loopCount : Z)
  | Invoke (c : Call)
  | SingleShot (msec : Z) (c : Call).

#[global] Instance Signal_eq_dec : EqDecision Signal.
Proof. solve_decision. Defined.
#[global] Instance Sound_eq_dec : EqDecision Sound.
Proof. solve_decision. Defined.
#[global] Instance Call_eq_dec : EqDecision Call.
Proof. solve_decision. Defined.
#[global] Instance Effect_eq_dec : EqDecision Effect.
Proof. solve_decision. Defined.

(** Running a handler over a message sequence, collecting the effects. *)
Fixpoint run {S M : Type} (handler : M -> S -> S * list Effect)
  (messages : list M) (s : S) : S * list Effect :=
  match messages with
  | [] => (s, [])
  | m :: rest =>
      let '(s1, e1) := handler m s in
      let '(s2, e2) := run handler rest s1 in
      (s2, e1 ++ e2)
  end.

(** How many times an effect occurs in a trace. *)
Fixpoint occurrences (e : Effect) (trace : list Effect) : nat :=
  match trace with
  | [] => 0%nat
  | x :: rest => ((if decide (x = e) then 1 else 0) + occurrences e rest)%nat
  end.

(** The full parameter resynchronizations requested in a trace. *)
Definition resyncs (trace : list Effect) : nat :=
  occurrences (Invoke _requestAllParameters) trace.

(** ** Capability tracker *)

Record mavlink_message_t : Type := {
  compid : Z;
  flight_sw_version : Z;     (* AUTOPILOT_VERSION payload *)
  command : Z;               (* COMMAND_ACK payload *)
  result : Z;
  progress : Z;
  custom_mode : Z            (* HEARTBEAT payload *)
}.

Definition decimal (z : Z) : string := NilZero.string_of_int (Z.to_int z).

(** [sprintf("%d.%d.%d", major, minor, patch)]. *)
Definition version_string (major minor patch : Z) : string :=
  (decimal major ++ "." ++ decimal minor ++ "." ++ decimal patch)%string.

Section Handlers.

Context {P : Protocol}.

(** State: [_gimbalVersion]. *)
Definition _handleHardwareVersion (message : mavlink_message_t)
  (_gimbalVersion : string) : string * list Effect :=
  if compid message =? MAV_COMP_ID_GIMBAL then
    let major := Z.land (Z.shiftr (flight_sw_version message) (8 * 3)) 255 in
    let minor := Z.land (Z.shiftr (flight_sw_version message) (8 * 2)) 255 in
    let patch := Z.land (Z.shiftr (flight_sw_version message) (8 * 1)) 255 in
    (version_string major minor patch, [Emit gimbalVersionChanged])
  else (_gimbalVersion, []).

Definition from_gimbal (message : mavlink_message_t) : bool :=
  compid message =? MAV_COMP_ID_GIMBAL.

(** ** Calibration state machine

    [_gimbalTimer] is a single-shot [QTimer]: [None] while inactive,
    [Some r] with [r] milliseconds to go while running. *)

Record Calibration : Type := {
  _gimbalCalOn : bool;
  _gimbalProgress : Z;
  _gimbalTimer : option Z
}.

(** The constructor's values. *)
Definition calibration_init : Calibration :=
  {| _gimbalCalOn := false; _gimbalProgress := 0; _gimbalTimer := None |}.

Definition _handleGimbalResult (result progress : Z) (c : Calibration)
  : Calibration * list Effect :=
  let '(c1, e1) :=
    if _gimbalCalOn c then
      if progress =? 255 then
        ({| _gimbalCalOn := false; _gimbalProgress := 100; _gimbalTimer := None |},
         [Emit gimbalCalOnChanged])
      else (c, [])
    else
      if negb (progress =? 0) && (progress <? 255) then
        ({| _gimbalCalOn := true;
            _gimbalProgress := _gimbalProgress c;
            _gimbalTimer := _gimbalTimer c |},
         [Emit gimbalCalOnChanged])
      else (c, []) in
  let c2 :=
    if progress <? 255 then
      {| _gimbalCalOn := _gimbalCalOn c1;
         _gimbalProgress := progress;
         _gimbalTimer := if progress =? 99 then Some 5000 else _gimbalTimer c1 |}
    else c1 in
  (c2, e1 ++ [Emit gimbalProgressChanged]).

Definition _gimbalCalTimeout (c : Calibration) : Calibration * list Effect :=
  if _gimbalProgress c =? 99 then
    ({| _gimbalCalOn := false; _gimbalProgress := 100; _gimbalTimer := _gimbalTimer c |},
     [Emit gimbalProgressChanged; Emit gimbalCalOnChanged])
  else (c, []).

(** [ack.progress] is a [uint8_t] of the decoded message. *)
Definition _handleCommandAck (message : mavlink_message_t) (c : Calibration)
  : Calibration * list Effect :=
  if command message =? MAV_CMD_PREFLIGHT_CALIBRATION then
    if compid message =? MAV_COMP_ID_GIMBAL then
      _handleGimbalResult (result message) (to_uint8 (progress message)) c
    else (c, [])
  else (c, []).

(** [ms] milliseconds pass without a message: a running timer whose
    deadline is reached stops and fires its slot. *)
Definition elapse (ms : Z) (c : Calibration) : Calibration * list Effect :=
  match _gimbalTimer c with
  | None => (c, [])
  | Some r =>
      if r <=? ms then
        _gimbalCalTimeout
          {| _gimbalCalOn := _gimbalCalOn c;
             _gimbalProgress := _gimbalProgress c;
             _gimbalTimer := None |}
      else
        ({| _gimbalCalOn := _gimbalCalOn c;
            _gimbalProgress := _gimbalProgress c;
            _gimbalTimer := Some (r - ms) |}, [])
  end.

Inductive CalEvent : Type :=
  | CommandAck (message : mavlink_message_t)
  | Elapse (ms : Z).

Definition cal_step (ev : CalEvent) (c : Calibration) : Calibration * list Effect :=
  match ev with
  | CommandAck message => _handleCommandAck message c
  | Elapse ms => elapse ms c
  end.

(** The specification's four states, read off the two members. *)
Inductive CalState : Type :=
  | Inactive
  | InProgress
  | Settling
  | Complete.

Definition cal_state (c : Calibration) : CalState :=
  if _gimbalCalOn c then
    if _gimbalProgress c =? 99 then Settling else InProgress
  else
    if _gimbalProgress c =? 100 then Complete else Inactive.

(** A calibration acknowledgment of the gimbal with the given progress. *)
Definition gimbal_ack (result progress : Z) : mavlink_message_t :=
  {| compid := MAV_COMP_ID_GIMBAL;
     flight_sw_version := 0;
     command := MAV_CMD_PREFLIGHT_CALIBRATION;
     result := result;
     progress := progress;
     custom_mode := 0 |}.

(** ** Flight-mode monitor

    State: [_inMissionMode]; [defaultComponentId] is
    [_vehicle->defaultComponentId()]. *)

Definition _handleHeartBeat (defaultComponentId : Z) (message : mavlink_message_t)
  (_inMissionMode : bool) : bool * list Effect :=
  if compid message =? defaultComponentId then
    let sub_mode := px4_sub_mode (custom_mode message) in
    if negb (sub_mode =? PX4_CUSTOM_SUB_MODE_AUTO_MISSION) && _inMissionMode then
      (false, [Invoke _requestAllParameters])
    else if (sub_mode =? PX4_CUSTOM_SUB_MODE_AUTO_MISSION) && negb _inMissionMode then
      (true, [])
    else (_inMissionMode, [])
  else (_inMissionMode, []).

Definition in_mission (message : mavlink_message_t) : bool :=
  px4_sub_mode (custom_mode message) =? PX4_CUSTOM_SUB_MODE_AUTO_MISSION.

(** Number of places where a heartbeat in the mission sub-mode is directly
    followed by one in another sub-mode. *)
Fixpoint mission_exits (heartbeats : list mavlink_message_t) : nat :=
  match heartbeats with
  | a :: (b :: _) as rest =>
      ((if in_mission a && negb (in_mission b) then 1 else 0)
       + mission_exits rest)%nat
  | _ => 0%nat
  end.

End Handlers.

(** Sample messages, with the constants of [mavlink_px4]. *)

(** A heartbeat of component 1 with the given PX4 sub-mode. *)
Definition heartbeat (sub_mode : Z) : mavlink_message_t :=
  {| compid := 1; flight_sw_version := 0; command := 0; result := 0;
     progress := 0; custom_mode := Z.shiftl sub_mode 24 |}.

(** A capability response of the gimbal (component 154) announcing
    version 1.2.3. *)
Definition gimbal_version_response : mavlink_message_t :=
  {| compid := 154; flight_sw_version := 16909056; command := 0; result := 0;
     progress := 0; custom_mode := 0 |}.

(** ** Parameter registry

    [getFact(name)] is a lookup in the registry; a [Fact] carries its raw
    value and the raw values of its enumeration. *)

Record Fact : Type := {
  rawValue : Z;
  enumValues : list Z
}.

Definition setRawValue (v : Z) (f : Fact) : Fact :=
  {| rawValue := v; enumValues := enumValues f |}.

Definition rawValueString (f : Fact) : string := decimal (rawValue f).

Definition kCAM_SPOTAREA : string := "CAM_SPOTAREA".
Definition kCAM_VIDFMT : string := "CAM_VIDFMT".
Definition kCAM_VIDRES : string := "CAM_VIDRES".
Definition kCAM_IRPALETTE : string := "CAM_IRPALETTE".

(** ** Capture state tracker *)

Inductive VideoStatus : Type :=
  | VIDEO_CAPTURE_STATUS_STOPPED
  | VIDEO_CAPTURE_STATUS_RUNNING
  | VIDEO_CAPTURE_STATUS_UNDEFINED.

#[global] Instance VideoStatus_eq_dec : EqDecision VideoStatus.
Proof. solve_decision. Defined.

(** [QTime] of Qt 5: a time of day in milliseconds since midnight, in
    [0, MSECS_PER_DAY).  [start] stores the current time, [elapsed] is the
    distance to the current time and [addMSecs] moves a time, both wrapping
    at midnight. *)
Definition MSECS_PER_DAY : Z := 86400000.

Definition QTime_elapsed (now t : Z) : Z :=
  let n := now - t in
  if n <? 0 then n + MSECS_PER_DAY else n.

Definition QTime_addMSecs (t ms : Z) : Z :=
  if ms <? 0 then
    let negdays := (MSECS_PER_DAY - ms) / MSECS_PER_DAY in
    (t + ms + negdays * MSECS_PER_DAY) mod MSECS_PER_DAY
  else (t + ms) mod MSECS_PER_DAY.

Record QGCCameraOptionExclusion : Type := {
  param : string;
  value : string;
  exclusions : list string
}.

(** Members read but not written by the capture handlers. *)
Record CaptureConfig : Type := {
  cfg_isCGOET : bool;
  _settings : list string;
  _valueExclusions : list QGCCameraOptionExclusion;
  cfg_facts : gmap string Fact
}.

(** [_recTimer] is the periodic 333 ms timer: [true] while it runs. *)
Record Capture : Type := {
  _video_status : VideoStatus;
  _recordTime : Z;
  _recTime : Z;
  _recTimer : bool;
  _activeSettings : list string
}.

(** [QStringList::removeOne]: drops the first occurrence. *)
Fixpoint removeOne (x : string) (l : list string) : list string :=
  match l with
  | [] => []
  | y :: rest => if String.eqb x y then rest else y :: removeOne x rest
  end.

Definition contains (x : string) (l : list string) : bool :=
  existsb (String.eqb x) l.

(** The exclusion lists of the rules whose trigger parameter currently has
    the rule's value. *)
Definition exclusionList (cfg : CaptureConfig) : list string :=
  flat_map
    (fun rule =>
       match cfg_facts cfg !! param rule with
       | Some pFact =>
           if String.eqb (value rule) (rawValueString pFact)
           then exclusions rule else []
       | None => []
       end)
    (_valueExclusions cfg).

Definition restored_settings (cfg : CaptureConfig) : list string :=
  List.filter (fun key => negb (contains key (exclusionList cfg))) (_settings cfg).

Definition string_list_eqb (a b : list string) : bool :=
  bool_decide (a = b).

Definition _setVideoStatus (now : Z) (status : VideoStatus) (cfg : CaptureConfig)
  (c : Capture) : Capture * list Effect :=
  let oldStatus := _video_status c in
  if bool_decide (oldStatus = status) then
    (c, [])
  else if bool_decide (status = VIDEO_CAPTURE_STATUS_RUNNING) then
    let active :=
      if cfg_isCGOET cfg then _activeSettings c
      else removeOne kCAM_VIDFMT (removeOne kCAM_VIDRES (_activeSettings c)) in
    ({| _video_status := status;
        _recordTime := 0;
        _recTime := now;
        _recTimer := true;
        _activeSettings := active |},
     Play _videoSound 1
       :: (if cfg_isCGOET cfg then [] else [Emit activeSettingsChanged]))
  else
    let booted := bool_decide (oldStatus = VIDEO_CAPTURE_STATUS_UNDEFINED) in
    let active := restored_settings cfg in
    let changed := negb booted && negb (string_list_eqb active (_activeSettings c)) in
    ({| _video_status := status;
        _recordTime := 0;
        _recTime := _recTime c;
        _recTimer := false;
        _activeSettings := if changed then active else _activeSettings c |},
     Emit recordTimeChanged
       :: (if changed then [Emit activeSettingsChanged] else [])
       ++ [Play _videoSound (if booted then 1 else 2)]).

Definition _recTimerHandler (now : Z) (c : Capture) : Capture * list Effect :=
  ({| _video_status := _video_status c;
      _recordTime := QTime_elapsed now (_recTime c);
      _recTime := _recTime c;
      _recTimer := _recTimer c;
      _activeSettings := _activeSettings c |},
   [Emit recordTimeChanged]).

Record mavlink_camera_capture_status_t : Type := {
  video_status : VideoStatus;
  recording_time_ms : Z
}.

(** Modelled from the spec: [QGCCameraControl::handleCaptureStatus] of the
    base class, which is not in this file.  The status field of the
    telemetry is compared against the previous value through the virtual
    [_setVideoStatus], a no-op if unchanged. *)
Definition QGCCameraControl_handleCaptureStatus (now : Z)
  (cap : mavlink_camera_capture_status_t) (cfg : CaptureConfig) (c : Capture)
  : Capture * list Effect :=
  _setVideoStatus now (video_status cap) cfg c.

(** [_recTime.elapsed() - cap.recording_time_ms] is an [int] minus a
    [uint32_t]: computed in [unsigned], then converted to the [int]
    parameter of [addMSecs]. *)
Definition handleCaptureStatus (now : Z) (cap : mavlink_camera_capture_status_t)
  (cfg : CaptureConfig) (c : Capture) : Capture * list Effect :=
  let '(c1, e1) := QGCCameraControl_handleCaptureStatus now cap cfg c in
  if bool_decide (_video_status c1 = VIDEO_CAPTURE_STATUS_RUNNING) then
    let ms :=
      to_int32 (to_uint32 (QTime_elapsed now (_recTime c1) - recording_time_ms cap)) in
    ({| _video_status := _video_status c1;
        _recordTime := recording_time_ms cap;
        _recTime := QTime_addMSecs (_recTime c1) ms;
        _recTimer := _recTimer c1;
        _activeSettings := _activeSettings c1 |},
     e1 ++ [Emit recordTimeChanged])
  else (c1, e1).

(** The constructor's values; the base class starts with an undefined
    video status. *)
Definition capture_init (settings : list string) : Capture :=
  {| _video_status := VIDEO_CAPTURE_STATUS_UNDEFINED;
     _recordTime := 0;
     _recTime := 0;
     _recTimer := false;
     _activeSettings := settings |}.

(** The scenario of the specification: a session started at 12:00:00.000,
    1000 ms of ticks, then telemetry reporting 900 ms. *)
Definition sample_config : CaptureConfig :=
  {| cfg_isCGOET := false;
     _settings := [kCAM_VIDRES; kCAM_VIDFMT];
     _valueExclusions := [];
     cfg_facts := ∅ |}.

Definition noon : Z := 43200000.

Definition recording_since_noon : Capture :=
  fst (run (fun now => _recTimerHandler now) [noon + 333; noon + 666; noon + 999]
         (fst (_setVideoStatus noon VIDEO_CAPTURE_STATUS_RUNNING sample_config
                 (capture_init [kCAM_VIDRES; kCAM_VIDFMT])))).

Definition telemetry_900 : mavlink_camera_capture_status_t :=
  {| video_status := VIDEO_CAPTURE_STATUS_RUNNING; recording_time_ms := 900 |}.

(** ** Control dispatcher *)

Inductive CameraMode : Type :=
  | CAM_MODE_UNDEFINED
  | CAM_MODE_PHOTO
  | CAM_MODE_VIDEO.

Inductive PhotoStatus : Type :=
  | PHOTO_CAPTURE_IDLE
  | PHOTO_CAPTURE_IN_PROGRESS
  | PHOTO_CAPTURE_INTERVAL_IDLE
  | PHOTO_CAPTURE_INTERVAL_IN_PROGRESS
  | PHOTO_CAPTURE_STATUS_UNDEFINED.

#[global] Instance CameraMode_eq_dec : EqDecision CameraMode.
Proof. solve_decision. Defined.
#[global] Instance PhotoStatus_eq_dec : EqDecision PhotoStatus.
Proof. solve_decision. Defined.

(** The switch identifiers of the [Yuneec] namespace. *)
Inductive Switch : Type :=
  | BUTTON_CAMERA_SHUTTER
  | BUTTON_VIDEO_SHUTTER
  | BUTTON_OTHER (swId : Z).

(** What the dispatcher reads through the accessors of the base class. *)
Record CameraView : Type := {
  storageTotal : Z;
  storageFree : Z;
  photoStatus : PhotoStatus;
  cameraMode : CameraMode;
  videoStatus : VideoStatus;
  photosInVideoMode : bool
}.

Definition reject : list Effect := [Play _errorSound 1].

Definition _switchStateChanged (swId : Switch) (oldState newState : Z)
  (cam : CameraView) : list Effect :=
  if newState =? 1 then
    match swId with
    | BUTTON_CAMERA_SHUTTER =>
        if (storageTotal cam =? 0) || (storageFree cam <? 250)
           || negb (bool_decide (photoStatus cam = PHOTO_CAPTURE_IDLE))
        then reject
        else
          match cameraMode cam with
          | CAM_MODE_VIDEO =>
              if photosInVideoMode cam then
                if negb (bool_decide (videoStatus cam = VIDEO_CAPTURE_STATUS_STOPPED))
                then reject
                else [Invoke takePhoto]
              else
                if negb (bool_decide (videoStatus cam = VIDEO_CAPTURE_STATUS_STOPPED))
                then reject
                else [Invoke setPhotoMode; SingleShot 2500 _delayedTakePhoto]
          | CAM_MODE_PHOTO => [Invoke takePhoto]
          | CAM_MODE_UNDEFINED => reject
          end
    | BUTTON_VIDEO_SHUTTER =>
        if (storageTotal cam =? 0) || (storageFree cam <? 250)
           || negb (bool_decide (photoStatus cam = PHOTO_CAPTURE_IDLE))
        then reject
        else
          match cameraMode cam with
          | CAM_MODE_VIDEO => [Invoke toggleVideo]
          | _ => [Invoke setVideoMode; SingleShot 2500 _delayedStartVideo]
          end
    | BUTTON_OTHER _ => []
    end
  else [].

(** ** Thermal palette *)

Definition kPaleteBars : list string :=
  ["Fusion"; "Rainbow"; "Globow"; "IceFire"; "IronBlack"; "WhiteHot";
   "BlackHot"; "Rain"; "Iron"; "GrayRed"; "GrayFusion"].

(** Reading [kPaleteBars[i]]: [None] is a read outside the array. *)
Definition palette_at (i : Z) : option string :=
  if i <? 0 then None else nth_error kPaleteBars (Z.to_nat i).

Definition palette_url (barStr : string) : string :=
  ("qrc:/typhoonh/img/flir-" ++ barStr ++ ".png")%string.

(** The bar name [palettetBar] settles on. *)
Definition palette_name (_isCGOET : bool) (facts : gmap string Fact)
  : option string :=
  let fallback := palette_at 0 in
  if _isCGOET then
    match facts !! kCAM_IRPALETTE with
    | Some pFact =>
        if toUInt (rawValue pFact) <? 11
        then palette_at (toUInt (rawValue pFact))
        else fallback
    | None => fallback
    end
  else fallback.

Definition palettetBar (_isCGOET : bool) (facts : gmap string Fact)
  : option string :=
  palette_url <$> palette_name _isCGOET facts.

(** ** Spot-area codec *)

Record SpotContext : Type := {
  _isCGOET : bool;
  _paramComplete : bool;
  _videoSize : Z * Z;
  facts : gmap string Fact
}.

Definition with_facts (f : gmap string Fact) (s : SpotContext) : SpotContext :=
  {| _isCGOET := _isCGOET s;
     _paramComplete := _paramComplete s;
     _videoSize := _videoSize s;
     facts := f |}.

Definition flt_100 : Z := 100 * IEEE.flt_unit.

(** [(uint8_t)(f / v * 100.0f)], then the clamp to 100. *)
Definition spot_percent (f v : Z) : option Z :=
  q ← IEEE.flt_div f v;
  r ← IEEE.flt_mul q flt_100;
  x ← IEEE.flt_to_uint8 r;
  Some (if 100 <? x then 100 else x).

(** [(int)((float) byte * v / 100.0f)]. *)
Definition spot_pixel (byte v : Z) : option Z :=
  b ← IEEE.flt_of_int byte;
  r ← IEEE.flt_mul b v;
  q ← IEEE.flt_div r flt_100;
  IEEE.flt_to_int q.

(** [None]: a floating-point result is not finite or does not fit the
    integer type it is converted to. *)
Definition setSpotArea (p : Z * Z) (s : SpotContext) : option SpotContext :=
  if negb (_isCGOET s) && _paramComplete s then
    match facts s !! kCAM_SPOTAREA with
    | Some pFact =>
        vw ← IEEE.flt_of_int (fst (_videoSize s));
        vh ← IEEE.flt_of_int (snd (_videoSize s));
        fx ← (if fst p <? 0 then Some 0 else IEEE.flt_of_int (fst p));
        fy ← (if snd p <? 0 then Some 0 else IEEE.flt_of_int (snd p));
        x ← spot_percent fx vw;
        y ← spot_percent fy vh;
        let coords := to_uint16 (Z.lor (Z.shiftl x 8) y) in
        Some (with_facts (<[kCAM_SPOTAREA := setRawValue coords pFact]> (facts s)) s)
    | None => Some s
    end
  else Some s.

Definition spotArea (s : SpotContext) : option (Z * Z) :=
  if negb (_isCGOET s) && _paramComplete s then
    match facts s !! kCAM_SPOTAREA with
    | Some pFact =>
        vw ← IEEE.flt_of_int (fst (_videoSize s));
        vh ← IEEE.flt_of_int (snd (_videoSize s));
        x ← spot_pixel (Z.land (Z.shiftr (toUInt (rawValue pFact)) 8) 255) vw;
        y ← spot_pixel (Z.land (toUInt (rawValue pFact)) 255) vh;
        Some (x, y)
    | None => Some (0, 0)
    end
  else Some (0, 0).

(** Encoding a point and decoding the stored parameter. *)
Definition spot_round_trip (p : Z * Z) (s : SpotContext) : option (Z * Z) :=
  s' ← setSpotArea p s; spotArea s'.

(** A standard camera with loaded parameters and a frame of W x H. *)
Definition spot_context (W H : Z) : SpotContext :=
  {| _isCGOET := false;
     _paramComplete := true;
     _videoSize := (W, H);
     facts := {[ kCAM_SPOTAREA := {| rawValue := 0; enumValues := [] |} ]} |}.

(** ** Further handlers of the controller *)

(** *** Reconciler by parameter name, and the debounced flush *)

Definition kCAM_SHUTTERSPD : string := "CAM_SHUTTERSPD".
Definition kCAM_ISO : string := "CAM_ISO".
Definition kCAM_EXPMODE : string := "CAM_EXPMODE".
Definition kCAM_EV : string := "CAM_EV".
Definition kCAM_METERING : string := "CAM_METERING".
Definition kCAM_MODE : string := "CAM_MODE".
Definition kCAM_WBMODE : string := "CAM_WBMODE".
Definition kCAM_TEMPSTATUS : string := "CAM_TEMPSTATUS".

(** [pFact->name() == kCAM_SHUTTERSPD], else [pFact->name() == kCAM_ISO]. *)
Definition reconciled_param (name : string) : option ReconciledParam :=
  if String.eqb name kCAM_SHUTTERSPD then Some CAM_SHUTTERSPD
  else if String.eqb name kCAM_ISO then Some CAM_ISO
  else None.

(** [incomingParameter] for the fact of any name: other parameters pass
    unchanged. *)
Definition incomingParameterOf (name : string) (enumValues : list Z)
  (newValue : Z) (_updatesToSend : list string)
  : option (Z * list string * bool) :=
  match reconciled_param name with
  | Some p => incomingParameter p name enumValues newValue _updatesToSend
  | None => Some (newValue, _updatesToSend, false)
  end.

(** [_sendUpdates]: the names whose [sendParameter] is called, in order,
    and the pending list afterwards. *)
Definition _sendUpdates (isCGOET : bool) (registry : gmap string Fact)
  (_updatesToSend : list string) : list string * list string :=
  let sent :=
    if negb isCGOET then
      match registry !! kCAM_EXPMODE with
      | Some pFact => if rawValue pFact =? 1 then _updatesToSend else []
      | None => []
      end
    else [] in
  (sent, []).

(** *** Orientation tracker

    The three angles are [float]s in units of 2^-149; the threshold 0.5 is
    [2 ^ 148] of these units.  A difference that overflows is infinite and
    exceeds the threshold. *)

Record Orientation : Type := {
  _gimbalRoll : Z;
  _gimbalPitch : Z;
  _gimbalYaw : Z;
  _gimbalData : bool
}.

Record mavlink_mount_orientation_t : Type := {
  roll : Z;
  pitch : Z;
  yaw : Z
}.

Inductive OrientationSignal : Type :=
  | gimbalRollChanged
  | gimbalPitchChanged
  | gimbalYawChanged
  | gimbalDataChanged.

#[global] Instance OrientationSignal_eq_dec : EqDecision OrientationSignal.
Proof. solve_decision. Defined.

Definition orientation_init : Orientation :=
  {| _gimbalRoll := 0; _gimbalPitch := 0; _gimbalYaw := 0; _gimbalData := false |}.

(** [fabs(a - b)] in [float] arithmetic. *)
Definition flt_fabs_sub (a b : Z) : Z :=
  Z.min (IEEE.rnd_pos 24 (Z.abs (a - b)) 1) IEEE.flt_inf.

Definition flt_half : Z := 2 ^ 148.

(** [fabs(a - b) > 0.5]. *)
Definition moved (a b : Z) : bool := flt_half <? flt_fabs_sub a b.


Definition _handleGimbalOrientation (o : mavlink_mount_orientation_t)
  (g : Orientation) : Orientation * list OrientationSignal :=
  let r := moved (_gimbalRoll g) (roll o) in
  let p := moved (_gimbalPitch g) (pitch o) in
  let y := moved (_gimbalYaw g) (yaw o) in
  ({| _gimbalRoll := if r then roll o else _gimbalRoll g;
      _gimbalPitch := if p then pitch o else _gimbalPitch g;
      _gimbalYaw := if y then yaw o else _gimbalYaw g;
      _gimbalData := true |},
   (if r then [gimbalRollChanged] else [])
   ++ (if p then [gimbalPitchChanged] else [])
   ++ (if y then [gimbalYawChanged] else [])
   ++ (if _gimbalData g then [] else [gimbalDataChanged])).

(** Running a handler whose effects are of any type. *)
Fixpoint run_with {S M E : Type} (handler : M -> S -> S * list E)
  (messages : list M) (s : S) : S * list E :=
  match messages with
  | [] => (s, [])
  | m :: rest =>
      let '(s1, e1) := handler m s in
      let '(s2, e2) := run_with handler rest s1 in
      (s2, e1 ++ e2)
  end.

(** *** Message router

    The four message identifiers are constants of the MAVLink headers. *)

Class MessageIds : Type := {
  MAVLINK_MSG_ID_AUTOPILOT_VERSION : Z;
  MAVLINK_MSG_ID_MOUNT_ORIENTATION : Z;
  MAVLINK_MSG_ID_COMMAND_ACK : Z;
  MAVLINK_MSG_ID_HEARTBEAT : Z
}.

(** The identifiers of MAVLink's common message set. *)
Definition mavlink_ids : MessageIds := {|
  MAVLINK_MSG_ID_AUTOPILOT_VERSION := 148;
  MAVLINK_MSG_ID_MOUNT_ORIENTATION := 265;
  MAVLINK_MSG_ID_COMMAND_ACK := 77;
  MAVLINK_MSG_ID_HEARTBEAT := 0
|}.

(** The [case] labels of a [switch] are pairwise different. *)
Definition distinct_ids (I : MessageIds) : Prop :=
  NoDup [MAVLINK_MSG_ID_AUTOPILOT_VERSION; MAVLINK_MSG_ID_MOUNT_ORIENTATION;
         MAVLINK_MSG_ID_COMMAND_ACK; MAVLINK_MSG_ID_HEARTBEAT].

(** A received message: its identifier and the decoded payloads. *)
Record Message : Type := {
  msgid : Z;
  body : mavlink_message_t;
  mount_orientation : mavlink_mount_orientation_t
}.

(** The members the four handlers work on. *)
Record Controller : Type := {
  ctl_gimbalVersion : string;
  ctl_orientation : Orientation;
  ctl_calibration : Calibration;
  ctl_inMissionMode : bool
}.

Definition controller_init : Controller :=
  {| ctl_gimbalVersion := "";
     ctl_orientation := orientation_init;
     ctl_calibration := calibration_init;
     ctl_inMissionMode := false |}.

Definition RouterEffect : Type := Effect + OrientationSignal.

Section Router.

Context {P : Protocol} {I : MessageIds}.

Definition _mavlinkMessageReceived (defaultComponentId : Z) (message : Message)
  (c : Controller) : Controller * list RouterEffect :=
  if msgid message =? MAVLINK_MSG_ID_AUTOPILOT_VERSION then
    let '(v, e) := _handleHardwareVersion (body message) (ctl_gimbalVersion c) in
    ({| ctl_gimbalVersion := v;
        ctl_orientation := ctl_orientation c;
        ctl_calibration := ctl_calibration c;
        ctl_inMissionMode := ctl_inMissionMode c |}, map inl e)
  else if msgid message =? MAVLINK_MSG_ID_MOUNT_ORIENTATION then
    let '(g, e) :=
      _handleGimbalOrientation (mount_orientation message) (ctl_orientation c) in
    ({| ctl_gimbalVersion := ctl_gimbalVersion c;
        ctl_orientation := g;
        ctl_calibration := ctl_calibration c;
        ctl_inMissionMode := ctl_inMissionMode c |}, map inr e)
  else if msgid message =? MAVLINK_MSG_ID_COMMAND_ACK then
    let '(k, e) := _handleCommandAck (body message) (ctl_calibration c) in
    ({| ctl_gimbalVersion := ctl_gimbalVersion c;
        ctl_orientation := ctl_orientation c;
        ctl_calibration := k;
        ctl_inMissionMode := ctl_inMissionMode c |}, map inl e)
  else if msgid message =? MAVLINK_MSG_ID_HEARTBEAT then
    let '(f, e) :=
      _handleHeartBeat defaultComponentId (body message) (ctl_inMissionMode c) in
    ({| ctl_gimbalVersion := ctl_gimbalVersion c;
        ctl_orientation := ctl_orientation c;
        ctl_calibration := ctl_calibration c;
        ctl_inMissionMode := f |}, map inl e)
  else (c, []).

(** The payloads of the messages with a given identifier. *)
Definition bodies_of (id : Z) (messages : list Message) : list mavlink_message_t :=
  map body (List.filter (fun m => msgid m =? id) messages).

Definition orientations_of (messages : list Message)
  : list mavlink_mount_orientation_t :=
  map mount_orientation
    (List.filter (fun m => msgid m =? MAVLINK_MSG_ID_MOUNT_ORIENTATION) messages).

(** The last heartbeat of the default component, if any. *)
Definition last_default_heartbeat (d : Z) (heartbeats : list mavlink_message_t)
  : option mavlink_message_t :=
  last (List.filter (fun m => compid m =? d) heartbeats).

(** The last capability response of the gimbal, if any. *)
Definition last_gimbal_response (messages : list mavlink_message_t)
  : option mavlink_message_t :=
  last (List.filter from_gimbal messages).

End Router.

(** *** Capture events

    The periodic tick reaches [_recTimerHandler] only while [_recTimer]
    runs. *)

Inductive CaptureEvent : Type :=
  | VideoStatusUpdate (now : Z) (status : VideoStatus)
  | CaptureStatus (now : Z) (cap : mavlink_camera_capture_status_t)
  | TimerTick (now : Z).

Definition capture_step (cfg : CaptureConfig) (ev : CaptureEvent) (c : Capture)
  : Capture * list Effect :=
  match ev with
  | VideoStatusUpdate now status => _setVideoStatus now status cfg c
  | CaptureStatus now cap => handleCaptureStatus now cap cfg c
  | TimerTick now => if _recTimer c then _recTimerHandler now c else (c, [])
  end.

(** *** Camera mode

    [mode_raw] gives the numeric values of the base class's mode
    enumeration; [_setCameraMode] of the base class stores the mode. *)

Record ModeContext : Type := {
  mc_cameraMode : CameraMode;
  mc_facts : gmap string Fact
}.

Section CameraModes.

Variable mode_raw : CameraMode -> Z.

Definition set_mode (target : CameraMode) (m : ModeContext) : ModeContext :=
  if bool_decide (mc_cameraMode m = target) then m
  else
    match mc_facts m !! kCAM_MODE with
    | Some pFact =>
        {| mc_cameraMode := target;
           mc_facts := <[kCAM_MODE := setRawValue (mode_raw target) pFact]> (mc_facts m) |}
    | None => m
    end.

Definition setVideoModeOn (m : ModeContext) : ModeContext := set_mode CAM_MODE_VIDEO m.
Definition setPhotoModeOn (m : ModeContext) : ModeContext := set_mode CAM_MODE_PHOTO m.

(** The mode and the [CAM_MODE] fact tell the same. *)
Definition mode_in_sync (m : ModeContext) : Prop :=
  forall pFact, mc_facts m !! kCAM_MODE = Some pFact ->
                rawValue pFact = mode_raw (mc_cameraMode m).

End CameraModes.

(** *** Fact change notifications

    [factChanged] for the fact of a given name.  The base class's
    [factChanged] runs in between and may change the state in any way. *)

Inductive FactEffect : Type :=
  | EmitSpotAreaChanged
  | EmitIrTempChanged
  | EmitPalettetBarChanged
  | StartIrStatusTimer (msec : Z)
  | StartCaptureStatusTimer (msec : Z).

Record FactState : Type := {
  fs_photoStatus : PhotoStatus;
  _irValid : bool;
  _captureInfoRetries : Z
}.

(** The parameters whose change disables the shutter button. *)
Definition resets_shutter (name : string) : bool :=
  String.eqb name kCAM_EV || String.eqb name kCAM_EXPMODE
  || String.eqb name kCAM_ISO || String.eqb name kCAM_METERING
  || String.eqb name kCAM_MODE || String.eqb name kCAM_SHUTTERSPD
  || String.eqb name kCAM_WBMODE.

Section FactChanged.

Variable QGCCameraControl_factChanged : string -> FactState -> FactState.

Definition factChanged (isCGOET : bool) (name : string) (s : FactState)
  : FactState * list FactEffect :=
  if isCGOET && String.eqb name kCAM_TEMPSTATUS then
    ({| fs_photoStatus := fs_photoStatus s;
        _irValid := true;
        _captureInfoRetries := _captureInfoRetries s |},
     (if _irValid s then [] else [StartIrStatusTimer 1000]) ++ [EmitIrTempChanged])
  else
    let e1 :=
      if isCGOET then
        if String.eqb name kCAM_IRPALETTE then [EmitPalettetBarChanged] else []
      else
        if String.eqb name kCAM_SPOTAREA then [EmitSpotAreaChanged] else [] in
    let s1 := QGCCameraControl_factChanged name s in
    if resets_shutter name then
      ({| fs_photoStatus := PHOTO_CAPTURE_STATUS_UNDEFINED;
          _irValid := _irValid s1;
          _captureInfoRetries := 0 |},
       e1 ++ [StartCaptureStatusTimer 1000])
    else (s1, e1).

End FactChanged.

(** The dispatcher's view of a camera whose photo status is given. *)
Definition with_photoStatus (status : PhotoStatus) (cam : CameraView) : CameraView :=
  {| storageTotal := storageTotal cam;
     storageFree := storageFree cam;
     photoStatus := status;
     cameraMode := cameraMode cam;
     videoStatus := videoStatus cam;
     photosInVideoMode := photosInVideoMode cam |}.


(** Effects that start or stop a recording, now or after the delay. *)
Definition touches_recording (e : Effect) : bool :=
  match e with
  | Invoke toggleVideo => true
  | SingleShot _ _delayedStartVideo => true
  | _ => false
  end.

(** *** Sequences of parameter reports and the calibration invariant *)

(** A sequence of reports [(name, enumValues, newValue)] handled by
    [incomingParameter], threading the pending list. *)
Fixpoint incoming_run (updates : list (string * list Z * Z))
  (pending : list string) : option (list string) :=
  match updates with
  | [] => Some pending
  | (name, V, m) :: rest =>
      match incomingParameterOf name V m pending with
      | Some (_, pending', _) => incoming_run rest pending'
      | None => None
      end
  end.

(** Manual exposure on a camera that is not the thermal variant. *)
Definition manual_exposure (isCGOET : bool) (registry : gmap string Fact) : bool :=
  negb isCGOET &&
  match registry !! kCAM_EXPMODE with
  | Some pFact => rawValue pFact =? 1
  | None => false
  end.

Definition cal_invariant (c : Calibration) : Prop :=
  0 <= _gimbalProgress c < 255 /\
  (_gimbalCalOn c = false -> _gimbalProgress c = 0 \/ _gimbalProgress c = 100) /\
  (_gimbalTimer c <> None -> _gimbalCalOn c = true).

(** *** Invariant of the capture tracker, and active exclusion rules *)

Definition capture_invariant (c : Capture) : Prop :=
  (_recTimer c = true <-> _video_status c = VIDEO_CAPTURE_STATUS_RUNNING) /\
  (_video_status c <> VIDEO_CAPTURE_STATUS_RUNNING -> _recordTime c = 0).

(** [key] is excluded by a rule whose trigger parameter currently has the
    rule's value. *)
Definition excluded (cfg : CaptureConfig) (key : string) : Prop :=
  exists rule pFact,
    In rule (_valueExclusions cfg) /\
    cfg_facts cfg !! param rule = Some pFact /\
    value rule = rawValueString pFact /\
    In key (exclusions rule).

(** A message whose identifier is none of the four the router knows. *)
Definition unknown_id {I : MessageIds} (message : Message) : Prop :=
  msgid message <> MAVLINK_MSG_ID_AUTOPILOT_VERSION /\
  msgid message <> MAVLINK_MSG_ID_MOUNT_ORIENTATION /\
  msgid message <> MAVLINK_MSG_ID_COMMAND_ACK /\
  msgid message <> MAVLINK_MSG_ID_HEARTBEAT.

(* ===================================================================== *)
(** * Part II: properties                                                 *)
(* ===================================================================== *)

(** ** QMap: which entry comes first *)

Section QMapFacts.

Context {T A : Type} (kf : A -> Z) (vf : A -> T).

Lemma qmap_first_hd (m : QMap T) : qmap_first m = snd <$> hd_error m.
Proof. destruct m as [|[k v] rest]; reflexivity. Qed.

Lemma hd_qmap_insert k (v : T) m :
  hd_error (qmap_insert k v m) = qmap_pick (hd_error m) k v.
Proof.
  destruct m as [|[k' v'] rest]; simpl; [reflexivity|].
  destruct (Z.ltb_spec k k'), (Z.ltb_spec k' k), (Z.leb_spec k k');
    simpl; reflexivity || lia.
Qed.

Lemma hd_fold_insert (l : list A) (m : QMap T) :
  hd_error (fold_left (fun m x => qmap_insert (kf x) (vf x) m) l m)
  = fold_left (fun b x => qmap_pick b (kf x) (vf x)) l (hd_error m).
Proof.
  revert m. induction l as [|x l IH]; intros m; simpl; [reflexivity|].
  rewrite IH, hd_qmap_insert. reflexivity.
Qed.

(** Scanning [l] from an initial best entry [b]: the final entry is either
    the last element of [l] with the smallest key, or [b] itself when every
    key of [l] is larger. *)
Lemma fold_pick_spec (l : list A) (b : option (Z * T)) k v :
  fold_left (fun b x => qmap_pick b (kf x) (vf x)) l b = Some (k, v) ->
  (forall y, In y l -> k <= kf y) /\
  (forall k0 v0, b = Some (k0, v0) -> k <= k0) /\
  ((exists pre x post,
       l = pre ++ x :: post /\ k = kf x /\ v = vf x /\
       forall y, In y post -> kf x < kf y)
   \/ (b = Some (k, v) /\ forall y, In y l -> k < kf y)).
Proof.
  revert b. induction l as [|x l IH]; intros b H; simpl in H.
  - subst b. repeat split.
    + intros y [].
    + intros k0 v0 [= -> ->]. lia.
    + right. split; [reflexivity | intros y []].
  - apply IH in H as (Hmin & Hb & Hcase).
    assert (Hx : k <= kf x /\ forall k0 v0, b = Some (k0, v0) -> k <= k0).
    { destruct b as [[k0 v0]|]; simpl in Hb.
      - destruct (Z.leb_spec (kf x) k0).
        + specialize (Hb _ _ eq_refl). split; [lia|].
          intros ? ? [= <- <-]. lia.
        + specialize (Hb _ _ eq_refl). split; [lia|].
          intros ? ? [= <- <-]. lia.
      - specialize (Hb _ _ eq_refl). split; [lia | discriminate]. }
    destruct Hx as [Hkx Hb'].
    repeat split.
    + intros y [<- | Hy]; [assumption | apply Hmin, Hy].
    + exact Hb'.
    + destruct Hcase as [(pre & x' & post & -> & -> & -> & Hpost) | [Hpick Hall]].
      * left. exists (x :: pre), x', post. repeat split; assumption.
      * destruct b as [[k0 v0]|]; simpl in Hpick.
        -- destruct (Z.leb_spec (kf x) k0).
           ++ injection Hpick as <- <-. left. exists [], x, l.
              repeat split; assumption.
           ++ injection Hpick as <- <-. right. split; [reflexivity|].
              intros y [<- | Hy]; [lia | apply Hall, Hy].
        -- injection Hpick as <- <-. left. exists [], x, l.
           repeat split; assumption.
Qed.

Lemma fold_pick_some (l : list A) (b : option (Z * T)) :
  l <> [] \/ b <> None ->
  exists k v, fold_left (fun b x => qmap_pick b (kf x) (vf x)) l b = Some (k, v).
Proof.
  revert b. induction l as [|x l IH]; intros b H; simpl.
  - destruct b as [[k v]|]; [eauto | destruct H; congruence].
  - apply IH. right. destruct b as [[k0 v0]|]; simpl; [|discriminate].
    destruct (kf x <=? k0); discriminate.
Qed.

(** [first()] of the map built from [l]: the value of the last element of
    [l] whose key is the smallest. *)
Lemma qmap_first_fold (l : list A) :
  l <> [] ->
  exists pre x post,
    l = pre ++ x :: post /\
    qmap_first (fold_left (fun m x => qmap_insert (kf x) (vf x) m) l []) = Some (vf x) /\
    (forall y, In y l -> kf x <= kf y) /\
    (forall y, In y post -> kf x < kf y).
Proof.
  intros Hl. rewrite qmap_first_hd, hd_fold_insert. simpl.
  destruct (fold_pick_some l None (or_introl Hl)) as (k & v & Hf).
  rewrite Hf. simpl.
  apply fold_pick_spec in Hf as (Hmin & _ & [(pre & x & post & -> & -> & -> & Hpost) | [? _]]);
    [|discriminate].
  exists pre, x, post. repeat split; assumption.
Qed.

Lemma qmap_first_fold_nil :
  qmap_first (fold_left (fun m x => qmap_insert (kf x) (vf x) m) [] []) = None.
Proof. reflexivity. Qed.

End QMapFacts.

(** ** Machine integers and rounding: basic facts *)

Lemma to_int32_id z : - 2 ^ 31 <= z < 2 ^ 31 -> to_int32 z = z.
Proof. intros H. unfold to_int32. rewrite Z.mod_small; lia. Qed.

Lemma to_uint32_id z : 0 <= z < 2 ^ 32 -> to_uint32 z = z.
Proof. intros H. unfold to_uint32. apply Z.mod_small. lia. Qed.

Lemma iso_diff_exact m v :
  0 <= m < 2 ^ 31 -> 0 <= v < 2 ^ 31 -> iso_diff m v = Z.abs (m - v).
Proof.
  intros Hm Hv. unfold iso_diff, toInt, int_abs, int_sub.
  rewrite (to_int32_id m), (to_int32_id v) by lia.
  rewrite (to_int32_id (m - v)) by lia.
  rewrite to_int32_id by lia.
  apply to_uint32_id. lia.
Qed.

Module IEEEFacts.
Import IEEE.

(** [rne_div a b] is one of the two integers around [a / b], at most half
    a unit away from it. *)
Lemma rne_div_near a b :
  0 < b -> 2 * Z.abs (b * rne_div a b - a) <= b.
Proof.
  intros Hb. unfold rne_div.
  pose proof (Z.div_mod a b ltac:(lia)) as Hdm.
  pose proof (Z.mod_pos_bound a b Hb) as Hr.
  destruct (Z.compare_spec (2 * (a mod b)) b); [destruct (Z.even (a / b))| |]; nia.
Qed.

Lemma rne_div_floor a b : 0 < b -> a / b <= rne_div a b <= a / b + 1.
Proof.
  intros Hb. unfold rne_div.
  destruct (2 * (a mod b) ?= b); [destruct (Z.even (a / b))| |]; lia.
Qed.

Lemma rne_div_exact a b : 0 < b -> a mod b = 0 -> rne_div a b = a / b.
Proof.
  intros Hb H0. unfold rne_div. rewrite H0.
  destruct (Z.compare_spec (2 * 0) b); lia.
Qed.

Lemma rne_div_1 a : rne_div a 1 = a.
Proof. rewrite rne_div_exact by (lia || apply Z.mod_1_r). apply Z.div_1_r. Qed.

(** Rounding never turns a positive number of units into zero. *)
Lemma rnd_pos_positive prec n : 0 < prec -> 0 < n -> 0 < rnd_pos prec n 1.
Proof.
  intros Hprec Hn. unfold rnd_pos. rewrite Z.div_1_r.
  destruct (Z.leb_spec (Z.log2 n - (prec - 1)) 0) as [Hs|Hs].
  - rewrite rne_div_1. exact Hn.
  - set (s := Z.log2 n - (prec - 1)) in *.
    assert (Hp : 0 < 2 ^ s) by (apply Z.pow_pos_nonneg; lia).
    assert (Hle : 2 ^ s <= n).
    { pose proof (Z.log2_spec n Hn) as [Hlo _].
      assert (2 ^ s <= 2 ^ Z.log2 n); [|lia].
      apply Z.pow_le_mono_r; [lia|]. pose proof (Z.log2_nonneg n). lia. }
    pose proof (rne_div_floor n (1 * 2 ^ s) ltac:(lia)) as [Hf _].
    assert (1 <= n / (1 * 2 ^ s)).
    { rewrite Z.mul_1_l. apply Z.div_le_lower_bound; lia. }
    apply Z.mul_pos_pos; lia.
Qed.

Lemma rnd_zero_iff prec z : 0 < prec -> rnd prec z 1 = 0 <-> z = 0.
Proof.
  intros Hprec. unfold rnd. split.
  - intros H. destruct (Z.eq_dec z 0) as [|Hz]; [assumption|exfalso].
    pose proof (rnd_pos_positive prec (Z.abs z) Hprec ltac:(lia)). nia.
  - intros ->. reflexivity.
Qed.

Lemma dbl_inf_pos : 0 < dbl_inf.
Proof. unfold dbl_inf. apply Z.pow_pos_nonneg; lia. Qed.

Lemma dbl_clamp_zero_iff z : dbl_clamp z = 0 <-> z = 0.
Proof. unfold dbl_clamp. pose proof dbl_inf_pos. lia. Qed.

(** *** Exact cases and the relative error *)

Lemma rne_div_scale a b c :
  0 < b -> 0 < c -> rne_div (a * c) (b * c) = rne_div a b.
Proof.
  intros Hb Hc. unfold rne_div.
  rewrite Z.div_mul_cancel_r by lia.
  rewrite Zmult_mod_distr_r.
  replace (2 * (a mod b * c)) with (2 * (a mod b) * c) by lia.
  rewrite <- (Zmult_compare_compat_r (2 * (a mod b)) b c) by lia.
  reflexivity.
Qed.

Lemma rnd_pos_scale prec a b c :
  0 < b -> 0 < c -> rnd_pos prec (a * c) (b * c) = rnd_pos prec a b.
Proof.
  intros Hb Hc. unfold rnd_pos.
  rewrite Z.div_mul_cancel_r by lia.
  destruct (Z.leb_spec (Z.log2 (a / b) - (prec - 1)) 0) as [Hs|Hs].
  - apply rne_div_scale; assumption.
  - f_equal.
    replace (b * c * 2 ^ (Z.log2 (a / b) - (prec - 1)))
      with (b * 2 ^ (Z.log2 (a / b) - (prec - 1)) * c) by lia.
    apply rne_div_scale; [|assumption].
    apply Z.mul_pos_pos; [assumption|]. apply Z.pow_pos_nonneg; lia.
Qed.

Lemma rnd_pos_zero prec den : 0 < prec -> 0 < den -> rnd_pos prec 0 den = 0.
Proof.
  intros Hp Hd. unfold rnd_pos. rewrite Z.div_0_l by lia.
  change (Z.log2 0) with 0.
  destruct (Z.leb_spec (0 - (prec - 1)) 0); [|lia].
  unfold rne_div. rewrite Z.div_0_l, Z.mod_0_l by lia.
  destruct (Z.compare_spec (2 * 0) den); lia.
Qed.

Lemma rnd_nonneg prec num den :
  0 < prec -> 0 < den -> 0 <= num -> rnd prec num den = rnd_pos prec num den.
Proof.
  intros Hp Hd Hn. unfold rnd.
  destruct (Z.eq_dec num 0) as [->|Hne].
  - cbn [Z.sgn Z.mul]. symmetry. apply rnd_pos_zero; assumption.
  - rewrite Z.sgn_pos, Z.abs_eq by lia. lia.
Qed.

(** A number with at most [prec] significant bits rounds to itself. *)
Lemma rnd_pos_exact prec m e :
  0 < prec -> 0 <= m < 2 ^ prec -> 0 <= e ->
  rnd_pos prec (m * 2 ^ e) 1 = m * 2 ^ e.
Proof.
  intros Hp Hm He.
  destruct (Z.eq_dec m 0) as [->|Hne].
  { rewrite Z.mul_0_l. apply rnd_pos_zero; lia. }
  unfold rnd_pos. rewrite Z.div_1_r.
  rewrite Z.log2_mul_pow2 by lia.
  assert (Hlog : Z.log2 m < prec) by (apply Z.log2_lt_pow2; lia).
  destruct (Z.leb_spec (e + Z.log2 m - (prec - 1)) 0) as [Hs|Hs].
  - apply rne_div_1.
  - set (s := e + Z.log2 m - (prec - 1)) in *.
    assert (Hsplit : m * 2 ^ e = m * 2 ^ (e - s) * 2 ^ s).
    { rewrite <- Z.mul_assoc, <- Z.pow_add_r by lia. do 2 f_equal. lia. }
    assert (Hpos : 0 < 2 ^ s) by (apply Z.pow_pos_nonneg; lia).
    rewrite Z.mul_1_l, rne_div_exact.
    + rewrite Hsplit at 1. rewrite Z.div_mul by lia. lia.
    + assumption.
    + rewrite Hsplit. apply Z.mod_mul. lia.
Qed.

(** In the normal range the rounding error is at most [2 ^ - prec] of the
    rounded number. *)
Lemma rnd_pos_rel prec num den :
  0 < prec -> 0 < den -> 2 ^ (prec - 1) <= num / den ->
  2 ^ prec * Z.abs (den * rnd_pos prec num den - num) <= num.
Proof.
  intros Hp Hd Hq.
  assert (Hp1 : 0 < 2 ^ (prec - 1)) by (apply Z.pow_pos_nonneg; lia).
  assert (Hq0 : 0 < num / den) by lia.
  pose proof (Z.log2_spec _ Hq0) as [Hlo _].
  assert (Hlog : prec - 1 <= Z.log2 (num / den)) by (apply Z.log2_le_pow2; lia).
  assert (Hqd : den * (num / den) <= num).
  { apply Z.mul_div_le. assumption. }
  assert (H2p : 2 ^ prec = 2 * 2 ^ (prec - 1)).
  { rewrite <- Z.pow_succ_r by lia. f_equal. lia. }
  unfold rnd_pos.
  set (s := Z.log2 (num / den) - (prec - 1)) in *.
  assert (Hs : 2 ^ (prec - 1) * 2 ^ s = 2 ^ Z.log2 (num / den)).
  { rewrite <- Z.pow_add_r by lia. f_equal. lia. }
  assert (Hps : 0 < 2 ^ s) by (apply Z.pow_pos_nonneg; lia).
  destruct (Z.leb_spec s 0) as [Hs0|Hs0].
  - assert (s = 0) by lia.
    pose proof (rne_div_near num den Hd) as Hnear.
    assert (2 ^ (prec - 1) * den <= num) by nia.
    rewrite H2p. nia.
  - pose proof (rne_div_near num (den * 2 ^ s) ltac:(nia)) as Hnear.
    replace (den * (2 ^ s * rne_div num (den * 2 ^ s)))
      with (den * 2 ^ s * rne_div num (den * 2 ^ s)) by lia.
    assert (den * (2 ^ (prec - 1) * 2 ^ s) <= num) by (rewrite Hs; nia).
    rewrite H2p. nia.
Qed.

Lemma rnd_pos_nonneg prec num den :
  0 <= num -> 0 < den -> 0 <= rnd_pos prec num den.
Proof.
  intros Hn Hd. unfold rnd_pos.
  destruct (Z.leb_spec (Z.log2 (num / den) - (prec - 1)) 0) as [Hs|Hs].
  - pose proof (rne_div_floor num den Hd).
    pose proof (Z.div_pos num den Hn Hd). lia.
  - set (s := Z.log2 (num / den) - (prec - 1)) in *.
    assert (0 < 2 ^ s) by (apply Z.pow_pos_nonneg; lia).
    pose proof (rne_div_floor num (den * 2 ^ s) ltac:(lia)).
    pose proof (Z.div_pos num (den * 2 ^ s) Hn ltac:(lia)).
    apply Z.mul_nonneg_nonneg; lia.
Qed.

(** With denominator 1 the bound holds everywhere: below the normal range
    the rounding is exact. *)
Lemma rnd_pos_rel1 prec x :
  0 < prec -> 0 <= x -> 2 ^ prec * Z.abs (rnd_pos prec x 1 - x) <= x.
Proof.
  intros Hp Hx.
  destruct (Z.le_gt_cases (2 ^ (prec - 1)) x) as [Hn|Hs].
  - pose proof (rnd_pos_rel prec x 1 Hp ltac:(lia)) as H.
    rewrite Z.div_1_r, Z.mul_1_l in H. apply H. exact Hn.
  - unfold rnd_pos. rewrite Z.div_1_r.
    assert (Hlog : Z.log2 x - (prec - 1) <= 0).
    { destruct (Z.eq_dec x 0) as [->|Hne]; [simpl; lia|].
      assert (Z.log2 x < prec - 1) by (apply Z.log2_lt_pow2; lia). lia. }
    destruct (Z.leb_spec (Z.log2 x - (prec - 1)) 0); [|lia].
    rewrite rne_div_1, Z.sub_diag. simpl. lia.
Qed.

Lemma rnd_pos_lower prec x :
  0 < prec -> 0 <= x -> (2 ^ prec - 1) * x <= 2 ^ prec * rnd_pos prec x 1.
Proof. intros Hp Hx. pose proof (rnd_pos_rel1 prec x Hp Hx). lia. Qed.

Lemma rnd_pos_upper prec x :
  0 < prec -> 0 <= x -> 2 ^ prec * rnd_pos prec x 1 <= (2 ^ prec + 1) * x.
Proof. intros Hp Hx. pose proof (rnd_pos_rel1 prec x Hp Hx). lia. Qed.

(** Rounding does not cross a power of two. *)
Lemma rnd_pos_le_pow2 prec x k :
  0 < prec -> 0 <= k -> 0 <= x <= 2 ^ k -> rnd_pos prec x 1 <= 2 ^ k.
Proof.
  intros Hp Hk Hx.
  destruct (Z.eq_dec x (2 ^ k)) as [->|Hne].
  { rewrite <- (Z.mul_1_l (2 ^ k)) at 1. rewrite rnd_pos_exact; try lia.
    split; [lia|]. apply Z.pow_gt_1; lia. }
  unfold rnd_pos. rewrite Z.div_1_r.
  destruct (Z.leb_spec (Z.log2 x - (prec - 1)) 0) as [Hs|Hs].
  - rewrite rne_div_1. lia.
  - set (s := Z.log2 x - (prec - 1)) in *.
    assert (Hx0 : 0 < x).
    { destruct (Z.eq_dec x 0) as [H0|H0]; [|lia].
      subst x. unfold s in Hs. simpl in Hs. lia. }
    assert (Hlog : Z.log2 x < k) by (apply Z.log2_lt_pow2; lia).
    assert (Hps : 0 < 2 ^ s) by (apply Z.pow_pos_nonneg; lia).
    assert (Hsplit : 2 ^ k = 2 ^ s * 2 ^ (k - s)).
    { rewrite <- Z.pow_add_r by lia. f_equal. lia. }
    rewrite Z.mul_1_l.
    pose proof (rne_div_floor x (2 ^ s) Hps) as [_ Hq].
    assert (x / 2 ^ s < 2 ^ (k - s)) by (apply Z.div_lt_upper_bound; lia).
    rewrite Hsplit. apply Z.mul_le_mono_nonneg_l; lia.
Qed.


End IEEEFacts.

(** ** Value reconciler *)

Lemma shutter_diff_nonneg m v : 0 <= shutter_diff m v.
Proof. unfold shutter_diff, IEEE.dbl_fabs. lia. Qed.

Lemma shutter_diff_zero_iff m v : shutter_diff m v = 0 <-> v = m.
Proof.
  unfold shutter_diff, IEEE.dbl_fabs, IEEE.dbl_sub.
  rewrite Z.abs_0_iff, IEEEFacts.dbl_clamp_zero_iff, IEEEFacts.rnd_zero_iff by lia.
  lia.
Qed.

(** A subtraction whose exact result is a double is computed exactly. *)
Lemma shutter_diff_exact m v :
  IEEE.is_double (m - v) -> shutter_diff m v = Z.abs (m - v).
Proof.
  intros [Hr Hb]. unfold shutter_diff, IEEE.dbl_fabs, IEEE.dbl_sub, IEEE.dbl_clamp.
  rewrite Hr. f_equal. lia.
Qed.

Lemma ordering_key_zero_iff p m v : ordering_key p m v = 0 <-> v = m.
Proof. destruct p; simpl; [apply shutter_diff_zero_iff | lia]. Qed.

Lemma ordering_key_nonneg p m v : 0 <= ordering_key p m v.
Proof. destruct p; simpl; [apply shutter_diff_nonneg | lia]. Qed.

(** A value with the smallest key is m itself once m is allowed. *)
Lemma nearest_is_member p (V : list Z) m r :
  (forall v, In v V -> ordering_key p m r <= ordering_key p m v) -> In m V -> r = m.
Proof.
  intros Hmin HmV. specialize (Hmin m HmV).
  assert (H0 : ordering_key p m m = 0) by (apply ordering_key_zero_iff; reflexivity).
  pose proof (ordering_key_nonneg p m r).
  apply (ordering_key_zero_iff p m r). lia.
Qed.

(** On its domain, each reconciler returns the last allowed value with the
    smallest key. *)
Lemma reconcile_spec p (V : list Z) m :
  V <> [] -> param_value p m -> Forall (param_value p) V ->
  exists pre r post,
    V = pre ++ r :: post /\
    reconcile p V m = Some r /\
    (forall v, In v V -> ordering_key p m r <= ordering_key p m v) /\
    (forall v, In v post -> ordering_key p m r < ordering_key p m v).
Proof.
  intros HV Hm HVs. destruct p; simpl in *.
  - destruct (qmap_first_fold (shutter_diff m) (fun v => v) V HV)
      as (pre & r & post & HVeq & Hfirst & Hmin & Hpost).
    exists pre, r, post. repeat split; assumption.
  - destruct (qmap_first_fold (iso_diff m) toUInt V HV)
      as (pre & r & post & HVeq & Hfirst & Hmin & Hpost).
    rewrite List.Forall_forall in HVs.
    assert (Hr : 0 <= r < 2 ^ 31) by (apply HVs; subst V; apply in_elt).
    exists pre, r, post. repeat split.
    + assumption.
    + unfold _validateISO. rewrite Hfirst. unfold toUInt.
      rewrite to_uint32_id by lia. reflexivity.
    + intros v Hv. specialize (Hmin v Hv).
      assert (0 <= v < 2 ^ 31) by (apply HVs, Hv).
      rewrite !iso_diff_exact in Hmin by lia. exact Hmin.
    + intros v Hv.
      assert (0 <= v < 2 ^ 31).
      { apply HVs. subst V. apply in_or_app. right. right. exact Hv. }
      specialize (Hpost v Hv). rewrite !iso_diff_exact in Hpost by lia. exact Hpost.
Qed.

(** The key of a shutter speed is the rounded distance, or infinity. *)
Lemma shutter_diff_eq m v :
  shutter_diff m v = Z.min (IEEE.rnd_pos 53 (Z.abs (m - v)) 1) IEEE.dbl_inf.
Proof.
  unfold shutter_diff, IEEE.dbl_fabs, IEEE.dbl_sub, IEEE.dbl_clamp, IEEE.rnd.
  pose proof IEEEFacts.dbl_inf_pos.
  pose proof (IEEEFacts.rnd_pos_nonneg 53 (Z.abs (m - v)) 1 ltac:(lia) ltac:(lia)).
  destruct (Z.lt_trichotomy (m - v) 0) as [Hlt|[Heq|Hgt]].
  - rewrite Z.sgn_neg by exact Hlt. lia.
  - rewrite Heq. cbn [Z.sgn Z.abs]. rewrite IEEEFacts.rnd_pos_zero by lia. lia.
  - rewrite Z.sgn_pos by exact Hgt. lia.
Qed.

(** When the differences are doubles the key is the distance. *)
Lemma ordering_key_exact p (V : list Z) m v :
  param_value p m -> Forall (param_value p) V -> exact_diffs p m V -> In v V ->
  ordering_key p m v = abs_diff m v.
Proof.
  intros Hm HVs Hex Hv. destruct p; simpl in *; [|reflexivity].
  rewrite List.Forall_forall in Hex. apply shutter_diff_exact, Hex, Hv.
Qed.

(** A shutter speed with the smaller key is nearer, up to the rounding of
    the two subtractions. *)
Lemma shutter_no_closer m r v :
  shutter_diff m r <= shutter_diff m v -> no_closer CAM_SHUTTERSPD m r v.
Proof.
  intros Hkey. split.
  - intros Hr Hv. rewrite !shutter_diff_exact in Hkey by assumption. exact Hkey.
  - unfold abs_diff. intros Hd. rewrite !shutter_diff_eq in Hkey.
    assert (Hhalf : IEEE.dbl 1 1023 = 2 ^ 2097) by reflexivity.
    assert (Hinf : IEEE.dbl_inf = 2 * 2 ^ 2097) by reflexivity.
    rewrite Hhalf in Hd.
    assert (Hpow : 0 < 2 ^ 2097) by (apply Z.pow_pos_nonneg; lia).
    pose proof (IEEEFacts.rnd_pos_le_pow2 53 (Z.abs (m - v)) 2097
                  ltac:(lia) ltac:(lia) ltac:(lia)) as Hv.
    pose proof (IEEEFacts.rnd_pos_upper 53 (Z.abs (m - v)) ltac:(lia) ltac:(lia)) as Hup.
    pose proof (IEEEFacts.rnd_pos_lower 53 (Z.abs (m - r)) ltac:(lia) ltac:(lia)) as Hlo.
    set (Rr := IEEE.rnd_pos 53 (Z.abs (m - r)) 1) in *.
    set (Rv := IEEE.rnd_pos 53 (Z.abs (m - v)) 1) in *.
    set (h := 2 ^ 2097) in *. rewrite Hinf in Hkey.
    assert (Rr <= Rv) by lia. lia.
Qed.

(** C1 (amended): for the shutter-speed and the ISO parameter, every
    non-empty allowed set V and every measured value m, the reconciler
    returns an element r of V, and m itself when m is in V.  For ISO, r
    minimizes the absolute difference to m.  For shutter speeds r
    minimizes the difference as the double subtraction computes it: no
    allowed value v is nearer to m than r when m - r and m - v are
    doubles, and in general none (at a distance below 2^1023) is nearer by
    more than the rounding, (2^53 - 1) |m - r| <= (2^53 + 1) |m - v|. *)
Theorem reconcile_nearest (p : ReconciledParam) (V : list Z) (m : Z) :
  V <> [] -> param_value p m -> Forall (param_value p) V ->
  exists r,
    reconcile p V m = Some r /\
    In r V /\
    (forall v, In v V -> no_closer p m r v) /\
    (In m V -> r = m).
Proof.
  intros HV Hm HVs.
  destruct (reconcile_spec p V m HV Hm HVs) as (pre & r & post & HVeq & Hrec & Hmin & _).
  exists r. split; [exact Hrec|]. split; [subst V; apply in_elt|]. split.
  - intros v Hv. specialize (Hmin v Hv). destruct p; simpl in Hmin.
    + apply shutter_no_closer, Hmin.
    + exact Hmin.
  - apply (nearest_is_member p V m r Hmin).
Qed.

(** C1 as stated fails for shutter speeds: the double subtraction rounds
    both 2^52 + 1 - 0.75 and 2^52 + 1 - 0.5 to 2^52, the two candidates
    share one key of the map, and the reconciler returns 0.5, which is
    farther from the measured value than 0.75. *)
Lemma reconcile_not_nearest :
  let m := IEEE.dbl (2 ^ 52 + 1) 0 in
  let V := [IEEE.dbl 3 (-2); IEEE.dbl 1 (-1)] in
  param_value CAM_SHUTTERSPD m /\
  Forall (param_value CAM_SHUTTERSPD) V /\
  reconcile CAM_SHUTTERSPD V m = Some (IEEE.dbl 1 (-1)) /\
  In (IEEE.dbl 3 (-2)) V /\
  abs_diff m (IEEE.dbl 3 (-2)) < abs_diff m (IEEE.dbl 1 (-1)).
Proof.
  cbv zeta. split; [|split; [|split; [|split]]].
  - split; vm_compute; reflexivity.
  - repeat constructor; vm_compute; reflexivity.
  - vm_compute. reflexivity.
  - left. reflexivity.
  - vm_compute. reflexivity.
Qed.

(** *** QVariant comparison *)

Lemma QVariant_eq_refl p a : QVariant_eq p a a = true.
Proof. destruct p; simpl; rewrite Z.eqb_refl; reflexivity. Qed.

(** Two doubles that [qFuzzyCompare] takes for equal are within a
    relative [1 / (10 ^ 12 - 1)] of each other. *)
Lemma qFuzzyCompare_bound a b :
  Z.abs a < IEEE.dbl_inf -> Z.abs b < IEEE.dbl_inf ->
  qFuzzyCompare a b = true ->
  (10 ^ 12 - 1) * abs_diff a b <= Z.min (Z.abs a) (Z.abs b).
Proof.
  intros Ha Hb. unfold qFuzzyCompare. rewrite Z.leb_le.
  fold (shutter_diff a b). rewrite shutter_diff_eq.
  unfold IEEE.dbl_fabs, abs_diff.
  set (d := Z.abs (a - b)).
  set (M := Z.min (Z.abs a) (Z.abs b)).
  assert (HM : 0 <= M < IEEE.dbl_inf) by (unfold M; lia).
  pose proof (IEEEFacts.rnd_pos_nonneg 53 d 1 ltac:(unfold d; lia) ltac:(lia)) as HRd.
  pose proof (IEEEFacts.rnd_pos_lower 53 d ltac:(lia) ltac:(unfold d; lia)) as Hlo.
  set (Rd := IEEE.rnd_pos 53 d 1) in *.
  pose proof IEEEFacts.dbl_inf_pos as Hinf.
  set (A := Z.min Rd IEEE.dbl_inf).
  assert (HA : 0 <= A) by (unfold A; lia).
  unfold IEEE.dbl_mul, IEEE.dbl, IEEE.dbl_clamp.
  replace (A * (10 ^ 12 * 2 ^ (1074 + 0))) with (A * 10 ^ 12 * IEEE.dbl_unit)
    by (unfold IEEE.dbl_unit; rewrite Z.add_0_r; ring).
  assert (Hu : 0 < IEEE.dbl_unit) by (unfold IEEE.dbl_unit; apply Z.pow_pos_nonneg; lia).
  rewrite IEEEFacts.rnd_nonneg by nia.
  rewrite <- (Z.mul_1_l IEEE.dbl_unit) at 2.
  rewrite IEEEFacts.rnd_pos_scale by lia.
  pose proof (IEEEFacts.rnd_pos_lower 53 (A * 10 ^ 12) ltac:(lia) ltac:(lia)) as HloP.
  pose proof (IEEEFacts.rnd_pos_nonneg 53 (A * 10 ^ 12) 1 ltac:(lia) ltac:(lia)) as HRp.
  set (Rp := IEEE.rnd_pos 53 (A * 10 ^ 12) 1) in *.
  intros HP.
  assert (HRpM : Rp <= M) by lia.
  destruct (Z.le_gt_cases IEEE.dbl_inf Rd) as [Hover|Hfin].
  - assert (A = IEEE.dbl_inf) by (unfold A; lia). lia.
  - assert (A = Rd) by (unfold A; lia). lia.
Qed.

Lemma QVariant_eq_same p a b :
  param_value p a -> param_value p b ->
  QVariant_eq p a b = true -> same_value p a b.
Proof.
  destruct p; simpl.
  - intros [_ Ha] [_ Hb]. rewrite orb_true_iff, Z.eqb_eq. intros [->|Hfz].
    + unfold abs_diff. rewrite Z.sub_diag. simpl. lia.
    + apply qFuzzyCompare_bound; assumption.
  - intros _ _. apply Z.eqb_eq.
Qed.

Lemma same_value_sym p a b : same_value p a b -> same_value p b a.
Proof.
  destruct p; simpl; [|auto]. unfold abs_diff.
  replace (Z.abs (b - a)) with (Z.abs (a - b)) by lia. lia.
Qed.

(** [validateParameter] accepts every allowed value, and what it accepts
    is an allowed value or, for a shutter speed, a double that [QVariant]
    comparison cannot tell from one. *)
Theorem validateParameter_accepts (p : ReconciledParam) (V : list Z) (m : Z) :
  V <> [] -> param_value p m -> Forall (param_value p) V ->
  exists b,
    validateParameter p V m = Some b /\
    (In m V -> b = true) /\
    (b = true -> exists v, In v V /\ same_value p m v).
Proof.
  intros HV Hm HVs. unfold validateParameter.
  destruct (reconcile_spec p V m HV Hm HVs) as (pre & r & post & HVeq & -> & Hmin & _).
  assert (Hin : In r V) by (rewrite HVeq; apply in_elt).
  pose proof (nearest_is_member p V m r Hmin) as Hmem.
  exists (QVariant_eq p r m). split; [reflexivity|]. split.
  - intros HmV. rewrite (Hmem HmV). apply QVariant_eq_refl.
  - intros Heq. exists r. split; [exact Hin|].
    apply same_value_sym, QVariant_eq_same; [|exact Hm|exact Heq].
    rewrite List.Forall_forall in HVs. apply HVs, Hin.
Qed.

(** A shutter speed one unit in the last place above the only allowed
    value 0.5 is not allowed, and [validateParameter] accepts it. *)
Example validateParameter_near_miss :
  let m := IEEE.dbl (2 ^ 52 + 1) (-53) in
  param_value CAM_SHUTTERSPD m /\
  ~ In m [IEEE.dbl 1 (-1)] /\
  validateParameter CAM_SHUTTERSPD [IEEE.dbl 1 (-1)] m = Some true /\
  validateParameter CAM_SHUTTERSPD [IEEE.dbl 1 (-1)] (IEEE.dbl 3 (-2)) = Some false.
Proof.
  cbv zeta. split; [split; vm_compute; reflexivity|]. split.
  - intros [H|[]]. vm_compute in H. discriminate H.
  - vm_compute. split; reflexivity.
Qed.

(** The pending-update list never holds a parameter name twice. *)
Lemma incomingParameter_no_duplicates p name (V : list Z) m pending v pending' flush :
  NoDup pending ->
  incomingParameter p name V m pending = Some (v, pending', flush) ->
  NoDup pending'.
Proof.
  intros Hnd. unfold incomingParameter.
  destruct (reconcile p V m) as [r|]; [|discriminate].
  destruct (QVariant_eq p m r); [intros [= <- <- <-]; exact Hnd|].
  destruct (existsb (String.eqb name) pending) eqn:Hex;
    intros [= <- <- <-]; [exact Hnd|].
  apply NoDup_app. repeat split; [exact Hnd | | apply NoDup_singleton].
  intros x Hx Hx'. apply list_elem_of_singleton in Hx'. subst x.
  assert (Hin : existsb (String.eqb name) pending = true); [|congruence].
  apply existsb_exists. exists name. split.
  - apply list_elem_of_In, Hx.
  - apply String.eqb_refl.
Qed.

(** For shutter speeds whose differences to m are computed without
    rounding, the returned value also minimizes the exact difference. *)
Lemma shutter_nearest_exact (V : list Z) (m r : Z) :
  Forall (fun v => IEEE.is_double (m - v)) V ->
  _validateShutterSpeed V m = Some r ->
  In r V /\ forall v, In v V -> Z.abs (m - r) <= Z.abs (m - v).
Proof.
  intros Hex Hr. rewrite List.Forall_forall in Hex.
  destruct V as [|v0 V']; [discriminate|].
  destruct (qmap_first_fold (shutter_diff m) (fun v => v) (v0 :: V') ltac:(discriminate))
    as (pre & x & post & HVeq & Hfirst & Hmin & _).
  unfold _validateShutterSpeed in Hr. rewrite Hfirst in Hr. injection Hr as ->.
  assert (Hin : In r (v0 :: V')) by (rewrite HVeq; apply in_elt).
  split; [exact Hin|]. intros v Hv. specialize (Hmin v Hv).
  rewrite !shutter_diff_exact in Hmin by (apply Hex; assumption). exact Hmin.
Qed.

Lemma reconcile_nearest_witness :
  (exists r,
     reconcile CAM_ISO [100; 200; 400; 800] 137 = Some r /\
     In r [100; 200; 400; 800] /\
     (forall v, In v [100; 200; 400; 800] -> no_closer CAM_ISO 137 r v) /\
     (In 137 [100; 200; 400; 800] -> r = 137))
  /\
  (exists r,
     reconcile CAM_SHUTTERSPD [IEEE.dbl 1 (-3); IEEE.dbl 1 (-2); IEEE.dbl 1 (-1)]
       (IEEE.dbl 3 (-3)) = Some r /\
     In r [IEEE.dbl 1 (-3); IEEE.dbl 1 (-2); IEEE.dbl 1 (-1)] /\
     (forall v, In v [IEEE.dbl 1 (-3); IEEE.dbl 1 (-2); IEEE.dbl 1 (-1)] ->
        no_closer CAM_SHUTTERSPD (IEEE.dbl 3 (-3)) r v) /\
     (In (IEEE.dbl 3 (-3)) [IEEE.dbl 1 (-3); IEEE.dbl 1 (-2); IEEE.dbl 1 (-1)] ->
        r = IEEE.dbl 3 (-3))).
Proof.
  split.
  - apply (reconcile_nearest CAM_ISO [100; 200; 400; 800] 137).
    + discriminate.
    + simpl. lia.
    + repeat constructor; simpl; lia.
  - apply (reconcile_nearest CAM_SHUTTERSPD
             [IEEE.dbl 1 (-3); IEEE.dbl 1 (-2); IEEE.dbl 1 (-1)] (IEEE.dbl 3 (-3))).
    + discriminate.
    + split; vm_compute; reflexivity.
    + repeat constructor; vm_compute; reflexivity.
Defined.

(** The ISO reconciler snaps 137 to 100, and 0.375 s snaps to 0.5 s. *)
Example reconcile_samples :
  reconcile CAM_ISO [100; 200; 400; 800] 137 = Some 100 /\
  reconcile CAM_ISO [100; 200; 400; 800] 400 = Some 400 /\
  reconcile CAM_SHUTTERSPD [IEEE.dbl 1 (-3); IEEE.dbl 1 (-2); IEEE.dbl 1 (-1)]
    (IEEE.dbl 3 (-3)) = Some (IEEE.dbl 1 (-1)) /\
  reconcile CAM_ISO [] 137 = None.
Proof. vm_compute. repeat split; reflexivity. Qed.

(** C2 as stated fails: 150 is equally far from 100 and 200; the first of
    the two in the allowed set is 100, and the reconciler returns 200.
    The same holds for the shutter speeds 1 s and 3 s around 2 s. *)
Lemma reconcile_tie_not_first :
  abs_diff 150 100 = abs_diff 150 200 /\
  first_nearest (abs_diff 150) [100; 200] = Some 100 /\
  reconcile CAM_ISO [100; 200] 150 = Some 200 /\
  abs_diff (IEEE.dbl 2 0) (IEEE.dbl 1 0) = abs_diff (IEEE.dbl 2 0) (IEEE.dbl 3 0) /\
  first_nearest (abs_diff (IEEE.dbl 2 0)) [IEEE.dbl 1 0; IEEE.dbl 3 0]
    = Some (IEEE.dbl 1 0) /\
  reconcile CAM_SHUTTERSPD [IEEE.dbl 1 0; IEEE.dbl 3 0] (IEEE.dbl 2 0)
    = Some (IEEE.dbl 3 0) /\
  IEEE.dbl 1 0 <> IEEE.dbl 3 0.
Proof. vm_compute. repeat split; try reflexivity. discriminate. Qed.

(** C2 (amended): when several allowed values are equally close to the
    measured value, the reconciler returns the one that comes last in the
    enumeration of the allowed set: every allowed value after the returned
    one is strictly farther from the measured value, and none is closer.
    Distances are exact; for shutter speeds the differences to the
    measured value are assumed to be doubles, so that the subtraction of
    the code does not round. *)
Theorem reconcile_tie_last (p : ReconciledParam) (V : list Z) (m r : Z) :
  param_value p m -> Forall (param_value p) V -> exact_diffs p m V ->
  reconcile p V m = Some r ->
  exists pre post,
    V = pre ++ r :: post /\
    (forall v, In v V -> abs_diff m r <= abs_diff m v) /\
    (forall v, In v post -> abs_diff m r < abs_diff m v).
Proof.
  intros Hm HVs Hex Hrec.
  assert (HV : V <> []).
  { intros ->. destruct p; discriminate. }
  destruct (reconcile_spec p V m HV Hm HVs) as (pre & r' & post & HVeq & Hrec' & Hmin & Hpost).
  rewrite Hrec in Hrec'. injection Hrec' as <-.
  assert (Hin : In r V) by (rewrite HVeq; apply in_elt).
  exists pre, post. split; [exact HVeq|]. split.
  - intros v Hv. specialize (Hmin v Hv).
    rewrite (ordering_key_exact p V m r), (ordering_key_exact p V m v) in Hmin
      by assumption.
    exact Hmin.
  - intros v Hv.
    assert (HvV : In v V) by (rewrite HVeq; apply in_or_app; right; right; exact Hv).
    specialize (Hpost v Hv).
    rewrite (ordering_key_exact p V m r), (ordering_key_exact p V m v) in Hpost
      by assumption.
    exact Hpost.
Qed.

Lemma reconcile_tie_last_witness :
  (exists pre post,
     [100; 200; 400] = pre ++ 200 :: post /\
     (forall v, In v [100; 200; 400] -> abs_diff 150 200 <= abs_diff 150 v) /\
     (forall v, In v post -> abs_diff 150 200 < abs_diff 150 v))
  /\
  (exists pre post,
     [IEEE.dbl 1 0; IEEE.dbl 3 0; IEEE.dbl 5 0] = pre ++ IEEE.dbl 3 0 :: post /\
     (forall v, In v [IEEE.dbl 1 0; IEEE.dbl 3 0; IEEE.dbl 5 0] ->
        abs_diff (IEEE.dbl 2 0) (IEEE.dbl 3 0) <= abs_diff (IEEE.dbl 2 0) v) /\
     (forall v, In v post ->
        abs_diff (IEEE.dbl 2 0) (IEEE.dbl 3 0) < abs_diff (IEEE.dbl 2 0) v)).
Proof.
  split.
  - apply (reconcile_tie_last CAM_ISO [100; 200; 400] 150 200).
    + simpl. lia.
    + repeat constructor; simpl; lia.
    + exact I.
    + vm_compute. reflexivity.
  - apply (reconcile_tie_last CAM_SHUTTERSPD
             [IEEE.dbl 1 0; IEEE.dbl 3 0; IEEE.dbl 5 0] (IEEE.dbl 2 0) (IEEE.dbl 3 0)).
    + split; vm_compute; reflexivity.
    + repeat constructor; vm_compute; reflexivity.
    + repeat constructor; vm_compute; reflexivity.
    + vm_compute. reflexivity.
Defined.

(** Where the differences round, the tie rule can fail: around 2^60 the
    values 0 and 2^61 are equally near and -0.5 is farther, yet all three
    subtractions give 2^60 and the last one, -0.5, is returned. *)
Example reconcile_tie_rounded :
  let m := IEEE.dbl 1 60 in
  let V := [0; IEEE.dbl 1 61; - IEEE.dbl 1 (-1)] in
  param_value CAM_SHUTTERSPD m /\ Forall (param_value CAM_SHUTTERSPD) V /\
  reconcile CAM_SHUTTERSPD V m = Some (- IEEE.dbl 1 (-1)) /\
  abs_diff m 0 = abs_diff m (IEEE.dbl 1 61) /\
  abs_diff m 0 < abs_diff m (- IEEE.dbl 1 (-1)) /\
  ~ exact_diffs CAM_SHUTTERSPD m V.
Proof.
  cbv zeta. split; [split; vm_compute; reflexivity|].
  split; [repeat constructor; vm_compute; reflexivity|].
  split; [vm_compute; reflexivity|].
  split; [vm_compute; reflexivity|].
  split; [vm_compute; reflexivity|].
  simpl. intros Hall. inversion Hall as [|? ? _ Hall1].
  inversion Hall1 as [|? ? _ Hall2].
  inversion Hall2 as [|? ? [Hr _] _]. vm_compute in Hr. discriminate Hr.
Qed.

(** The rounding model against the Standard Library's IEEE 754
    specification ([SFsub], [SFdiv], [SFmul]) on inputs that round. *)
Example dbl_sub_agrees :
  let big := 2 ^ 52 + 1 in
  IEEE.of_spec_float (-1074) (SFsub 53 1024 (IEEE.sf64 big 0) (IEEE.sf64 1 (-1)))
    = Some (IEEE.dbl_sub (IEEE.dbl big 0) (IEEE.dbl 1 (-1))) /\
  IEEE.of_spec_float (-1074) (SFsub 53 1024 (IEEE.sf64 3 (-2)) (IEEE.sf64 big 1))
    = Some (IEEE.dbl_sub (IEEE.dbl 3 (-2)) (IEEE.dbl big 1)) /\
  IEEE.of_spec_float (-1074) (SFsub 53 1024 (IEEE.sf64 big 0) (IEEE.sf64 5 (-3)))
    = Some (IEEE.dbl_sub (IEEE.dbl big 0) (IEEE.dbl 5 (-3))).
Proof. vm_compute. repeat split; reflexivity. Qed.

Example flt_ops_agree :
  IEEE.of_spec_float (-149) (SFdiv 24 128 (IEEE.sf32 25) (IEEE.sf32 1280))
    = IEEE.flt_div (25 * IEEE.flt_unit) (1280 * IEEE.flt_unit) /\
  IEEE.of_spec_float (-149) (SFdiv 24 128 (IEEE.sf32 7) (IEEE.sf32 100))
    = IEEE.flt_div (7 * IEEE.flt_unit) (100 * IEEE.flt_unit) /\
  IEEE.of_spec_float (-149)
    (SFmul 24 128 (SFdiv 24 128 (IEEE.sf32 29) (IEEE.sf32 100)) (IEEE.sf32 100))
    = (q ← IEEE.flt_div (29 * IEEE.flt_unit) (100 * IEEE.flt_unit);
       IEEE.flt_mul q flt_100) /\
  IEEE.of_spec_float (-149) (IEEE.sf32 16777217) = IEEE.flt_of_int 16777217 /\
  IEEE.of_spec_float (-149) (IEEE.sf32 16777219) = IEEE.flt_of_int 16777219.
Proof. vm_compute. repeat split; reflexivity. Qed.

(** ** Running a handler over a sequence *)

Lemma run_fst_cons {S M : Type} (h : M -> S -> S * list Effect) m l s :
  fst (run h (m :: l) s) = fst (run h l (fst (h m s))).
Proof. simpl. destruct (h m s) as [s1 e1]. simpl. destruct (run h l s1). reflexivity. Qed.

Lemma run_snd_cons {S M : Type} (h : M -> S -> S * list Effect) m l s :
  snd (run h (m :: l) s) = snd (h m s) ++ snd (run h l (fst (h m s))).
Proof. simpl. destruct (h m s) as [s1 e1]. simpl. destruct (run h l s1). reflexivity. Qed.

Lemma occurrences_app e l1 l2 :
  occurrences e (l1 ++ l2) = (occurrences e l1 + occurrences e l2)%nat.
Proof. induction l1 as [|x l1 IH]; simpl; [reflexivity|]. rewrite IH. lia. Qed.

(** ** Calibration state machine *)

Section CalibrationFacts.

Context {P : Protocol}.

Lemma gimbal_ack_handled result p c :
  _handleCommandAck (gimbal_ack result p) c
  = _handleGimbalResult result (to_uint8 p) c.
Proof.
  unfold _handleCommandAck, gimbal_ack. simpl. rewrite !Z.eqb_refl. reflexivity.
Qed.

Ltac run_acks :=
  rewrite !run_fst_cons; cbn [run fst cal_step]; rewrite !gimbal_ack_handled.

(** The acknowledgments 10, 50 and 99 lead from Inactive through
    InProgress to Settling, with the stall timer armed for 5000 ms. *)
Lemma calibration_settles r1 r2 r3 :
  fst (run cal_step
         [CommandAck (gimbal_ack r1 10); CommandAck (gimbal_ack r2 50);
          CommandAck (gimbal_ack r3 99)] calibration_init)
  = {| _gimbalCalOn := true; _gimbalProgress := 99; _gimbalTimer := Some 5000 |}.
Proof. run_acks. reflexivity. Qed.

(** C3: from the constructor's state (Inactive), the gimbal
    acknowledgments with progress 10, 50 and 99, followed by 5000 ms
    without a further acknowledgment, end in the state Complete with
    progress 100 and the calibration-active flag cleared. *)
Theorem calibration_stall_completes (r1 r2 r3 : Z) :
  let final :=
    fst (run cal_step
           [CommandAck (gimbal_ack r1 10); CommandAck (gimbal_ack r2 50);
            CommandAck (gimbal_ack r3 99); Elapse 5000] calibration_init) in
  cal_state calibration_init = Inactive /\
  cal_state final = Complete /\
  _gimbalProgress final = 100 /\
  _gimbalCalOn final = false.
Proof. cbv zeta. run_acks. repeat split; reflexivity. Qed.

(** Before the deadline the session is still Settling at 99. *)
Lemma calibration_waits r1 r2 r3 ms :
  0 <= ms < 5000 ->
  let c :=
    fst (run cal_step
           [CommandAck (gimbal_ack r1 10); CommandAck (gimbal_ack r2 50);
            CommandAck (gimbal_ack r3 99); Elapse ms] calibration_init) in
  cal_state c = Settling /\ _gimbalProgress c = 99.
Proof.
  intros Hms. cbv zeta. run_acks.
  match goal with
  | |- context [elapse ms ?c] =>
      replace c
        with {| _gimbalCalOn := true; _gimbalProgress := 99; _gimbalTimer := Some 5000 |}
        by reflexivity
  end.
  unfold elapse. cbn [_gimbalTimer].
  destruct (Z.leb_spec 5000 ms); [lia|]. split; reflexivity.
Qed.


Lemma _handleGimbalResult_calOn result p c :
  _gimbalCalOn (fst (_handleGimbalResult result p c))
  = if _gimbalCalOn c then negb (p =? 255)
    else negb (p =? 0) && (p <? 255).
Proof.
  unfold _handleGimbalResult.
  destruct (_gimbalCalOn c) eqn:Hon; simpl.
  - destruct (Z.eqb_spec p 255) as [->|Hne]; simpl; [reflexivity|].
    destruct (Z.ltb_spec p 255); simpl; assumption.
  - destruct (negb (p =? 0) && (p <? 255)) eqn:Hc; simpl;
      destruct (Z.ltb_spec p 255); simpl; reflexivity || assumption.
Qed.


End CalibrationFacts.



(** ** Flight-mode monitor *)

Section FlightModeFacts.

Context {P : Protocol}.

(** One heartbeat of the default component: the flag becomes the
    heartbeat's mode, and a resynchronization is requested exactly when the
    flag was set and the heartbeat is not in the mission sub-mode. *)
Lemma _handleHeartBeat_step d message flag :
  compid message = d ->
  _handleHeartBeat d message flag
  = (in_mission message,
     if flag && negb (in_mission message) then [Invoke _requestAllParameters] else []).
Proof.
  intros Hd. unfold _handleHeartBeat, in_mission. rewrite Hd, Z.eqb_refl.
  destruct (px4_sub_mode (custom_mode message) =? PX4_CUSTOM_SUB_MODE_AUTO_MISSION),
    flag; reflexivity.
Qed.

(** Heartbeats of other components change nothing. *)
Lemma _handleHeartBeat_other d message flag :
  compid message <> d -> _handleHeartBeat d message flag = (flag, []).
Proof.
  intros Hd. unfold _handleHeartBeat.
  destruct (Z.eqb_spec (compid message) d); [contradiction | reflexivity].
Qed.

(** The number of resynchronizations over a sequence, from any flag. *)
Lemma resyncs_run d (heartbeats : list mavlink_message_t) flag :
  Forall (fun message => compid message = d) heartbeats ->
  resyncs (snd (run (_handleHeartBeat d) heartbeats flag))
  = match heartbeats with
    | [] => 0%nat
    | first :: _ =>
        ((if flag && negb (in_mission first) then 1 else 0)
         + mission_exits heartbeats)%nat
    end.
Proof.
  revert flag. induction heartbeats as [|a rest IH]; intros flag Hall.
  - reflexivity.
  - inversion Hall as [|? ? Ha Hrest]; subst.
    rewrite run_snd_cons, _handleHeartBeat_step by reflexivity.
    unfold resyncs in *. rewrite occurrences_app. cbn [fst snd].
    rewrite (IH _ Hrest).
    destruct rest as [|b rest']; cbn [mission_exits];
      destruct flag, (in_mission a); simpl; try destruct (in_mission b); simpl; lia.
Qed.

(** Repeating the non-mission sub-mode while the flag is clear requests
    nothing and leaves the flag clear. *)
Lemma repeated_non_mission_no_resync d (heartbeats : list mavlink_message_t) :
  Forall (fun message => in_mission message = false) heartbeats ->
  run (_handleHeartBeat d) heartbeats false = (false, []).
Proof.
  induction heartbeats as [|a rest IH]; intros Hall; [reflexivity|].
  inversion Hall as [|? ? Ha Hrest]; subst. simpl.
  assert (Hstep : _handleHeartBeat d a false = (false, [])).
  { destruct (Z.eq_dec (compid a) d) as [Hd|Hd].
    - rewrite _handleHeartBeat_step, Ha by exact Hd. reflexivity.
    - apply _handleHeartBeat_other, Hd. }
  rewrite Hstep, (IH Hrest). reflexivity.
Qed.

(** C4: over every heartbeat sequence of the vehicle's default component,
    processed from the constructor's flag, in which the sub-mode goes from
    the mission value to another value exactly once, exactly one full
    parameter resynchronization is requested; heartbeats that repeat the
    non-mission sub-mode afterwards add no further one. *)
Theorem one_mission_exit_one_resync (d : Z)
  (heartbeats repeats : list mavlink_message_t) :
  Forall (fun message => compid message = d) heartbeats ->
  mission_exits heartbeats = 1%nat ->
  Forall (fun message => in_mission message = false) repeats ->
  let '(flag, trace) := run (_handleHeartBeat d) heartbeats false in
  resyncs trace = 1%nat /\
  (flag = false ->
   resyncs (trace ++ snd (run (_handleHeartBeat d) repeats flag)) = 1%nat).
Proof.
  intros Hall Hone Hrep.
  pose proof (resyncs_run d heartbeats false Hall) as Hcount.
  destruct (run (_handleHeartBeat d) heartbeats false) as [flag trace] eqn:Hrun.
  cbn [snd] in Hcount.
  assert (Htrace : resyncs trace = 1%nat).
  { destruct heartbeats as [|a rest]; [discriminate|].
    rewrite Hcount, Hone. reflexivity. }
  split; [exact Htrace|].
  intros ->. rewrite (repeated_non_mission_no_resync d repeats Hrep).
  cbn [snd]. rewrite app_nil_r. exact Htrace.
Qed.

End FlightModeFacts.

Lemma one_mission_exit_one_resync_witness :
  let '(flag, trace) :=
    run (_handleHeartBeat (P := mavlink_px4) 1)
      [heartbeat 3; heartbeat 4; heartbeat 4; heartbeat 3; heartbeat 3] false in
  resyncs trace = 1%nat /\
  (flag = false ->
   resyncs (trace ++ snd (run (_handleHeartBeat (P := mavlink_px4) 1)
                           [heartbeat 5; heartbeat 3] flag)) = 1%nat).
Proof.
  apply (one_mission_exit_one_resync (P := mavlink_px4) 1
           [heartbeat 3; heartbeat 4; heartbeat 4; heartbeat 3; heartbeat 3]
           [heartbeat 5; heartbeat 3]).
  - repeat constructor.
  - reflexivity.
  - repeat constructor.
Defined.

(** ** Capability tracker *)

Section CapabilityFacts.

Context {P : Protocol}.

(** C7 (amended): the capability tracker emits the gimbal-version change
    notification for every capability response of the gimbal component,
    the first one and each later one alike, and for no message of another
    component. *)
Theorem version_notified_per_response (messages : list mavlink_message_t)
  (_gimbalVersion : string) :
  occurrences (Emit gimbalVersionChanged)
    (snd (run _handleHardwareVersion messages _gimbalVersion))
  = length (List.filter from_gimbal messages).
Proof.
  revert _gimbalVersion. induction messages as [|m rest IH]; intros v; [reflexivity|].
  rewrite run_snd_cons, occurrences_app, IH. cbn [List.filter].
  unfold _handleHardwareVersion, from_gimbal.
  destruct (compid m =? MAV_COMP_ID_GIMBAL); reflexivity.
Qed.

End CapabilityFacts.

(** C7 as stated fails: a second, identical capability response of the
    gimbal emits the notification a second time. *)
Lemma version_notified_again :
  run (_handleHardwareVersion (P := mavlink_px4)) [gimbal_version_response] ""%string
  = ("1.2.3"%string, [Emit gimbalVersionChanged]) /\
  run (_handleHardwareVersion (P := mavlink_px4)) [gimbal_version_response] "1.2.3"%string
  = ("1.2.3"%string, [Emit gimbalVersionChanged]) /\
  occurrences (Emit gimbalVersionChanged)
    (snd (run (_handleHardwareVersion (P := mavlink_px4))
            [gimbal_version_response; gimbal_version_response] ""%string)) = 2%nat.
Proof. vm_compute. repeat split; reflexivity. Qed.

(** ** Capture state tracker *)

Lemma to_int32_uint32 z : - 2 ^ 31 <= z < 2 ^ 31 -> to_int32 (to_uint32 z) = z.
Proof.
  intros H. unfold to_int32, to_uint32.
  rewrite Zplus_mod_idemp_l. rewrite Z.mod_small; lia.
Qed.

Lemma QTime_addMSecs_mod t ms : QTime_addMSecs t ms = (t + ms) mod MSECS_PER_DAY.
Proof.
  unfold QTime_addMSecs. destruct (ms <? 0); [|reflexivity].
  apply Z_mod_plus_full.
Qed.

Lemma QTime_elapsed_mod now t :
  0 <= now < MSECS_PER_DAY -> 0 <= t < MSECS_PER_DAY ->
  QTime_elapsed now t = (now - t) mod MSECS_PER_DAY.
Proof.
  unfold QTime_elapsed, MSECS_PER_DAY. intros Hn Ht.
  destruct (Z.ltb_spec (now - t) 0).
  - apply (Z.mod_unique _ _ (-1)); lia.
  - symmetry. apply Z.mod_small. lia.
Qed.

(** Moving the start of the clock by [elapsed - r] makes it read [r] now
    and [r + d] after [d] more milliseconds. *)
Lemma QTime_resync now t r d :
  0 <= now < MSECS_PER_DAY -> 0 <= t < MSECS_PER_DAY ->
  0 <= d -> 0 <= r -> r + d < MSECS_PER_DAY ->
  QTime_elapsed ((now + d) mod MSECS_PER_DAY)
    (QTime_addMSecs t (QTime_elapsed now t - r)) = r + d.
Proof.
  intros Hn Ht Hd Hr Hrd.
  rewrite QTime_addMSecs_mod, (QTime_elapsed_mod now t) by assumption.
  rewrite QTime_elapsed_mod by (apply Z.mod_pos_bound; reflexivity).
  unfold MSECS_PER_DAY in *.
  rewrite <- Zminus_mod.
  set (e := (now - t) mod 86400000).
  assert (He : exists k, e = now - t + 86400000 * k).
  { exists (- ((now - t) / 86400000)). unfold e. rewrite Z.mod_eq by lia. lia. }
  destruct He as [k ->].
  replace (now + d - (t + (now - t + 86400000 * k - r)))
    with (r + d + (- k) * 86400000) by lia.
  rewrite Z_mod_plus_full. apply Z.mod_small. lia.
Qed.

(** C5: while the video session is Running, a capture-status message that
    reports Running with a recording time r (900 ms in the claim) sets the
    displayed recording time to r and offsets the local clock so that it
    reads r at that moment; the periodic tick is neither stopped nor
    restarted, and a tick d milliseconds later displays r + d. *)
Theorem capture_status_resyncs_clock (now d : Z)
  (cap : mavlink_camera_capture_status_t) (cfg : CaptureConfig) (c : Capture) :
  _video_status c = VIDEO_CAPTURE_STATUS_RUNNING ->
  video_status cap = VIDEO_CAPTURE_STATUS_RUNNING ->
  0 <= now < MSECS_PER_DAY ->
  0 <= _recTime c < MSECS_PER_DAY ->
  0 <= recording_time_ms cap ->
  0 <= d ->
  recording_time_ms cap + d < MSECS_PER_DAY ->
  let c' := fst (handleCaptureStatus now cap cfg c) in
  _recordTime c' = recording_time_ms cap /\
  QTime_elapsed now (_recTime c') = recording_time_ms cap /\
  _video_status c' = VIDEO_CAPTURE_STATUS_RUNNING /\
  _recTimer c' = _recTimer c /\
  _recordTime (fst (_recTimerHandler ((now + d) mod MSECS_PER_DAY) c'))
  = recording_time_ms cap + d.
Proof.
  intros Hrun Hcap Hnow Ht Hr Hd Hrd. cbv zeta.
  unfold handleCaptureStatus, QGCCameraControl_handleCaptureStatus, _setVideoStatus.
  rewrite Hcap, Hrun. cbn [bool_decide decide_rel fst snd].
  rewrite bool_decide_eq_true_2 by reflexivity.
  cbn [fst _recordTime _recTime _video_status _recTimer _recTimerHandler].
  rewrite Hrun. rewrite bool_decide_eq_true_2 by reflexivity.
  cbn [fst _recordTime _recTime _video_status _recTimer _recTimerHandler].
  assert (He : 0 <= QTime_elapsed now (_recTime c) < MSECS_PER_DAY).
  { rewrite QTime_elapsed_mod by assumption. apply Z.mod_pos_bound. reflexivity. }
  rewrite to_int32_uint32 by (unfold MSECS_PER_DAY in *; lia).
  repeat split.
  - pose proof (QTime_resync now (_recTime c) (recording_time_ms cap) 0
                  Hnow Ht ltac:(lia) Hr ltac:(lia)) as H0.
    rewrite !Z.add_0_r in H0. rewrite Z.mod_small in H0 by assumption. exact H0.
  - apply QTime_resync; assumption.
Qed.

Example recording_since_noon_state :
  recording_since_noon
  = {| _video_status := VIDEO_CAPTURE_STATUS_RUNNING;
       _recordTime := 999;
       _recTime := noon;
       _recTimer := true;
       _activeSettings := [] |}.
Proof. reflexivity. Qed.

Lemma capture_status_resyncs_clock_witness :
  let c' :=
    fst (handleCaptureStatus (noon + 1000) telemetry_900 sample_config
           recording_since_noon) in
  _recordTime c' = 900 /\
  QTime_elapsed (noon + 1000) (_recTime c') = 900 /\
  _video_status c' = VIDEO_CAPTURE_STATUS_RUNNING /\
  _recTimer c' = _recTimer recording_since_noon /\
  _recordTime (fst (_recTimerHandler ((noon + 1000 + 333) mod MSECS_PER_DAY) c'))
  = 900 + 333.
Proof.
  apply (capture_status_resyncs_clock (noon + 1000) 333 telemetry_900 sample_config
           recording_since_noon).
  - reflexivity.
  - reflexivity.
  - vm_compute. split; discriminate || reflexivity.
  - vm_compute. split; discriminate || reflexivity.
  - vm_compute. discriminate.
  - lia.
  - vm_compute. reflexivity.
Defined.

(** ** Control dispatcher *)

(** C8 (amended): on a pressed transition of the shutter button the
    dispatcher only plays the failure sound, and takes no photo, whenever
    the total storage is zero, the free storage is below 250 or the photo
    status is not idle (a capture in progress, an interval capture idle or
    in progress, or the undefined status); when the total storage is not
    zero, at least 250 is free, the photo status is idle and the camera is
    in photo mode, it takes a photo at once; a release does nothing,
    whatever the button. *)
Theorem shutter_button_guard (cam : CameraView) (oldState newState : Z) :
  (newState = 1 ->
   storageTotal cam = 0 \/ storageFree cam < 250
   \/ photoStatus cam <> PHOTO_CAPTURE_IDLE ->
   _switchStateChanged BUTTON_CAMERA_SHUTTER oldState newState cam
   = [Play _errorSound 1]) /\
  (newState = 1 ->
   storageTotal cam <> 0 -> 250 <= storageFree cam ->
   photoStatus cam = PHOTO_CAPTURE_IDLE ->
   cameraMode cam = CAM_MODE_PHOTO ->
   _switchStateChanged BUTTON_CAMERA_SHUTTER oldState newState cam
   = [Invoke takePhoto]) /\
  (forall swId, newState <> 1 ->
   _switchStateChanged swId oldState newState cam = []).
Proof.
  unfold _switchStateChanged. repeat split.
  - intros -> Hguard. cbn [Z.eqb Pos.eqb].
    destruct (Z.eqb_spec (storageTotal cam) 0); [reflexivity|].
    destruct (Z.ltb_spec (storageFree cam) 250); [reflexivity|].
    destruct (photoStatus cam); cbn; try reflexivity.
    destruct Hguard as [?|[?|?]]; lia || congruence.
  - intros -> Htotal Hfree Hidle Hmode. cbn [Z.eqb Pos.eqb].
    destruct (Z.eqb_spec (storageTotal cam) 0); [contradiction|].
    destruct (Z.ltb_spec (storageFree cam) 250); [lia|].
    rewrite Hidle, Hmode. reflexivity.
  - intros swId Hne. destruct (Z.eqb_spec newState 1); [contradiction | reflexivity].
Qed.

Lemma shutter_button_guard_witness :
  let full :=
    {| storageTotal := 32000; storageFree := 100;
       photoStatus := PHOTO_CAPTURE_IDLE; cameraMode := CAM_MODE_PHOTO;
       videoStatus := VIDEO_CAPTURE_STATUS_STOPPED; photosInVideoMode := false |} in
  let ready :=
    {| storageTotal := 32000; storageFree := 16000;
       photoStatus := PHOTO_CAPTURE_IDLE; cameraMode := CAM_MODE_PHOTO;
       videoStatus := VIDEO_CAPTURE_STATUS_STOPPED; photosInVideoMode := false |} in
  _switchStateChanged BUTTON_CAMERA_SHUTTER 0 1 full = [Play _errorSound 1] /\
  _switchStateChanged BUTTON_CAMERA_SHUTTER 0 1 ready = [Invoke takePhoto] /\
  _switchStateChanged BUTTON_CAMERA_SHUTTER 1 0 ready = [].
Proof.
  cbv zeta. split; [|split].
  - apply (shutter_button_guard _ 0 1); [reflexivity | right; left; simpl; lia].
  - apply (shutter_button_guard _ 0 1); simpl; reflexivity || lia.
  - apply (shutter_button_guard _ 1 0). lia.
Defined.

(** C8 as stated fails: with storage present, 16000 free, photo mode and
    no capture in progress, the press is still refused when the photo
    status is undefined, as [factChanged] leaves it after a change of an
    exposure parameter, or when an interval capture is idle. *)
Lemma shutter_refused_without_capture :
  let cam status :=
    {| storageTotal := 32000; storageFree := 16000;
       photoStatus := status; cameraMode := CAM_MODE_PHOTO;
       videoStatus := VIDEO_CAPTURE_STATUS_STOPPED; photosInVideoMode := false |} in
  storageTotal (cam PHOTO_CAPTURE_STATUS_UNDEFINED) <> 0 /\
  250 <= storageFree (cam PHOTO_CAPTURE_STATUS_UNDEFINED) /\
  PHOTO_CAPTURE_STATUS_UNDEFINED <> PHOTO_CAPTURE_IN_PROGRESS /\
  PHOTO_CAPTURE_STATUS_UNDEFINED <> PHOTO_CAPTURE_INTERVAL_IN_PROGRESS /\
  PHOTO_CAPTURE_INTERVAL_IDLE <> PHOTO_CAPTURE_IN_PROGRESS /\
  PHOTO_CAPTURE_INTERVAL_IDLE <> PHOTO_CAPTURE_INTERVAL_IN_PROGRESS /\
  _switchStateChanged BUTTON_CAMERA_SHUTTER 0 1 (cam PHOTO_CAPTURE_STATUS_UNDEFINED)
  = [Play _errorSound 1] /\
  _switchStateChanged BUTTON_CAMERA_SHUTTER 0 1 (cam PHOTO_CAPTURE_INTERVAL_IDLE)
  = [Play _errorSound 1] /\
  _switchStateChanged BUTTON_CAMERA_SHUTTER 0 1 (cam PHOTO_CAPTURE_IDLE)
  = [Invoke takePhoto].
Proof.
  cbv zeta. cbn [storageTotal storageFree].
  split; [lia|]. split; [lia|].
  repeat (split; [discriminate|]).
  split; [reflexivity|]. split; reflexivity.
Qed.

(** ** Thermal palette *)

Lemma palette_at_in_bounds i :
  0 <= i < 11 -> exists barStr, palette_at i = Some barStr /\ In barStr kPaleteBars.
Proof.
  intros Hi. unfold palette_at. destruct (Z.ltb_spec i 0); [lia|].
  assert (Hn : (Z.to_nat i < 11)%nat) by lia.
  destruct (nth_error kPaleteBars (Z.to_nat i)) as [barStr|] eqn:Hnth.
  - exists barStr. split; [reflexivity|]. eapply nth_error_In, Hnth.
  - apply nth_error_None in Hnth. simpl in Hnth. lia.
Qed.

(** C10: whatever the raw palette value, [palettetBar] reads the 11-entry
    table inside its bounds and yields the image of one of its entries;
    when the device is not the thermal variant, or the raw value is 11 or
    more, the entry is the first one, Fusion. *)
Theorem palettetBar_in_bounds (isCGOET : bool) (registry : gmap string Fact) :
  exists barStr,
    palettetBar isCGOET registry = Some (palette_url barStr) /\
    In barStr kPaleteBars /\
    (isCGOET = false \/
     (exists pFact, registry !! kCAM_IRPALETTE = Some pFact /\
                    11 <= toUInt (rawValue pFact)) ->
     barStr = "Fusion"%string).
Proof.
  unfold palettetBar, palette_name.
  assert (Hfusion : exists barStr,
             palette_url <$> palette_at 0 = Some (palette_url barStr) /\
             In barStr kPaleteBars /\ barStr = "Fusion"%string).
  { exists "Fusion"%string. repeat split. left. reflexivity. }
  destruct isCGOET.
  2: { destruct Hfusion as (b & ? & ? & ?). exists b. auto. }
  destruct (registry !! kCAM_IRPALETTE) as [pFact|] eqn:Hfact.
  2: { destruct Hfusion as (b & ? & ? & ?). exists b. auto. }
  destruct (Z.ltb_spec (toUInt (rawValue pFact)) 11) as [Hlt|Hge].
  2: { destruct Hfusion as (b & ? & ? & ?). exists b. auto. }
  assert (Hpos : 0 <= toUInt (rawValue pFact)).
  { unfold toUInt, to_uint32. apply Z.mod_pos_bound. reflexivity. }
  destruct (palette_at_in_bounds (toUInt (rawValue pFact)) ltac:(lia))
    as (barStr & Hat & Hin).
  exists barStr. rewrite Hat. repeat split; [assumption|].
  intros [Hno | (pFact' & [= <-] & Hbig)]; [discriminate | lia].
Qed.

(** The eleven palettes, and the fallback beyond them. *)
Example palettetBar_samples :
  let thermal v := palettetBar true {[ kCAM_IRPALETTE := {| rawValue := v; enumValues := [] |} ]} in
  thermal 0 = Some "qrc:/typhoonh/img/flir-Fusion.png"%string /\
  thermal 10 = Some "qrc:/typhoonh/img/flir-GrayFusion.png"%string /\
  thermal 11 = Some "qrc:/typhoonh/img/flir-Fusion.png"%string /\
  thermal (-1) = Some "qrc:/typhoonh/img/flir-Fusion.png"%string /\
  palettetBar false {[ kCAM_IRPALETTE := {| rawValue := 3; enumValues := [] |} ]}
  = Some "qrc:/typhoonh/img/flir-Fusion.png"%string.
Proof. vm_compute. repeat split; reflexivity. Qed.


(** ** Spot-area codec *)

Section SpotAreaFacts.

Import IEEE.

Lemma flt_unit_eq : flt_unit = 2 ^ 16 * (2 ^ 23 * 2 ^ 110).
Proof. reflexivity. Qed.

Lemma flt_unit_pos : 0 < flt_unit.
Proof. rewrite flt_unit_eq. lia. Qed.

Lemma flt_finite_small z :
  0 <= z < 2 ^ 128 * flt_unit -> flt_finite z = Some z.
Proof.
  intros Hz. unfold flt_finite.
  assert (Hinf : flt_inf = 2 ^ 128 * flt_unit).
  { unfold flt_inf, flt_unit. rewrite Z.pow_add_r by lia. reflexivity. }
  destruct (Z.ltb_spec (Z.abs z) flt_inf); [reflexivity | lia].
Qed.

Lemma flt_of_int_small n :
  0 <= n < 2 ^ 24 -> flt_of_int n = Some (n * flt_unit).
Proof.
  intros Hn. unfold flt_of_int.
  pose proof flt_unit_pos.
  rewrite IEEEFacts.rnd_nonneg by nia.
  unfold flt_unit at 1. rewrite IEEEFacts.rnd_pos_exact by lia.
  fold flt_unit. apply flt_finite_small. nia.
Qed.

(** The encoder's arithmetic, with the two rounding errors bounded.
    [R] is the rounded quotient x / W and [R2] the rounded product with
    100, both in units of [S]; [k] and [f] are quotient and remainder of
    100 x by W. *)
Lemma percent_bounds (S W x R R2 : Z) :
  0 < S -> 0 < W < 2 ^ 16 -> 1 <= x < W ->
  2 ^ 24 * Z.abs (W * R - x * S) <= x * S ->
  2 ^ 24 * Z.abs (R2 - 100 * R) <= 100 * R ->
  let k := 100 * x / W in
  let f := (100 * x) mod W in
  R2 < (k + 1) * S /\
  (1 <= f -> k * S <= R2) /\
  (f = 0 -> (k - 1) * S < R2).
Proof.
  intros HS HW Hx H1 H2 k f.
  pose proof (Z.div_mod (100 * x) W ltac:(lia)) as Hdm.
  pose proof (Z.mod_pos_bound (100 * x) W ltac:(lia)) as Hf.
  fold k f in Hdm, Hf.
  set (A := W * R) in *. set (B := x * S) in *.
  assert (H2W : 2 ^ 24 * Z.abs (W * R2 - 100 * A) <= 100 * A).
  { unfold A. replace (W * R2 - 100 * (W * R)) with (W * (R2 - 100 * R)) by lia.
    rewrite Z.abs_mul, (Z.abs_eq W) by lia. nia. }
  set (C := W * R2) in *.
  assert (HB : S <= B <= 65535 * S) by (unfold B; nia).
  assert (HG : B + S <= W * S) by (unfold B; nia).
  assert (HkW : k * W * S = 100 * B - f * S) by (unfold B; nia).
  assert (HfS : 0 <= f * S <= W * S - S) by nia.
  set (F := f * S) in *. set (G := W * S) in *.
  assert (Hup : C < (k + 1) * S * W).
  { replace ((k + 1) * S * W) with (k * W * S + G) by (unfold G; lia). lia. }
  assert (Hlo : 1 <= f -> k * S * W <= C).
  { intros Hf1. assert (1 * S <= F) by (apply Z.mul_le_mono_nonneg_r; lia).
    replace (k * S * W) with (k * W * S) by lia. lia. }
  assert (Hlo0 : f = 0 -> (k - 1) * S * W < C).
  { intros Hf0. assert (F = 0) by (unfold F; rewrite Hf0; reflexivity).
    replace ((k - 1) * S * W) with (k * W * S - G) by (unfold G; lia). lia. }
  unfold C in *. clear - HW Hup Hlo Hlo0. repeat split.
  - apply (Z.mul_lt_mono_pos_r W); lia.
  - intros Hf1. specialize (Hlo Hf1). apply (Z.mul_le_mono_pos_r _ _ W); lia.
  - intros Hf0. specialize (Hlo0 Hf0). apply (Z.mul_lt_mono_pos_r W); lia.
Qed.

(** Division and multiplication of non-negative floats, reduced to one
    rounding of a ratio of integers. *)
Lemma flt_div_pos a b :
  0 <= a -> 0 < b ->
  flt_div (a * flt_unit) (b * flt_unit) = flt_finite (rnd_pos 24 (a * flt_unit) b).
Proof.
  intros Ha Hb. pose proof flt_unit_pos as HS. unfold flt_div.
  destruct (Z.eqb_spec (b * flt_unit) 0) as [H0|_]; [nia|].
  rewrite Z.sgn_pos, Z.abs_eq, Z.mul_1_l by nia.
  rewrite IEEEFacts.rnd_nonneg by nia.
  rewrite IEEEFacts.rnd_pos_scale by lia. reflexivity.
Qed.

Lemma flt_mul_pos a b :
  0 <= a -> 0 <= b ->
  flt_mul a (b * flt_unit) = flt_finite (rnd_pos 24 (a * b) 1).
Proof.
  intros Ha Hb. pose proof flt_unit_pos as HS. unfold flt_mul.
  rewrite IEEEFacts.rnd_nonneg by nia.
  replace (a * (b * flt_unit)) with (a * b * flt_unit) by lia.
  rewrite <- (Z.mul_1_l flt_unit) at 2.
  rewrite IEEEFacts.rnd_pos_scale by lia. reflexivity.
Qed.

Lemma flt_trunc_nonneg a : 0 <= a -> flt_trunc a = a / flt_unit.
Proof.
  intros Ha. unfold flt_trunc. apply Z.quot_div_nonneg; [assumption|].
  apply flt_unit_pos.
Qed.

Lemma flt_unit_big : 2 ^ 100 <= flt_unit.
Proof. unfold flt_unit. apply Z.pow_le_mono_r; lia. Qed.

(** The encoder: the byte is the exact percentage [100 x / W], or one less
    when the percentage is a whole number that the two roundings miss from
    below. *)
Lemma spot_percent_spec x W :
  0 < W < 2 ^ 16 -> 0 <= x < W ->
  exists b,
    spot_percent (x * flt_unit) (W * flt_unit) = Some b /\
    0 <= b <= 99 /\
    (b = 100 * x / W \/ (b = 100 * x / W - 1 /\ (100 * x) mod W = 0)).
Proof.
  intros HW Hx. pose proof flt_unit_pos as HS. pose proof flt_unit_big as HSbig.
  unfold spot_percent. rewrite flt_div_pos by lia.
  destruct (Z.eq_dec x 0) as [->|Hx0].
  { rewrite Z.mul_0_l, IEEEFacts.rnd_pos_zero by lia.
    rewrite flt_finite_small by lia. cbn [mbind option_bind].
    unfold flt_100. rewrite flt_mul_pos by lia.
    rewrite Z.mul_0_l, IEEEFacts.rnd_pos_zero by lia.
    rewrite flt_finite_small by lia. cbn [mbind option_bind].
    unfold flt_to_uint8. rewrite flt_trunc_nonneg by lia.
    rewrite Z.div_0_l by lia. cbn.
    exists 0. repeat split; try lia. left. reflexivity. }
  set (R := rnd_pos 24 (x * flt_unit) W).
  assert (HxS : 1 * flt_unit <= x * flt_unit)
    by (apply Z.mul_le_mono_nonneg_r; lia).
  assert (HxS' : x * flt_unit <= 2 ^ 16 * flt_unit)
    by (apply Z.mul_le_mono_nonneg_r; lia).
  assert (H1 : 2 ^ 24 * Z.abs (W * R - x * flt_unit) <= x * flt_unit).
  { apply IEEEFacts.rnd_pos_rel; [lia | lia |].
    apply Z.div_le_lower_bound; lia. }
  assert (HR0 : 0 <= R) by (apply IEEEFacts.rnd_pos_nonneg; lia).
  assert (HRW : R <= W * R <= 2 ^ 16 * R) by nia.
  rewrite flt_finite_small by lia. cbn [mbind option_bind].
  unfold flt_100. rewrite flt_mul_pos by lia.
  set (R2 := rnd_pos 24 (R * 100) 1).
  assert (H2 : 2 ^ 24 * Z.abs (R2 - 100 * R) <= 100 * R).
  { pose proof (IEEEFacts.rnd_pos_rel 24 (R * 100) 1 ltac:(lia) ltac:(lia)) as H.
    rewrite Z.div_1_r in H. fold R2 in H.
    replace (1 * R2 - R * 100) with (R2 - 100 * R) in H by lia.
    replace (R * 100) with (100 * R) in H by lia. apply H. lia. }
  assert (HR20 : 0 <= R2) by (apply IEEEFacts.rnd_pos_nonneg; lia).
  destruct (percent_bounds flt_unit W x R R2 HS HW ltac:(lia) H1 H2)
    as (Hup & Hlo & Hlo0).
  set (k := 100 * x / W) in *. set (f := (100 * x) mod W) in *.
  assert (Hk : 0 <= k <= 99).
  { split; [apply Z.div_pos; lia|].
    assert (k < 100); [|lia]. apply Z.div_lt_upper_bound; lia. }
  assert (HkS : (k + 1) * flt_unit <= 100 * flt_unit)
    by (apply Z.mul_le_mono_nonneg_r; lia).
  rewrite flt_finite_small by lia. cbn [mbind option_bind].
  unfold flt_to_uint8. rewrite flt_trunc_nonneg by lia.
  assert (Hb0 : 0 <= R2 / flt_unit) by (apply Z.div_pos; lia).
  assert (Hbk : R2 / flt_unit < k + 1) by (apply Z.div_lt_upper_bound; lia).
  destruct (Z.leb_spec 0 (R2 / flt_unit)); [|lia].
  destruct (Z.ltb_spec (R2 / flt_unit) (2 ^ 8)); [|lia].
  cbn [andb mbind option_bind].
  destruct (Z.ltb_spec 100 (R2 / flt_unit)); [lia|].
  exists (R2 / flt_unit). split; [reflexivity|]. split; [lia|].
  assert (Hf : 0 <= f < W) by (apply Z.mod_pos_bound; lia).
  destruct (Z.eq_dec f 0) as [Hf0|Hf0].
  - specialize (Hlo0 Hf0).
    assert (k - 1 <= R2 / flt_unit) by (apply Z.div_le_lower_bound; lia).
    destruct (Z.eq_dec (R2 / flt_unit) k); [left; assumption | right; lia].
  - specialize (Hlo ltac:(lia)).
    assert (k <= R2 / flt_unit) by (apply Z.div_le_lower_bound; lia).
    left. lia.
Qed.

(** The decoder computes [byte * W / 100] exactly: the product is a
    24-bit integer, and the rounded quotient by 100 stays on the right
    side of every whole number. *)
Lemma spot_pixel_spec b W :
  0 <= b <= 100 -> 0 < W < 2 ^ 16 ->
  spot_pixel b (W * flt_unit) = Some (b * W / 100).
Proof.
  intros Hb HW. pose proof flt_unit_pos as HS. pose proof flt_unit_big as HSbig.
  unfold spot_pixel. rewrite flt_of_int_small by lia. cbn [mbind option_bind].
  rewrite flt_mul_pos by lia.
  set (n := b * W).
  assert (Hn : 0 <= n < 2 ^ 24) by (unfold n; nia).
  replace (b * flt_unit * W) with (n * 2 ^ 149) by (unfold n, flt_unit; lia).
  rewrite IEEEFacts.rnd_pos_exact by lia. fold flt_unit.
  assert (HnS : n * flt_unit <= (2 ^ 24 - 1) * flt_unit)
    by (apply Z.mul_le_mono_nonneg_r; lia).
  rewrite flt_finite_small by lia. cbn [mbind option_bind].
  unfold flt_100. rewrite flt_div_pos by lia.
  set (R3 := rnd_pos 24 (n * flt_unit) 100).
  pose proof (Z.div_mod n 100 ltac:(lia)) as Hdm.
  pose proof (Z.mod_pos_bound n 100 ltac:(lia)) as Hg.
  set (j := n / 100) in *. set (g := n mod 100) in *.
  assert (Hj : 0 <= j < 2 ^ 24).
  { split; [apply Z.div_pos; lia|]. apply Z.div_lt_upper_bound; lia. }
  assert (HjS : (j + 1) * flt_unit <= 2 ^ 24 * flt_unit)
    by (apply Z.mul_le_mono_nonneg_r; lia).
  assert (HjS0 : 0 <= j * flt_unit) by (apply Z.mul_nonneg_nonneg; lia).
  assert (HR3 : j * flt_unit <= R3 < (j + 1) * flt_unit).
  { destruct (Z.eq_dec g 0) as [Hg0|Hg0].
    - assert (HR3eq : R3 = j * flt_unit).
      { unfold R3. replace (n * flt_unit) with (j * flt_unit * 100) by lia.
        rewrite <- (Z.mul_1_l 100) at 2.
        rewrite IEEEFacts.rnd_pos_scale by lia.
        unfold flt_unit. apply IEEEFacts.rnd_pos_exact; lia. }
      lia.
    - assert (Hrel : 2 ^ 24 * Z.abs (100 * R3 - n * flt_unit) <= n * flt_unit).
      { apply IEEEFacts.rnd_pos_rel; [lia | lia |].
        assert (1 * flt_unit <= n * flt_unit)
          by (apply Z.mul_le_mono_nonneg_r; lia).
        apply Z.div_le_lower_bound; lia. }
      assert (HgS : 1 * flt_unit <= g * flt_unit <= 99 * flt_unit)
        by (split; apply Z.mul_le_mono_nonneg_r; lia).
      assert (HN : n * flt_unit = 100 * (j * flt_unit) + g * flt_unit) by lia.
      lia. }
  rewrite flt_finite_small by lia. cbn [mbind option_bind].
  unfold flt_to_int. rewrite flt_trunc_nonneg by lia.
  assert (Hq : R3 / flt_unit = j).
  { symmetry. apply (Z.div_unique_pos R3 flt_unit j (R3 - j * flt_unit)); lia. }
  rewrite Hq.
  destruct (Z.leb_spec (- 2 ^ 31) j); [|lia].
  destruct (Z.ltb_spec j (2 ^ 31)); [|lia].
  reflexivity.
Qed.

(** Packing two bytes into the 16-bit parameter and reading them back. *)
Lemma spot_unpack x y :
  0 <= x < 2 ^ 8 -> 0 <= y < 2 ^ 8 ->
  let coords := to_uint16 (Z.lor (Z.shiftl x 8) y) in
  Z.land (Z.shiftr (toUInt coords) 8) 255 = x /\
  Z.land (toUInt coords) 255 = y.
Proof.
  intros Hx Hy. cbv zeta.
  assert (Hlor : Z.lor (Z.shiftl x 8) y = x * 2 ^ 8 + y).
  { rewrite Z.shiftl_mul_pow2 by lia.
    rewrite <- Z.lxor_lor, <- Z.add_nocarry_lxor; try reflexivity.
    - apply Z.bits_inj'. intros i Hi. rewrite Z.land_spec, Z.bits_0.
      destruct (Z.ltb_spec i 8).
      + rewrite Z.mul_pow2_bits_low by lia. reflexivity.
      + rewrite (Z.bits_above_log2 y i), andb_false_r; [reflexivity | lia |].
        destruct (Z.eq_dec y 0) as [->|]; [simpl; lia|].
        assert (Z.log2 y < 8) by (apply Z.log2_lt_pow2; lia). lia.
    - apply Z.bits_inj'. intros i Hi. rewrite Z.land_spec, Z.bits_0.
      destruct (Z.ltb_spec i 8).
      + rewrite Z.mul_pow2_bits_low by lia. reflexivity.
      + rewrite (Z.bits_above_log2 y i), andb_false_r; [reflexivity | lia |].
        destruct (Z.eq_dec y 0) as [->|]; [simpl; lia|].
        assert (Z.log2 y < 8) by (apply Z.log2_lt_pow2; lia). lia. }
  rewrite Hlor. unfold to_uint16, toUInt, to_uint32.
  rewrite (Z.mod_small (x * 2 ^ 8 + y) (2 ^ 16)) by lia.
  rewrite (Z.mod_small (x * 2 ^ 8 + y) (2 ^ 32)) by lia.
  change 255 with (Z.ones 8). rewrite !Z.land_ones, Z.shiftr_div_pow2 by lia.
  split.
  - rewrite Z.div_add_l, (Z.div_small y) by lia. rewrite Z.mod_small; lia.
  - rewrite Z.add_comm, Z.mod_add by lia. apply Z.mod_small. lia.
Qed.

(** Decoding a byte that is the percentage of [x], or one less when that
    percentage is whole, lands at most [W / 100 + 1] below [x]. *)
Lemma round_trip_bound x W b :
  0 < W -> 0 <= x < W ->
  b = 100 * x / W \/ (b = 100 * x / W - 1 /\ (100 * x) mod W = 0) ->
  b * W / 100 <= x /\ 100 * (x - b * W / 100) < W + 100.
Proof.
  intros HW Hx Hb.
  pose proof (Z.div_mod (100 * x) W ltac:(lia)) as Hk.
  pose proof (Z.mod_pos_bound (100 * x) W ltac:(lia)) as Hf.
  pose proof (Z.div_mod (b * W) 100 ltac:(lia)) as Hq.
  pose proof (Z.mod_pos_bound (b * W) 100 ltac:(lia)) as Hg.
  set (k := 100 * x / W) in *. set (f := (100 * x) mod W) in *.
  set (q := b * W / 100) in *. set (g := (b * W) mod 100) in *.
  destruct Hb as [-> | [-> Hf0]]; nia.
Qed.

(** C6 (amended): for a frame W x H with 0 < W, H < 65536, a device with
    spot metering whose parameters are loaded, and a point (x, y) inside
    the frame, encoding the point and decoding the packed parameter yields
    a point (x', y') at or below the original in each coordinate and less
    than W/100 + 1, respectively H/100 + 1, away from it. *)
Theorem spot_area_round_trip (s : SpotContext) (pFact : Fact) (W H x y : Z) :
  _isCGOET s = false -> _paramComplete s = true ->
  facts s !! kCAM_SPOTAREA = Some pFact ->
  _videoSize s = (W, H) ->
  0 < W < 2 ^ 16 -> 0 < H < 2 ^ 16 ->
  0 <= x < W -> 0 <= y < H ->
  exists x' y',
    spot_round_trip (x, y) s = Some (x', y') /\
    x' <= x /\ 100 * (x - x') < W + 100 /\
    y' <= y /\ 100 * (y - y') < H + 100.
Proof.
  intros Hcgo Hpar Hfact Hsize HW HH Hx Hy.
  destruct (spot_percent_spec x W HW Hx) as (xb & Hxb & Hxb99 & Hxk).
  destruct (spot_percent_spec y H HH Hy) as (yb & Hyb & Hyb99 & Hyk).
  destruct (spot_unpack xb yb ltac:(lia) ltac:(lia)) as [Hux Huy].
  exists (xb * W / 100), (yb * H / 100). split.
  - unfold spot_round_trip, setSpotArea.
    rewrite Hcgo, Hpar, Hfact, Hsize. cbn [negb andb fst snd].
    rewrite !flt_of_int_small by lia. cbn [mbind option_bind].
    destruct (Z.ltb_spec x 0); [lia|]. destruct (Z.ltb_spec y 0); [lia|].
    cbn [mbind option_bind].
    rewrite Hxb. cbn [mbind option_bind]. rewrite Hyb. cbn [mbind option_bind].
    unfold spotArea, with_facts. cbn [_isCGOET _paramComplete _videoSize facts].
    rewrite Hcgo, Hpar, Hsize. cbn [negb andb fst snd].
    rewrite lookup_insert_eq. cbn [rawValue setRawValue].
    rewrite !flt_of_int_small by lia. cbn [mbind option_bind].
    rewrite Hux, Huy.
    rewrite (spot_pixel_spec xb W) by lia. cbn [mbind option_bind].
    rewrite (spot_pixel_spec yb H) by lia. reflexivity.
  - pose proof (round_trip_bound x W xb ltac:(lia) Hx Hxk).
    pose proof (round_trip_bound y H yb ltac:(lia) Hy Hyk).
    lia.
Qed.

End SpotAreaFacts.

Lemma spot_area_round_trip_witness :
  exists x' y',
    spot_round_trip (640, 360) (spot_context 1280 720) = Some (x', y') /\
    x' <= 640 /\ 100 * (640 - x') < 1280 + 100 /\
    y' <= 360 /\ 100 * (360 - y') < 720 + 100.
Proof.
  apply (spot_area_round_trip (spot_context 1280 720)
           {| rawValue := 0; enumValues := [] |} 1280 720 640 360);
    reflexivity || lia.
Defined.

(** C6 as stated fails: in a 1280 x 720 frame the point (25, 0) is encoded
    as 1 percent of the width, which decodes to x = 12; the distance 13
    exceeds 1280 / 100, both as the fraction 12.8 and as the integer
    quotient 12.  In a frame 100 wide the point x = 53 is encoded as 52
    percent ([0.53f * 100.0f] lies below 53) and decodes to 52. *)
Lemma spot_area_round_trip_off :
  spot_round_trip (25, 0) (spot_context 1280 720) = Some (12, 0) /\
  ~ 100 * Z.abs (12 - 25) <= 1280 /\
  ~ Z.abs (12 - 25) <= 1280 / 100 /\
  spot_round_trip (53, 0) (spot_context 100 100) = Some (52, 0).
Proof.
  split; [vm_compute; reflexivity|].
  split; [lia|].
  split; [vm_compute; intros H; apply H; reflexivity | vm_compute; reflexivity].
Qed.

(* ===================================================================== *)
(** * Part III: further properties of the handlers                        *)
(* ===================================================================== *)

(** ** Reconciler: idempotence, order independence, the pending list *)

(** Snapping is idempotent: a reconciled value is its own nearest match. *)
Theorem reconcile_idempotent (p : ReconciledParam) (V : list Z) (m r : Z) :
  param_value p m -> Forall (param_value p) V ->
  reconcile p V m = Some r ->
  reconcile p V r = Some r.
Proof.
  intros Hm HVs Hrec.
  assert (HV : V <> []) by (intros ->; destruct p; discriminate).
  destruct (reconcile_spec p V m HV Hm HVs) as (pre & r0 & post & HVeq & Hrec0 & _ & _).
  rewrite Hrec in Hrec0. injection Hrec0 as <-.
  assert (Hin : In r V) by (rewrite HVeq; apply in_elt).
  assert (Hr : param_value p r).
  { rewrite List.Forall_forall in HVs. apply HVs, Hin. }
  destruct (reconcile_spec p V r HV Hr HVs) as (pre' & r' & post' & _ & Hrec' & Hmin' & _).
  rewrite Hrec'. f_equal. apply (nearest_is_member p V r r' Hmin' Hin).
Qed.

Lemma reconcile_idempotent_witness :
  reconcile CAM_ISO [100; 200; 400] 100 = Some 100.
Proof.
  apply (reconcile_idempotent CAM_ISO [100; 200; 400] 137 100).
  - simpl. lia.
  - repeat constructor; simpl; lia.
  - vm_compute. reflexivity.
Defined.

Lemma first_nearest_spec (diff : Z -> Z) (V : list Z) :
  V <> [] ->
  exists r, first_nearest diff V = Some r /\ In r V /\
            forall v, In v V -> diff r <= diff v.
Proof.
  induction V as [|v V IH]; intros HV; [contradiction|]. simpl.
  destruct V as [|w V'].
  - exists v. simpl. repeat split; [left; reflexivity|].
    intros x [<- | []]. lia.
  - destruct (IH ltac:(discriminate)) as (r & -> & Hin & Hmin).
    destruct (Z.leb_spec (diff v) (diff r)).
    + exists v. repeat split; [left; reflexivity|].
      intros x [<- | Hx]; [lia|]. specialize (Hmin x Hx). lia.
    + exists r. repeat split; [right; exact Hin|].
      intros x [<- | Hx]; [lia | apply Hmin, Hx].
Qed.

(** Without ties the enumeration order does not matter: when no two
    allowed values are at the same distance from the measured value (and,
    for shutter speeds, the differences to it are doubles, so that no
    subtraction rounds), the reconciler returns what the first-nearest
    rule returns. *)
Theorem reconcile_agrees_without_ties (p : ReconciledParam) (V : list Z) (m : Z) :
  param_value p m -> Forall (param_value p) V -> exact_diffs p m V ->
  (forall v w, In v V -> In w V -> abs_diff m v = abs_diff m w -> v = w) ->
  reconcile p V m = first_nearest (abs_diff m) V.
Proof.
  intros Hm HVs Hex Hinj.
  destruct V as [|v0 V']; [destruct p; reflexivity|].
  set (V := v0 :: V') in *.
  assert (HV : V <> []) by discriminate.
  destruct (reconcile_spec p V m HV Hm HVs) as (pre & r & post & HVeq & -> & Hmin & _).
  destruct (first_nearest_spec (abs_diff m) V HV) as (r' & -> & Hin' & Hmin').
  assert (Hin : In r V) by (rewrite HVeq; apply in_elt).
  f_equal. apply Hinj; try assumption.
  specialize (Hmin r' Hin'). specialize (Hmin' r Hin).
  rewrite (ordering_key_exact p V m r), (ordering_key_exact p V m r') in Hmin
    by assumption.
  lia.
Qed.

Lemma reconcile_agrees_without_ties_witness :
  reconcile CAM_ISO [400; 100; 200] 137 = first_nearest (abs_diff 137) [400; 100; 200]
  /\
  reconcile CAM_SHUTTERSPD [IEEE.dbl 1 (-1); IEEE.dbl 1 (-3); IEEE.dbl 1 (-2)]
    (IEEE.dbl 5 (-5))
  = first_nearest (abs_diff (IEEE.dbl 5 (-5)))
      [IEEE.dbl 1 (-1); IEEE.dbl 1 (-3); IEEE.dbl 1 (-2)].
Proof.
  split.
  - apply (reconcile_agrees_without_ties CAM_ISO [400; 100; 200] 137).
    + simpl. lia.
    + repeat constructor; simpl; lia.
    + exact I.
    + unfold abs_diff. simpl. intros v w Hv Hw. lia.
  - apply (reconcile_agrees_without_ties CAM_SHUTTERSPD
             [IEEE.dbl 1 (-1); IEEE.dbl 1 (-3); IEEE.dbl 1 (-2)] (IEEE.dbl 5 (-5))).
    + split; vm_compute; reflexivity.
    + repeat constructor; vm_compute; reflexivity.
    + repeat constructor; vm_compute; reflexivity.
    + intros v w Hv Hw.
      destruct Hv as [<-|[<-|[<-|[]]]]; destruct Hw as [<-|[<-|[<-|[]]]];
        vm_compute; intros Heq; first [reflexivity | discriminate Heq].
Defined.

Lemma validateParameter_accepts_witness :
  exists b, validateParameter CAM_ISO [100; 200; 400] 200 = Some b /\
            (In 200 [100; 200; 400] -> b = true) /\
            (b = true -> exists v, In v [100; 200; 400] /\ same_value CAM_ISO 200 v).
Proof.
  apply (validateParameter_accepts CAM_ISO [100; 200; 400] 200).
  - discriminate.
  - simpl. lia.
  - repeat constructor; simpl; lia.
Defined.

(** What [incomingParameter] does with a reported value.  An allowed
    value passes untouched and schedules nothing.  Whenever nothing is
    scheduled, the value and the pending list are unchanged and the value
    is an allowed one or, for a shutter speed, a double that [QVariant]
    comparison cannot tell from one.  Whenever a flush is scheduled, the
    value has been replaced by a different, allowed one, its parameter is
    pending afterwards and every earlier pending name is kept. *)
Theorem incomingParameter_outcome (p : ReconciledParam) (name : string)
  (V : list Z) (m : Z) (pending : list string) :
  V <> [] -> param_value p m -> Forall (param_value p) V ->
  exists v pending' flush,
    incomingParameter p name V m pending = Some (v, pending', flush) /\
    (In m V -> flush = false) /\
    (flush = false ->
     v = m /\ pending' = pending /\ exists a, In a V /\ same_value p m a) /\
    (flush = true ->
     In v V /\ v <> m /\ In name pending' /\
     forall other, In other pending -> In other pending').
Proof.
  intros HV Hm HVs. unfold incomingParameter.
  destruct (reconcile_spec p V m HV Hm HVs) as (pre & r & post & HVeq & -> & Hmin & _).
  assert (Hin : In r V) by (rewrite HVeq; apply in_elt).
  assert (Hr : param_value p r).
  { rewrite List.Forall_forall in HVs. apply HVs, Hin. }
  pose proof (nearest_is_member p V m r Hmin) as Hmem.
  destruct (QVariant_eq p m r) eqn:Heq.
  - exists m, pending, false.
    split; [reflexivity|]. split; [reflexivity|]. split; [|discriminate].
    intros _. split; [reflexivity|]. split; [reflexivity|].
    exists r. split; [exact Hin|]. apply QVariant_eq_same; assumption.
  - assert (Hne : r <> m).
    { intros ->. rewrite QVariant_eq_refl in Heq. discriminate. }
    assert (HnotV : ~ In m V) by (intros HmV; apply Hne, Hmem, HmV).
    destruct (existsb (String.eqb name) pending) eqn:Hex.
    + exists r, pending, true.
      split; [reflexivity|]. split; [intros HmV; contradiction|].
      split; [discriminate|]. intros _.
      split; [exact Hin|]. split; [exact Hne|]. split; [|auto].
      apply existsb_exists in Hex as (x & Hx & Hxeq).
      apply String.eqb_eq in Hxeq. subst x. exact Hx.
    + exists r, (pending ++ [name]), true.
      split; [reflexivity|]. split; [intros HmV; contradiction|].
      split; [discriminate|]. intros _.
      split; [exact Hin|]. split; [exact Hne|]. split.
      * apply in_or_app. right. left. reflexivity.
      * intros other Ho. apply in_or_app. left. exact Ho.
Qed.

Lemma incomingParameter_outcome_witness :
  exists v pending' flush,
    incomingParameter CAM_ISO kCAM_ISO [100; 200; 400] 137 [kCAM_SHUTTERSPD]
    = Some (v, pending', flush) /\
    (In 137 [100; 200; 400] -> flush = false) /\
    (flush = false ->
     v = 137 /\ pending' = [kCAM_SHUTTERSPD]
     /\ exists a, In a [100; 200; 400] /\ same_value CAM_ISO 137 a) /\
    (flush = true ->
     In v [100; 200; 400] /\ v <> 137 /\ In kCAM_ISO pending' /\
     forall other, In other [kCAM_SHUTTERSPD] -> In other pending').
Proof.
  apply (incomingParameter_outcome CAM_ISO kCAM_ISO [100; 200; 400] 137 [kCAM_SHUTTERSPD]).
  - discriminate.
  - simpl. lia.
  - repeat constructor; simpl; lia.
Defined.

(** A shutter speed one unit in the last place above the allowed 0.5 is
    kept as it is and nothing is scheduled; 0.75 is replaced. *)
Example incomingParameter_near_miss :
  let m := IEEE.dbl (2 ^ 52 + 1) (-53) in
  incomingParameter CAM_SHUTTERSPD kCAM_SHUTTERSPD [IEEE.dbl 1 (-1)] m []
  = Some (m, [], false) /\
  incomingParameter CAM_SHUTTERSPD kCAM_SHUTTERSPD [IEEE.dbl 1 (-1)] (IEEE.dbl 3 (-2)) []
  = Some (IEEE.dbl 1 (-1), [kCAM_SHUTTERSPD], true).
Proof. vm_compute. split; reflexivity. Qed.

Lemma reconciled_param_names name p :
  reconciled_param name = Some p -> name = kCAM_SHUTTERSPD \/ name = kCAM_ISO.
Proof.
  unfold reconciled_param.
  destruct (String.eqb_spec name kCAM_SHUTTERSPD); [auto|].
  destruct (String.eqb_spec name kCAM_ISO); [auto | discriminate].
Qed.

Lemma incomingParameterOf_pending name (V : list Z) m pending v pending' flush :
  NoDup pending ->
  (forall x, In x pending -> x = kCAM_SHUTTERSPD \/ x = kCAM_ISO) ->
  incomingParameterOf name V m pending = Some (v, pending', flush) ->
  NoDup pending' /\
  (forall x, In x pending' -> x = kCAM_SHUTTERSPD \/ x = kCAM_ISO).
Proof.
  intros Hnd Hnames. unfold incomingParameterOf.
  destruct (reconciled_param name) as [p|] eqn:Hp.
  - intros Hinc. split.
    + eapply incomingParameter_no_duplicates; eassumption.
    + unfold incomingParameter in Hinc.
      destruct (reconcile p V m) as [r|]; [|discriminate].
      destruct (QVariant_eq p m r); [injection Hinc as <- <- <-; exact Hnames|].
      destruct (existsb (String.eqb name) pending);
        injection Hinc as <- <- <-; [exact Hnames|].
      intros x Hx. apply in_app_or in Hx as [Hx | [<- | []]]; [auto|].
      eapply reconciled_param_names, Hp.
  - intros [= <- <- <-]. auto.
Qed.

(** However many values are reported before the flush, the pending list
    holds only the shutter-speed and ISO parameters, each at most once;
    [_sendUpdates] sends exactly that list in manual exposure mode on a
    camera that is not the thermal variant, sends nothing otherwise, and
    leaves the list empty in every case. *)
Theorem flush_sends_each_once (updates : list (string * list Z * Z))
  (pending : list string) (isCGOET : bool) (registry : gmap string Fact) :
  incoming_run updates [] = Some pending ->
  NoDup pending /\
  (forall name, In name pending -> name = kCAM_SHUTTERSPD \/ name = kCAM_ISO) /\
  _sendUpdates isCGOET registry pending
  = (if manual_exposure isCGOET registry then pending else [], []).
Proof.
  intros Hrun.
  assert (Hgen : forall ups q q',
             NoDup q ->
             (forall x, In x q -> x = kCAM_SHUTTERSPD \/ x = kCAM_ISO) ->
             incoming_run ups q = Some q' ->
             NoDup q' /\ (forall x, In x q' -> x = kCAM_SHUTTERSPD \/ x = kCAM_ISO)).
  { induction ups as [|[[name V] m] rest IH]; intros q q' Hnd Hq Hr; simpl in Hr.
    - injection Hr as <-. auto.
    - destruct (incomingParameterOf name V m q) as [[[v q1] f]|] eqn:Hinc; [|discriminate].
      destruct (incomingParameterOf_pending _ _ _ _ _ _ _ Hnd Hq Hinc) as [Hnd1 Hq1].
      eapply IH; eassumption. }
  destruct (Hgen updates [] pending (NoDup_nil_2) ltac:(intros x []) Hrun) as [Hnd Hnames].
  split; [exact Hnd|]. split; [exact Hnames|].
  unfold _sendUpdates, manual_exposure.
  destruct isCGOET; simpl; [reflexivity|].
  destruct (registry !! kCAM_EXPMODE) as [pFact|]; [|reflexivity].
  destruct (rawValue pFact =? 1); reflexivity.
Qed.

Lemma flush_sends_each_once_witness :
  NoDup [kCAM_ISO] /\
  (forall name, In name [kCAM_ISO] -> name = kCAM_SHUTTERSPD \/ name = kCAM_ISO) /\
  _sendUpdates false {[ kCAM_EXPMODE := {| rawValue := 1; enumValues := [] |} ]} [kCAM_ISO]
  = (if manual_exposure false {[ kCAM_EXPMODE := {| rawValue := 1; enumValues := [] |} ]}
     then [kCAM_ISO] else [], []).
Proof.
  apply (flush_sends_each_once
           [(kCAM_ISO, [100; 200; 400], 137); (kCAM_EV, [], 3);
            (kCAM_ISO, [100; 200; 400], 260)] [kCAM_ISO] false).
  vm_compute. reflexivity.
Defined.

(** ** Calibration: invariant and notifications *)

Section CalibrationInvariant.

Context {P : Protocol}.

Ltac inv_goal :=
  split;
  [ lia
  | split;
    [ let H := fresh in
      intros H; first [ discriminate H | left; lia | right; lia | auto ]
    | let H := fresh in
      intros H; first [ reflexivity | exfalso; apply H; reflexivity | auto ] ] ].

Lemma _handleGimbalResult_invariant result p c :
  0 <= p < 256 -> cal_invariant c ->
  cal_invariant (fst (_handleGimbalResult result p c)).
Proof.
  intros Hp (Hrange & Hoff & Htimer). unfold cal_invariant, _handleGimbalResult.
  destruct c as [on prog timer]. simpl in *.
  destruct on; simpl.
  - destruct (Z.eqb_spec p 255) as [->|Hne]; simpl; [inv_goal|].
    destruct (Z.ltb_spec p 255); [|lia]. simpl. inv_goal.
  - assert (timer = None).
    { destruct timer; [|reflexivity]. discriminate Htimer. discriminate. }
    subst timer.
    destruct (Z.eqb_spec p 0) as [->|Hne]; simpl; [inv_goal|].
    destruct (Z.ltb_spec p 255); simpl; inv_goal.
Qed.

Lemma cal_step_invariant ev c :
  cal_invariant c -> cal_invariant (fst (cal_step ev c)).
Proof.
  intros Hinv. destruct ev as [message|ms]; simpl.
  - unfold _handleCommandAck.
    destruct (command message =? MAV_CMD_PREFLIGHT_CALIBRATION); [|exact Hinv].
    destruct (compid message =? MAV_COMP_ID_GIMBAL); [|exact Hinv].
    apply _handleGimbalResult_invariant; [|exact Hinv].
    unfold to_uint8. apply Z.mod_pos_bound. reflexivity.
  - destruct Hinv as (Hrange & Hoff & Htimer). unfold elapse, cal_invariant.
    destruct c as [on prog timer]. simpl in *.
    destruct timer as [r|]; [|simpl; inv_goal].
    specialize (Htimer ltac:(discriminate)). subst on.
    destruct (r <=? ms).
    + unfold _gimbalCalTimeout. simpl.
      destruct (Z.eqb_spec prog 99); simpl; inv_goal.
    + simpl. inv_goal.
Qed.

(** Whatever acknowledgments arrive and however time passes, from the
    constructor's state on: the published progress is below 255; while no
    calibration is active it is 0 or 100; and the stall timer is pending
    only while a calibration is active. *)
Theorem calibration_invariant (events : list CalEvent) :
  cal_invariant (fst (run cal_step events calibration_init)).
Proof.
  assert (Hgen : forall c, cal_invariant c ->
                           cal_invariant (fst (run cal_step events c))).
  { induction events as [|ev rest IH]; intros c Hc; [exact Hc|].
    rewrite run_fst_cons. apply IH, cal_step_invariant, Hc. }
  apply Hgen. unfold cal_invariant, calibration_init. simpl. inv_goal.
Qed.

(** One acknowledgment announces the progress exactly once, and announces
    the calibration flag exactly when the flag changes. *)
Theorem gimbal_result_notifications (result p : Z) (c : Calibration) :
  let '(c', trace) := _handleGimbalResult result p c in
  occurrences (Emit gimbalProgressChanged) trace = 1%nat /\
  occurrences (Emit gimbalCalOnChanged) trace
  = (if Bool.eqb (_gimbalCalOn c) (_gimbalCalOn c') then 0 else 1)%nat.
Proof.
  unfold _handleGimbalResult. destruct c as [on prog timer]. simpl.
  destruct on; simpl.
  - destruct (p =? 255) eqn:H255; simpl.
    + apply Z.eqb_eq in H255. subst p. simpl. split; reflexivity.
    + destruct (p <? 255); simpl; split; reflexivity.
  - destruct (negb (p =? 0) && (p <? 255)) eqn:Hc; simpl.
    + apply andb_prop in Hc as [_ Hlt]. rewrite Hlt. simpl. split; reflexivity.
    + destruct (p <? 255); simpl; split; reflexivity.
Qed.

End CalibrationInvariant.

(** ** Flight-mode monitor and capability tracker over mixed traffic *)

Section TrafficFacts.

Context {P : Protocol}.

Lemma run_heartbeats_filter d (heartbeats : list mavlink_message_t) flag :
  run (_handleHeartBeat d) heartbeats flag
  = run (_handleHeartBeat d) (List.filter (fun m => compid m =? d) heartbeats) flag.
Proof.
  revert flag. induction heartbeats as [|a rest IH]; intros flag; [reflexivity|].
  cbn [List.filter]. destruct (Z.eqb_spec (compid a) d) as [Hd|Hd].
  - cbn [run]. destruct (_handleHeartBeat d a flag) as [f1 e1]. rewrite IH. reflexivity.
  - cbn [run]. rewrite _handleHeartBeat_other by exact Hd. rewrite IH.
    destruct (run _ _ flag). reflexivity.
Qed.

Lemma heartbeat_flag_last d (heartbeats : list mavlink_message_t) flag :
  Forall (fun m => compid m = d) heartbeats ->
  fst (run (_handleHeartBeat d) heartbeats flag)
  = match last heartbeats with Some m => in_mission m | None => flag end.
Proof.
  revert flag. induction heartbeats as [|a rest IH]; intros flag Hall; [reflexivity|].
  inversion Hall as [|? ? Ha Hrest]; subst.
  rewrite run_fst_cons, _handleHeartBeat_step by reflexivity. cbn [fst].
  rewrite (IH _ Hrest), last_cons. destruct (last rest); reflexivity.
Qed.

(** Over any stream of heartbeats, of the default component or not: the
    in-mission flag ends as the mode of the last heartbeat of the default
    component (the constructor's value if there is none), and the number
    of resynchronizations is the number of times the default component's
    heartbeats leave the mission sub-mode. *)
Theorem heartbeat_monitor_summary (d : Z) (heartbeats : list mavlink_message_t) :
  let '(flag, trace) := run (_handleHeartBeat d) heartbeats false in
  flag = match last_default_heartbeat d heartbeats with
         | Some m => in_mission m
         | None => false
         end /\
  resyncs trace
  = mission_exits (List.filter (fun m => compid m =? d) heartbeats).
Proof.
  rewrite run_heartbeats_filter. unfold last_default_heartbeat.
  set (own := List.filter (fun m => compid m =? d) heartbeats).
  assert (Hown : Forall (fun m => compid m = d) own).
  { apply List.Forall_forall. intros m Hm. apply filter_In in Hm as [_ Hm].
    apply Z.eqb_eq, Hm. }
  pose proof (heartbeat_flag_last d own false Hown) as Hflag.
  pose proof (resyncs_run d own false Hown) as Hcount.
  destruct (run (_handleHeartBeat d) own false) as [flag trace].
  cbn [fst snd] in *. split; [exact Hflag|].
  rewrite Hcount. destruct own; reflexivity.
Qed.

(** The three version bytes of a capability response, formatted. *)
Lemma _handleHardwareVersion_gimbal message v :
  from_gimbal message = true ->
  fst (_handleHardwareVersion message v)
  = version_string (Z.land (Z.shiftr (flight_sw_version message) 24) 255)
      (Z.land (Z.shiftr (flight_sw_version message) 16) 255)
      (Z.land (Z.shiftr (flight_sw_version message) 8) 255).
Proof.
  unfold from_gimbal, _handleHardwareVersion. intros ->. reflexivity.
Qed.

(** The stored gimbal version is always that of the most recent
    capability response of the gimbal component; responses of other
    components never change it. *)
Theorem version_follows_last_response (messages : list mavlink_message_t)
  (v0 : string) :
  fst (run _handleHardwareVersion messages v0)
  = match last_gimbal_response messages with
    | Some m =>
        version_string (Z.land (Z.shiftr (flight_sw_version m) 24) 255)
          (Z.land (Z.shiftr (flight_sw_version m) 16) 255)
          (Z.land (Z.shiftr (flight_sw_version m) 8) 255)
    | None => v0
    end.
Proof.
  unfold last_gimbal_response.
  revert v0. induction messages as [|a rest IH]; intros v0; [reflexivity|].
  rewrite run_fst_cons, IH. cbn [List.filter].
  destruct (from_gimbal a) eqn:Ha.
  - rewrite last_cons. destruct (last (List.filter from_gimbal rest)); [reflexivity|].
    apply _handleHardwareVersion_gimbal, Ha.
  - destruct (last (List.filter from_gimbal rest)); [reflexivity|].
    unfold _handleHardwareVersion. unfold from_gimbal in Ha. rewrite Ha. reflexivity.
Qed.

End TrafficFacts.

(** ** Orientation tracker *)




(** The bound is attained: a stored 1.0 is kept against a received
    0.5 - 2^-25, 0.5 + 2^-25 away, since the float subtraction rounds the
    difference to 0.5; against 0.5 - 2^-24 it is replaced. *)
Example orientation_bound_attained :
  let g := {| _gimbalRoll := 2 ^ 149; _gimbalPitch := 0; _gimbalYaw := 0;
              _gimbalData := true |} in
  let near := {| roll := 2 ^ 148 - 2 ^ 124; pitch := 0; yaw := 0 |} in
  let far := {| roll := 2 ^ 148 - 2 ^ 125; pitch := 0; yaw := 0 |} in
  _handleGimbalOrientation near g = (g, []) /\
  Z.abs (_gimbalRoll g - roll near) = 2 ^ 148 + 2 ^ 124 /\
  _gimbalRoll (fst (_handleGimbalOrientation far g)) = roll far.
Proof. vm_compute. repeat split; reflexivity. Qed.

Lemma run_with_fst_cons {S M E : Type} (h : M -> S -> S * list E) m l s :
  fst (run_with h (m :: l) s) = fst (run_with h l (fst (h m s))).
Proof. simpl. destruct (h m s) as [s1 e1]. simpl. destruct (run_with h l s1). reflexivity. Qed.

Lemma run_with_snd_cons {S M E : Type} (h : M -> S -> S * list E) m l s :
  snd (run_with h (m :: l) s) = snd (h m s) ++ snd (run_with h l (fst (h m s))).
Proof. simpl. destruct (h m s) as [s1 e1]. simpl. destruct (run_with h l s1). reflexivity. Qed.

(** Jitter is suppressed: as long as every received angle stays within
    0.5 of the stored one, the stored angles never change and the only
    notification is the one-time announcement that data is available. *)
Theorem orientation_jitter_suppressed (samples : list mavlink_mount_orientation_t)
  (g : Orientation) :
  Forall (fun o => moved (_gimbalRoll g) (roll o) = false /\
                   moved (_gimbalPitch g) (pitch o) = false /\
                   moved (_gimbalYaw g) (yaw o) = false) samples ->
  let '(g', trace) := run_with _handleGimbalOrientation samples g in
  _gimbalRoll g' = _gimbalRoll g /\
  _gimbalPitch g' = _gimbalPitch g /\
  _gimbalYaw g' = _gimbalYaw g /\
  trace = (if _gimbalData g then []
           else match samples with [] => [] | _ => [gimbalDataChanged] end).
Proof.
  revert g. induction samples as [|o rest IH]; intros g Hall.
  - simpl. destruct (_gimbalData g); repeat split; reflexivity.
  - inversion Hall as [|? ? (Hr & Hp & Hy) Hrest]; subst.
    cbn [run_with]. unfold _handleGimbalOrientation at 1. rewrite Hr, Hp, Hy.
    cbn [app].
    set (g1 := {| _gimbalRoll := _gimbalRoll g; _gimbalPitch := _gimbalPitch g;
                  _gimbalYaw := _gimbalYaw g; _gimbalData := true |}).
    specialize (IH g1 Hrest).
    destruct (run_with _handleGimbalOrientation rest g1) as [g' trace].
    cbn [_gimbalData g1] in IH. destruct IH as (-> & -> & -> & ->).
    repeat split. destruct (_gimbalData g); reflexivity.
Qed.

(** ** Message router *)

Section RouterFacts.

Context {P : Protocol} {I : MessageIds}.

Lemma distinct_ids_ne :
  distinct_ids I ->
  MAVLINK_MSG_ID_AUTOPILOT_VERSION <> MAVLINK_MSG_ID_MOUNT_ORIENTATION /\
  MAVLINK_MSG_ID_AUTOPILOT_VERSION <> MAVLINK_MSG_ID_COMMAND_ACK /\
  MAVLINK_MSG_ID_AUTOPILOT_VERSION <> MAVLINK_MSG_ID_HEARTBEAT /\
  MAVLINK_MSG_ID_MOUNT_ORIENTATION <> MAVLINK_MSG_ID_COMMAND_ACK /\
  MAVLINK_MSG_ID_MOUNT_ORIENTATION <> MAVLINK_MSG_ID_HEARTBEAT /\
  MAVLINK_MSG_ID_COMMAND_ACK <> MAVLINK_MSG_ID_HEARTBEAT.
Proof.
  unfold distinct_ids. intros H.
  apply NoDup_cons in H as [H1 H]. apply NoDup_cons in H as [H2 H].
  apply NoDup_cons in H as [H3 _].
  rewrite !list_elem_of_In in H1, H2, H3. simpl in H1, H2, H3.
  repeat split; intros Heq; rewrite Heq in *; tauto.
Qed.

(** One routed message, seen from each of the four handlers. *)
Lemma router_step d message c :
  distinct_ids I ->
  let c1 := fst (_mavlinkMessageReceived d message c) in
  ctl_gimbalVersion c1
  = (if msgid message =? MAVLINK_MSG_ID_AUTOPILOT_VERSION
     then fst (_handleHardwareVersion (body message) (ctl_gimbalVersion c))
     else ctl_gimbalVersion c) /\
  ctl_orientation c1
  = (if msgid message =? MAVLINK_MSG_ID_MOUNT_ORIENTATION
     then fst (_handleGimbalOrientation (mount_orientation message) (ctl_orientation c))
     else ctl_orientation c) /\
  ctl_calibration c1
  = (if msgid message =? MAVLINK_MSG_ID_COMMAND_ACK
     then fst (_handleCommandAck (body message) (ctl_calibration c))
     else ctl_calibration c) /\
  ctl_inMissionMode c1
  = (if msgid message =? MAVLINK_MSG_ID_HEARTBEAT
     then fst (_handleHeartBeat d (body message) (ctl_inMissionMode c))
     else ctl_inMissionMode c).
Proof.
  intros Hd. destruct (distinct_ids_ne Hd) as (H12 & H13 & H14 & H23 & H24 & H34).
  cbv zeta. unfold _mavlinkMessageReceived.
  destruct (Z.eqb_spec (msgid message) MAVLINK_MSG_ID_AUTOPILOT_VERSION) as [E1|N1].
  { destruct (_handleHardwareVersion _ _) as [v e]. cbn.
    destruct (Z.eqb_spec (msgid message) MAVLINK_MSG_ID_MOUNT_ORIENTATION); [congruence|].
    destruct (Z.eqb_spec (msgid message) MAVLINK_MSG_ID_COMMAND_ACK); [congruence|].
    destruct (Z.eqb_spec (msgid message) MAVLINK_MSG_ID_HEARTBEAT); [congruence|].
    repeat split. }
  destruct (Z.eqb_spec (msgid message) MAVLINK_MSG_ID_MOUNT_ORIENTATION) as [E2|N2].
  { destruct (_handleGimbalOrientation _ _) as [g e]. cbn.
    destruct (Z.eqb_spec (msgid message) MAVLINK_MSG_ID_COMMAND_ACK); [congruence|].
    destruct (Z.eqb_spec (msgid message) MAVLINK_MSG_ID_HEARTBEAT); [congruence|].
    repeat split. }
  destruct (Z.eqb_spec (msgid message) MAVLINK_MSG_ID_COMMAND_ACK) as [E3|N3].
  { destruct (_handleCommandAck _ _) as [k e]. cbn.
    destruct (Z.eqb_spec (msgid message) MAVLINK_MSG_ID_HEARTBEAT); [congruence|].
    repeat split. }
  destruct (Z.eqb_spec (msgid message) MAVLINK_MSG_ID_HEARTBEAT) as [E4|N4].
  { destruct (_handleHeartBeat _ _ _) as [f e]. cbn. repeat split. }
  cbn. repeat split.
Qed.

(** The router keeps the four handlers apart: after any stream of
    messages, each part of the state is what its own handler makes of the
    messages carrying its identifier, in order, whatever other messages
    are interleaved. *)
Theorem router_projection (d : Z) (messages : list Message) (c : Controller) :
  distinct_ids I ->
  let c' := fst (run_with (_mavlinkMessageReceived d) messages c) in
  ctl_gimbalVersion c'
  = fst (run _handleHardwareVersion
           (bodies_of MAVLINK_MSG_ID_AUTOPILOT_VERSION messages) (ctl_gimbalVersion c)) /\
  ctl_orientation c'
  = fst (run_with _handleGimbalOrientation (orientations_of messages)
           (ctl_orientation c)) /\
  ctl_calibration c'
  = fst (run _handleCommandAck
           (bodies_of MAVLINK_MSG_ID_COMMAND_ACK messages) (ctl_calibration c)) /\
  ctl_inMissionMode c'
  = fst (run (_handleHeartBeat d)
           (bodies_of MAVLINK_MSG_ID_HEARTBEAT messages) (ctl_inMissionMode c)).
Proof.
  intros Hd. cbv zeta. revert c.
  induction messages as [|a rest IH]; intros c; [repeat split|].
  rewrite run_with_fst_cons.
  destruct (IH (fst (_mavlinkMessageReceived d a c))) as (Hv & Ho & Hk & Hf).
  destruct (router_step d a c Hd) as (Sv & So & Sk & Sf).
  rewrite Hv, Ho, Hk, Hf, Sv, So, Sk, Sf.
  unfold bodies_of, orientations_of. cbn [List.filter].
  repeat split.
  - destruct (msgid a =? MAVLINK_MSG_ID_AUTOPILOT_VERSION); [|reflexivity].
    cbn [map]. rewrite run_fst_cons. reflexivity.
  - destruct (msgid a =? MAVLINK_MSG_ID_MOUNT_ORIENTATION); [|reflexivity].
    cbn [map]. rewrite run_with_fst_cons. reflexivity.
  - destruct (msgid a =? MAVLINK_MSG_ID_COMMAND_ACK); [|reflexivity].
    cbn [map]. rewrite run_fst_cons. reflexivity.
  - destruct (msgid a =? MAVLINK_MSG_ID_HEARTBEAT); [|reflexivity].
    cbn [map]. rewrite run_fst_cons. reflexivity.
Qed.

(** Messages of any other identifier are dropped: they change nothing and
    cause no effect. *)
Theorem router_drops_unknown (d : Z) (messages : list Message) (c : Controller) :
  Forall unknown_id messages ->
  run_with (_mavlinkMessageReceived d) messages c = (c, []).
Proof.
  induction messages as [|a rest IH]; intros Hall; [reflexivity|].
  inversion Hall as [|? ? (N1 & N2 & N3 & N4) Hrest]; subst.
  cbn [run_with]. unfold _mavlinkMessageReceived at 1.
  destruct (Z.eqb_spec (msgid a) MAVLINK_MSG_ID_AUTOPILOT_VERSION); [contradiction|].
  destruct (Z.eqb_spec (msgid a) MAVLINK_MSG_ID_MOUNT_ORIENTATION); [contradiction|].
  destruct (Z.eqb_spec (msgid a) MAVLINK_MSG_ID_COMMAND_ACK); [contradiction|].
  destruct (Z.eqb_spec (msgid a) MAVLINK_MSG_ID_HEARTBEAT); [contradiction|].
  rewrite (IH Hrest). reflexivity.
Qed.

End RouterFacts.

Lemma router_projection_witness :
  let stream :=
    [ {| msgid := 0; body := heartbeat 4;
         mount_orientation := {| roll := 0; pitch := 0; yaw := 0 |} |};
      {| msgid := 77; body := gimbal_ack (P := mavlink_px4) 0 10;
         mount_orientation := {| roll := 0; pitch := 0; yaw := 0 |} |};
      {| msgid := 148; body := gimbal_version_response;
         mount_orientation := {| roll := 0; pitch := 0; yaw := 0 |} |};
      {| msgid := 0; body := heartbeat 3;
         mount_orientation := {| roll := 0; pitch := 0; yaw := 0 |} |} ] in
  let c' :=
    fst (run_with (_mavlinkMessageReceived (P := mavlink_px4) (I := mavlink_ids) 1)
           stream controller_init) in
  ctl_gimbalVersion c'
  = fst (run (_handleHardwareVersion (P := mavlink_px4))
           (bodies_of 148 stream) ""%string) /\
  ctl_orientation c'
  = fst (run_with _handleGimbalOrientation (orientations_of (I := mavlink_ids) stream)
           orientation_init) /\
  ctl_calibration c'
  = fst (run (_handleCommandAck (P := mavlink_px4)) (bodies_of 77 stream)
           calibration_init) /\
  ctl_inMissionMode c'
  = fst (run (_handleHeartBeat (P := mavlink_px4) 1) (bodies_of 0 stream) false).
Proof.
  cbv zeta.
  apply (router_projection (P := mavlink_px4) (I := mavlink_ids) 1 _ controller_init).
  unfold distinct_ids. simpl. repeat constructor; rewrite list_elem_of_In; simpl; lia.
Defined.

Lemma router_drops_unknown_witness :
  run_with (_mavlinkMessageReceived (P := mavlink_px4) (I := mavlink_ids) 1)
    [ {| msgid := 30; body := heartbeat 4;
         mount_orientation := {| roll := 0; pitch := 0; yaw := 0 |} |} ]
    controller_init
  = (controller_init, []).
Proof.
  apply (router_drops_unknown (P := mavlink_px4) (I := mavlink_ids) 1).
  repeat constructor; simpl; lia.
Defined.

(** ** Capture state tracker: invariant, settings and the record clock *)

Lemma _setVideoStatus_invariant now status cfg c :
  capture_invariant c -> capture_invariant (fst (_setVideoStatus now status cfg c)).
Proof.
  intros Hinv. unfold _setVideoStatus.
  destruct (bool_decide_reflect (_video_status c = status)); [exact Hinv|].
  destruct (bool_decide_reflect (status = VIDEO_CAPTURE_STATUS_RUNNING)) as [->|Hnr];
    unfold capture_invariant; cbn [fst _recTimer _video_status _recordTime].
  - split; [tauto | congruence].
  - split; [split; [discriminate | contradiction] | reflexivity].
Qed.

Lemma handleCaptureStatus_invariant now cap cfg c :
  capture_invariant c -> capture_invariant (fst (handleCaptureStatus now cap cfg c)).
Proof.
  intros Hinv. unfold handleCaptureStatus, QGCCameraControl_handleCaptureStatus.
  pose proof (_setVideoStatus_invariant now (video_status cap) cfg c Hinv) as H1.
  destruct (_setVideoStatus now (video_status cap) cfg c) as [c1 e1]. cbn [fst] in H1.
  destruct (bool_decide_reflect (_video_status c1 = VIDEO_CAPTURE_STATUS_RUNNING)) as [Hr|Hr];
    [|exact H1].
  destruct H1 as [Ht _]. unfold capture_invariant.
  cbn [fst _recTimer _video_status _recordTime]. split; [exact Ht | contradiction].
Qed.

Lemma capture_step_invariant cfg ev c :
  capture_invariant c -> capture_invariant (fst (capture_step cfg ev c)).
Proof.
  intros Hinv. destruct ev as [now status | now cap | now]; cbn [capture_step].
  - apply _setVideoStatus_invariant, Hinv.
  - apply handleCaptureStatus_invariant, Hinv.
  - destruct (_recTimer c) eqn:Ht; [|exact Hinv].
    destruct Hinv as [Hiff _]. unfold capture_invariant, _recTimerHandler.
    cbn [fst _recTimer _video_status _recordTime].
    split; [exact Hiff|]. intros Hn. elim Hn. apply Hiff. exact Ht.
Qed.

(** Through any sequence of status updates, capture-status telemetry and
    timer ticks after construction: the record timer runs exactly while
    the video status is Running, and the record time is zero whenever it
    is not. *)
Theorem capture_timer_invariant (cfg : CaptureConfig) (settings : list string)
  (events : list CaptureEvent) :
  capture_invariant (fst (run (capture_step cfg) events (capture_init settings))).
Proof.
  assert (Hgen : forall c, capture_invariant c ->
                           capture_invariant (fst (run (capture_step cfg) events c))).
  { induction events as [|ev rest IH]; intros c Hc; [exact Hc|].
    rewrite run_fst_cons. apply IH, capture_step_invariant, Hc. }
  apply Hgen. unfold capture_invariant, capture_init.
  cbn [_recTimer _video_status _recordTime].
  split; [split; discriminate | reflexivity].
Qed.

(** A recording displays the time since its start: a tick [d]
    milliseconds after the status turned Running shows [d], also across
    midnight. *)
Theorem recording_time_since_start (now d : Z) (cfg : CaptureConfig) (c : Capture) :
  _video_status c <> VIDEO_CAPTURE_STATUS_RUNNING ->
  0 <= now < MSECS_PER_DAY -> 0 <= d < MSECS_PER_DAY ->
  let c1 := fst (_setVideoStatus now VIDEO_CAPTURE_STATUS_RUNNING cfg c) in
  _recordTime c1 = 0 /\
  _recTimer c1 = true /\
  _recordTime (fst (capture_step cfg (TimerTick ((now + d) mod MSECS_PER_DAY)) c1)) = d.
Proof.
  intros Hnr Hnow Hd. cbv zeta. unfold _setVideoStatus.
  destruct (bool_decide_reflect (_video_status c = VIDEO_CAPTURE_STATUS_RUNNING));
    [contradiction|].
  rewrite bool_decide_eq_true_2 by reflexivity.
  cbn [fst capture_step _recTimer _recordTime _recTimerHandler _recTime].
  repeat split.
  rewrite QTime_elapsed_mod by (assumption || apply Z.mod_pos_bound; reflexivity).
  rewrite Zminus_mod_idemp_l.
  replace (now + d - now) with d by lia. apply Z.mod_small. assumption.
Qed.

Lemma recording_time_since_start_witness :
  let c1 :=
    fst (_setVideoStatus 86399000 VIDEO_CAPTURE_STATUS_RUNNING sample_config
           (capture_init [kCAM_VIDRES])) in
  _recordTime c1 = 0 /\
  _recTimer c1 = true /\
  _recordTime (fst (capture_step sample_config
                      (TimerTick ((86399000 + 5000) mod MSECS_PER_DAY)) c1)) = 5000.
Proof.
  apply (recording_time_since_start 86399000 5000 sample_config
           (capture_init [kCAM_VIDRES])).
  - discriminate.
  - unfold MSECS_PER_DAY. lia.
  - unfold MSECS_PER_DAY. lia.
Defined.

(** Telemetry can also start the session: a capture-status message that
    reports Running while the tracker is not Running starts the record
    timer and sets both the displayed time and the local clock to the
    reported recording time. *)
Theorem telemetry_starts_session (now : Z) (cap : mavlink_camera_capture_status_t)
  (cfg : CaptureConfig) (c : Capture) :
  _video_status c <> VIDEO_CAPTURE_STATUS_RUNNING ->
  video_status cap = VIDEO_CAPTURE_STATUS_RUNNING ->
  0 <= now < MSECS_PER_DAY ->
  0 <= recording_time_ms cap < MSECS_PER_DAY ->
  let c' := fst (handleCaptureStatus now cap cfg c) in
  _video_status c' = VIDEO_CAPTURE_STATUS_RUNNING /\
  _recTimer c' = true /\
  _recordTime c' = recording_time_ms cap /\
  QTime_elapsed now (_recTime c') = recording_time_ms cap.
Proof.
  intros Hnr Hcap Hnow Hr. cbv zeta.
  unfold handleCaptureStatus, QGCCameraControl_handleCaptureStatus, _setVideoStatus.
  rewrite Hcap.
  destruct (bool_decide_reflect (_video_status c = VIDEO_CAPTURE_STATUS_RUNNING));
    [contradiction|].
  rewrite bool_decide_eq_true_2 by reflexivity.
  cbn [fst _video_status _recTime].
  rewrite bool_decide_eq_true_2 by reflexivity.
  cbn [fst _video_status _recTime _recTimer _recordTime].
  repeat split.
  assert (He : 0 <= QTime_elapsed now now < MSECS_PER_DAY).
  { rewrite QTime_elapsed_mod by assumption. apply Z.mod_pos_bound. reflexivity. }
  rewrite to_int32_uint32 by (unfold MSECS_PER_DAY in *; lia).
  pose proof (QTime_resync now now (recording_time_ms cap) 0
                Hnow Hnow ltac:(lia) ltac:(lia) ltac:(lia)) as H0.
  rewrite !Z.add_0_r in H0. rewrite Z.mod_small in H0 by assumption. exact H0.
Qed.

Lemma telemetry_starts_session_witness :
  let c' :=
    fst (handleCaptureStatus noon telemetry_900 sample_config
           (capture_init [kCAM_VIDRES])) in
  _video_status c' = VIDEO_CAPTURE_STATUS_RUNNING /\
  _recTimer c' = true /\
  _recordTime c' = 900 /\
  QTime_elapsed noon (_recTime c') = 900.
Proof.
  apply (telemetry_starts_session noon telemetry_900 sample_config
           (capture_init [kCAM_VIDRES])).
  - discriminate.
  - reflexivity.
  - unfold noon, MSECS_PER_DAY. lia.
  - unfold MSECS_PER_DAY. simpl. lia.
Defined.

Lemma removeOne_other x y (l : list string) :
  y <> x -> In y (removeOne x l) <-> In y l.
Proof.
  intros Hne. induction l as [|z l IH]; simpl; [tauto|].
  destruct (String.eqb_spec x z) as [->|Hxz]; simpl.
  - split; [auto | intros [Hz | H]; [congruence | exact H]].
  - rewrite IH. tauto.
Qed.

Lemma removeOne_NoDup x (l : list string) :
  NoDup l -> ~ In x (removeOne x l) /\ NoDup (removeOne x l).
Proof.
  induction l as [|z l IH]; intros Hnd; simpl.
  - split; [tauto | constructor].
  - apply NoDup_cons in Hnd as [Hz Hnd]. rewrite list_elem_of_In in Hz.
    destruct (String.eqb_spec x z) as [->|Hxz].
    + split; assumption.
    + destruct (IH Hnd) as [Hx Hnd']. split.
      * simpl. intros [Heq | H]; [congruence | contradiction].
      * apply NoDup_cons. split; [|exact Hnd'].
        rewrite list_elem_of_In, removeOne_other by congruence. exact Hz.
Qed.

(** While a recording runs on a camera that is not the thermal variant,
    resolution and format are not editable: entering Running removes both
    from the active settings (listed at most once), keeps every other
    setting, and always announces the change. *)
Theorem recording_locks_resolution (now : Z) (cfg : CaptureConfig) (c : Capture) :
  cfg_isCGOET cfg = false ->
  _video_status c <> VIDEO_CAPTURE_STATUS_RUNNING ->
  NoDup (_activeSettings c) ->
  let '(c1, trace) := _setVideoStatus now VIDEO_CAPTURE_STATUS_RUNNING cfg c in
  ~ In kCAM_VIDRES (_activeSettings c1) /\
  ~ In kCAM_VIDFMT (_activeSettings c1) /\
  (forall key, key <> kCAM_VIDRES -> key <> kCAM_VIDFMT ->
               (In key (_activeSettings c1) <-> In key (_activeSettings c))) /\
  trace = [Play _videoSound 1; Emit activeSettingsChanged].
Proof.
  intros Hcgo Hnr Hnd. unfold _setVideoStatus.
  destruct (bool_decide_reflect (_video_status c = VIDEO_CAPTURE_STATUS_RUNNING));
    [contradiction|].
  rewrite bool_decide_eq_true_2 by reflexivity. rewrite Hcgo.
  cbn [_activeSettings].
  destruct (removeOne_NoDup kCAM_VIDRES _ Hnd) as [Hres Hnd1].
  destruct (removeOne_NoDup kCAM_VIDFMT _ Hnd1) as [Hfmt _].
  split; [|split; [|split]].
  - rewrite removeOne_other by discriminate. exact Hres.
  - exact Hfmt.
  - intros key Hk1 Hk2. rewrite !removeOne_other by congruence. reflexivity.
  - reflexivity.
Qed.

Lemma recording_locks_resolution_witness :
  let '(c1, trace) :=
    _setVideoStatus noon VIDEO_CAPTURE_STATUS_RUNNING sample_config
      (capture_init [kCAM_MODE; kCAM_VIDRES; kCAM_ISO; kCAM_VIDFMT]) in
  ~ In kCAM_VIDRES (_activeSettings c1) /\
  ~ In kCAM_VIDFMT (_activeSettings c1) /\
  (forall key, key <> kCAM_VIDRES -> key <> kCAM_VIDFMT ->
               (In key (_activeSettings c1)
                <-> In key (_activeSettings
                              (capture_init [kCAM_MODE; kCAM_VIDRES; kCAM_ISO; kCAM_VIDFMT])))) /\
  trace = [Play _videoSound 1; Emit activeSettingsChanged].
Proof.
  apply (recording_locks_resolution noon sample_config
           (capture_init [kCAM_MODE; kCAM_VIDRES; kCAM_ISO; kCAM_VIDFMT])).
  - reflexivity.
  - discriminate.
  - simpl. repeat (apply NoDup_cons; split;
                   [rewrite list_elem_of_In; simpl; intuition discriminate|]).
    constructor.
Defined.

Lemma contains_In x (l : list string) : contains x l = true <-> In x l.
Proof.
  unfold contains. rewrite existsb_exists. split.
  - intros (y & Hy & Heq). apply String.eqb_eq in Heq. subst y. exact Hy.
  - intros Hx. exists x. split; [exact Hx | apply String.eqb_refl].
Qed.

Lemma exclusionList_In cfg key : In key (exclusionList cfg) <-> excluded cfg key.
Proof.
  unfold exclusionList, excluded. rewrite in_flat_map. split.
  - intros (rule & Hrule & Hkey).
    destruct (cfg_facts cfg !! param rule) as [pFact|] eqn:Hfact; [|destruct Hkey].
    destruct (String.eqb_spec (value rule) (rawValueString pFact)); [|destruct Hkey].
    exists rule, pFact. auto.
  - intros (rule & pFact & Hrule & Hfact & Hval & Hkey).
    exists rule. split; [exact Hrule|]. rewrite Hfact.
    destruct (String.eqb_spec (value rule) (rawValueString pFact)); [exact Hkey | contradiction].
Qed.

(** When a recording stops, the editable settings are rebuilt: they are
    the configured settings that no exclusion rule with a matching trigger
    value excludes; the timer stops, the record time returns to zero, the
    stop sound plays twice, and the change of the settings is announced
    exactly when they differ from before. *)
Theorem recording_stop_restores (now : Z) (status : VideoStatus)
  (cfg : CaptureConfig) (c : Capture) :
  _video_status c = VIDEO_CAPTURE_STATUS_RUNNING ->
  status <> VIDEO_CAPTURE_STATUS_RUNNING ->
  let '(c1, trace) := _setVideoStatus now status cfg c in
  _video_status c1 = status /\
  _recTimer c1 = false /\
  _recordTime c1 = 0 /\
  (forall key, In key (_activeSettings c1)
               <-> In key (_settings cfg) /\ ~ excluded cfg key) /\
  In (Play _videoSound 2) trace /\
  (In (Emit activeSettingsChanged) trace <-> _activeSettings c1 <> _activeSettings c).
Proof.
  intros Hrun Hnr. unfold _setVideoStatus. rewrite Hrun.
  destruct (bool_decide_reflect (VIDEO_CAPTURE_STATUS_RUNNING = status)) as [<-|_];
    [contradiction|].
  destruct (bool_decide_reflect (status = VIDEO_CAPTURE_STATUS_RUNNING)); [contradiction|].
  rewrite bool_decide_eq_false_2 by discriminate.
  cbn [negb andb _video_status _recTimer _recordTime _activeSettings].
  unfold string_list_eqb.
  assert (Hrestored : forall key, In key (restored_settings cfg)
                                  <-> In key (_settings cfg) /\ ~ excluded cfg key).
  { intros key. unfold restored_settings. rewrite filter_In, negb_true_iff.
    rewrite <- exclusionList_In, <- (contains_In key (exclusionList cfg)).
    destruct (contains key (exclusionList cfg)); split; intros [H1 H2];
      (split; [exact H1|]);
      first [ discriminate H2 | exfalso; apply H2; reflexivity
            | reflexivity | intros H3; discriminate H3 ]. }
  destruct (bool_decide_reflect (restored_settings cfg = _activeSettings c)) as [Heq|Hne];
    cbn [negb app].
  - split; [reflexivity|]. split; [reflexivity|]. split; [reflexivity|].
    split; [intros key; rewrite <- Heq; apply Hrestored|].
    split; [right; left; reflexivity|].
    split; [intros [H | [H | []]]; discriminate | intros H; contradiction].
  - split; [reflexivity|]. split; [reflexivity|]. split; [reflexivity|].
    split; [exact Hrestored|].
    split; [right; right; left; reflexivity|].
    split; [intros _; exact Hne | intros _; right; left; reflexivity].
Qed.

Lemma recording_stop_restores_witness :
  let cfg :=
    {| cfg_isCGOET := false;
       _settings := [kCAM_MODE; kCAM_VIDRES; kCAM_ISO];
       _valueExclusions :=
         [ {| param := kCAM_MODE; value := "1"; exclusions := [kCAM_ISO] |} ];
       cfg_facts := {[ kCAM_MODE := {| rawValue := 1; enumValues := [] |} ]} |} in
  let c :=
    {| _video_status := VIDEO_CAPTURE_STATUS_RUNNING; _recordTime := 5000;
       _recTime := noon; _recTimer := true; _activeSettings := [kCAM_MODE; kCAM_ISO] |} in
  let '(c1, trace) := _setVideoStatus noon VIDEO_CAPTURE_STATUS_STOPPED cfg c in
  _video_status c1 = VIDEO_CAPTURE_STATUS_STOPPED /\
  _recTimer c1 = false /\
  _recordTime c1 = 0 /\
  (forall key, In key (_activeSettings c1)
               <-> In key (_settings cfg) /\ ~ excluded cfg key) /\
  In (Play _videoSound 2) trace /\
  (In (Emit activeSettingsChanged) trace <-> _activeSettings c1 <> _activeSettings c).
Proof.
  cbv zeta.
  apply (recording_stop_restores noon VIDEO_CAPTURE_STATUS_STOPPED
           {| cfg_isCGOET := false;
              _settings := [kCAM_MODE; kCAM_VIDRES; kCAM_ISO];
              _valueExclusions :=
                [ {| param := kCAM_MODE; value := "1"; exclusions := [kCAM_ISO] |} ];
              cfg_facts := {[ kCAM_MODE := {| rawValue := 1; enumValues := [] |} ]} |}
           {| _video_status := VIDEO_CAPTURE_STATUS_RUNNING; _recordTime := 5000;
              _recTime := noon; _recTimer := true;
              _activeSettings := [kCAM_MODE; kCAM_ISO] |}).
  - reflexivity.
  - discriminate.
Defined.

(** ** Camera mode *)

(** [setVideoMode] and [setPhotoMode] (target Video and Photo): without a
    [CAM_MODE] fact the call changes nothing, the mode included; with it
    the camera ends in the target mode; mode and fact stay in agreement;
    a repeated call changes nothing more; no other fact is touched. *)
Theorem camera_mode_switch (mode_raw : CameraMode -> Z) (target : CameraMode)
  (m : ModeContext) :
  let m' := set_mode mode_raw target m in
  (mc_facts m !! kCAM_MODE = None -> m' = m) /\
  (is_Some (mc_facts m !! kCAM_MODE) -> mc_cameraMode m' = target) /\
  (mode_in_sync mode_raw m -> mode_in_sync mode_raw m') /\
  set_mode mode_raw target m' = m' /\
  (forall name, name <> kCAM_MODE -> mc_facts m' !! name = mc_facts m !! name).
Proof.
  cbv zeta. unfold set_mode.
  destruct (bool_decide_reflect (mc_cameraMode m = target)) as [Heq|Hne].
  - split; [reflexivity|]. split; [intros _; exact Heq|]. split; [auto|].
    split; [|reflexivity]. rewrite bool_decide_eq_true_2 by exact Heq. reflexivity.
  - destruct (mc_facts m !! kCAM_MODE) as [pFact|] eqn:Hfact.
    + split; [discriminate|]. split; [reflexivity|]. split; [|split].
      * intros _ f. cbn [mc_facts mc_cameraMode]. rewrite lookup_insert_eq.
        intros [= <-]. reflexivity.
      * cbn [mc_cameraMode]. rewrite bool_decide_eq_true_2 by reflexivity. reflexivity.
      * intros name Hname. cbn [mc_facts]. apply lookup_insert_ne. congruence.
    + split; [reflexivity|]. split; [intros [? [=]]|]. split; [auto|].
      split; [|reflexivity].
      rewrite bool_decide_eq_false_2 by exact Hne. rewrite Hfact. reflexivity.
Qed.

Lemma camera_mode_switch_witness :
  let mode_raw := fun m => match m with
                           | CAM_MODE_UNDEFINED => -1
                           | CAM_MODE_PHOTO => 0
                           | CAM_MODE_VIDEO => 1
                           end in
  let m := {| mc_cameraMode := CAM_MODE_PHOTO;
              mc_facts := {[ kCAM_MODE := {| rawValue := 0; enumValues := [0; 1] |} ]} |} in
  mc_cameraMode (set_mode mode_raw CAM_MODE_VIDEO m) = CAM_MODE_VIDEO /\
  mode_in_sync mode_raw (set_mode mode_raw CAM_MODE_VIDEO m).
Proof.
  cbv zeta.
  pose proof (camera_mode_switch
                (fun m => match m with
                          | CAM_MODE_UNDEFINED => -1
                          | CAM_MODE_PHOTO => 0
                          | CAM_MODE_VIDEO => 1
                          end)
                CAM_MODE_VIDEO
                {| mc_cameraMode := CAM_MODE_PHOTO;
                   mc_facts := {[ kCAM_MODE := {| rawValue := 0; enumValues := [0; 1] |} ]} |})
    as (_ & Hmode & Hsync & _).
  split.
  - apply Hmode. eexists. vm_compute. reflexivity.
  - apply Hsync. intros pFact Hp. vm_compute in Hp. injection Hp as <-. reflexivity.
Defined.

(** ** Fact changes and the control buttons *)

Lemma resets_shutter_not_status name :
  resets_shutter name = true -> String.eqb name kCAM_TEMPSTATUS = false.
Proof.
  unfold resets_shutter. rewrite !orb_true_iff, !String.eqb_eq.
  intros [[[[[[-> | ->] | ->] | ->] | ->] | ->] | ->]; reflexivity.
Qed.

(** A change of one of the seven exposure and mode parameters disables
    both buttons: whatever the base class does in between, the photo
    status ends Undefined, the capture-status request is scheduled in
    1000 ms with its retry count reset, and a press of the shutter or of
    the video button is rejected with the failure sound. *)
Theorem exposure_change_disables_buttons
  (base : string -> FactState -> FactState) (isCGOET : bool) (name : string)
  (s : FactState) (cam : CameraView) (oldState : Z) :
  resets_shutter name = true ->
  let '(s', trace) := factChanged base isCGOET name s in
  fs_photoStatus s' = PHOTO_CAPTURE_STATUS_UNDEFINED /\
  _captureInfoRetries s' = 0 /\
  In (StartCaptureStatusTimer 1000) trace /\
  _switchStateChanged BUTTON_CAMERA_SHUTTER oldState 1
    (with_photoStatus (fs_photoStatus s') cam) = [Play _errorSound 1] /\
  _switchStateChanged BUTTON_VIDEO_SHUTTER oldState 1
    (with_photoStatus (fs_photoStatus s') cam) = [Play _errorSound 1].
Proof.
  intros Hname. unfold factChanged.
  rewrite (resets_shutter_not_status name Hname), andb_false_r, Hname.
  cbn [fs_photoStatus _captureInfoRetries].
  split; [reflexivity|]. split; [reflexivity|].
  split; [apply in_or_app; right; left; reflexivity|].
  unfold _switchStateChanged, with_photoStatus. cbn.
  destruct (storageTotal cam =? 0), (storageFree cam <? 250); split; reflexivity.
Qed.

Lemma exposure_change_disables_buttons_witness :
  let cam :=
    {| storageTotal := 32000; storageFree := 16000;
       photoStatus := PHOTO_CAPTURE_IDLE; cameraMode := CAM_MODE_PHOTO;
       videoStatus := VIDEO_CAPTURE_STATUS_STOPPED; photosInVideoMode := false |} in
  let '(s', trace) :=
    factChanged (fun _ s => s) false kCAM_ISO
      {| fs_photoStatus := PHOTO_CAPTURE_IDLE; _irValid := false;
         _captureInfoRetries := 3 |} in
  fs_photoStatus s' = PHOTO_CAPTURE_STATUS_UNDEFINED /\
  _captureInfoRetries s' = 0 /\
  In (StartCaptureStatusTimer 1000) trace /\
  _switchStateChanged BUTTON_CAMERA_SHUTTER 0 1
    (with_photoStatus (fs_photoStatus s') cam) = [Play _errorSound 1] /\
  _switchStateChanged BUTTON_VIDEO_SHUTTER 0 1
    (with_photoStatus (fs_photoStatus s') cam) = [Play _errorSound 1].
Proof.
  cbv zeta.
  apply (exposure_change_disables_buttons (fun _ s => s) false kCAM_ISO
           {| fs_photoStatus := PHOTO_CAPTURE_IDLE; _irValid := false;
              _captureInfoRetries := 3 |}).
  reflexivity.
Defined.

(** On the thermal variant a run of temperature-status changes starts the
    repeating 1000 ms poll once, at the first change unless it was already
    valid, announces every change, and leaves the photo status and the
    retry count alone. *)
Theorem thermal_status_polling (base : string -> FactState -> FactState)
  (names : list string) (s : FactState) :
  Forall (fun name => name = kCAM_TEMPSTATUS) names -> names <> [] ->
  let '(s', trace) := run_with (factChanged base true) names s in
  _irValid s' = true /\
  fs_photoStatus s' = fs_photoStatus s /\
  _captureInfoRetries s' = _captureInfoRetries s /\
  trace = (if _irValid s then [] else [StartIrStatusTimer 1000])
          ++ repeat EmitIrTempChanged (length names).
Proof.
  intros Hall Hne.
  assert (Hgen : forall l s0,
             Forall (fun name => name = kCAM_TEMPSTATUS) l ->
             let '(s', trace) := run_with (factChanged base true) l s0 in
             _irValid s' = match l with [] => _irValid s0 | _ => true end /\
             fs_photoStatus s' = fs_photoStatus s0 /\
             _captureInfoRetries s' = _captureInfoRetries s0 /\
             trace = (if _irValid s0 then []
                      else match l with [] => [] | _ => [StartIrStatusTimer 1000] end)
                     ++ repeat EmitIrTempChanged (length l)).
  { induction l as [|a l IH]; intros s0 Hl.
    - simpl. destruct (_irValid s0); repeat split; reflexivity.
    - inversion Hl as [|? ? -> Hl']; subst. cbn [run_with].
      unfold factChanged at 1. cbn [andb String.eqb]. rewrite String.eqb_refl.
      set (s1 := {| fs_photoStatus := fs_photoStatus s0; _irValid := true;
                    _captureInfoRetries := _captureInfoRetries s0 |}).
      specialize (IH s1 Hl').
      destruct (run_with (factChanged base true) l s1) as [s' trace].
      destruct IH as (Hv & Hp & Hc & ->). cbn [_irValid s1 app] in *.
      split; [|split; [exact Hp | split; [exact Hc|]]].
      + rewrite Hv. destruct l; reflexivity.
      + destruct (_irValid s0); simpl; rewrite <- ?app_assoc; reflexivity. }
  specialize (Hgen names s Hall).
  destruct (run_with (factChanged base true) names s) as [s' trace].
  destruct Hgen as (Hv & Hp & Hc & ->).
  split; [rewrite Hv; destruct names; [contradiction | reflexivity]|].
  split; [exact Hp|]. split; [exact Hc|].
  destruct names; [contradiction | reflexivity].
Qed.

Lemma thermal_status_polling_witness :
  let '(s', trace) :=
    run_with (factChanged (fun _ s => s) true) [kCAM_TEMPSTATUS; kCAM_TEMPSTATUS]
      {| fs_photoStatus := PHOTO_CAPTURE_IDLE; _irValid := false;
         _captureInfoRetries := 0 |} in
  _irValid s' = true /\
  fs_photoStatus s' = PHOTO_CAPTURE_IDLE /\
  _captureInfoRetries s' = 0 /\
  trace = [StartIrStatusTimer 1000] ++ repeat EmitIrTempChanged 2.
Proof.
  apply (thermal_status_polling (fun _ s => s) [kCAM_TEMPSTATUS; kCAM_TEMPSTATUS]
           {| fs_photoStatus := PHOTO_CAPTURE_IDLE; _irValid := false;
              _captureInfoRetries := 0 |}).
  - repeat constructor.
  - discriminate.
Defined.

Lemma orientation_jitter_suppressed_witness :
  let '(g', trace) :=
    run_with _handleGimbalOrientation
      [ {| roll := 2 ^ 147; pitch := 0; yaw := - 2 ^ 148 |};
        {| roll := 0; pitch := 2 ^ 148; yaw := 0 |} ] orientation_init in
  _gimbalRoll g' = 0 /\ _gimbalPitch g' = 0 /\ _gimbalYaw g' = 0 /\
  trace = [gimbalDataChanged].
Proof.
  apply (orientation_jitter_suppressed
           [ {| roll := 2 ^ 147; pitch := 0; yaw := - 2 ^ 148 |};
             {| roll := 0; pitch := 2 ^ 148; yaw := 0 |} ] orientation_init).
  repeat constructor.
Defined.

(** ** Control dispatcher: what a press can start *)



(** A recording is started or stopped, at once or after the switch to
    video mode, only on a press of the video button with storage present,
    at least 250 free and the camera idle. *)
Theorem recording_only_when_permitted (swId : Switch) (oldState newState : Z)
  (cam : CameraView) :
  existsb touches_recording (_switchStateChanged swId oldState newState cam) = true ->
  newState = 1 /\ swId = BUTTON_VIDEO_SHUTTER /\
  storageTotal cam <> 0 /\ 250 <= storageFree cam /\
  photoStatus cam = PHOTO_CAPTURE_IDLE.
Proof.
  unfold _switchStateChanged.
  destruct (Z.eqb_spec newState 1) as [Hn|Hn]; [|discriminate].
  destruct swId as [| |other]; [| |discriminate].
  - destruct ((storageTotal cam =? 0) || (storageFree cam <? 250)
              || negb (bool_decide (photoStatus cam = PHOTO_CAPTURE_IDLE)));
      [discriminate|].
    destruct (cameraMode cam); try discriminate.
    destruct (photosInVideoMode cam), (videoStatus cam); discriminate.
  - destruct (Z.eqb_spec (storageTotal cam) 0) as [Ht|Ht]; [discriminate|].
    destruct (Z.ltb_spec (storageFree cam) 250) as [Hf|Hf]; [discriminate|].
    destruct (photoStatus cam); try discriminate.
    intros _. split; [exact Hn|]. split; [reflexivity|]. split; [exact Ht|].
    split; [exact Hf | reflexivity].
Qed.

Lemma recording_only_when_permitted_witness :
  let cam :=
    {| storageTotal := 32000; storageFree := 250;
       photoStatus := PHOTO_CAPTURE_IDLE; cameraMode := CAM_MODE_PHOTO;
       videoStatus := VIDEO_CAPTURE_STATUS_STOPPED; photosInVideoMode := false |} in
  storageTotal cam <> 0 /\ 250 <= storageFree cam.
Proof.
  cbv zeta.
  pose proof (recording_only_when_permitted BUTTON_VIDEO_SHUTTER 0 1
                {| storageTotal := 32000; storageFree := 250;
                   photoStatus := PHOTO_CAPTURE_IDLE; cameraMode := CAM_MODE_PHOTO;
                   videoStatus := VIDEO_CAPTURE_STATUS_STOPPED;
                   photosInVideoMode := false |} eq_refl)
    as (_ & _ & Ht & Hf & _).
  split; [exact Ht | exact Hf].
Defined.

(** The video button, pressed: with no storage, less than 250 free or the
    camera not idle, only the failure sound; otherwise the recording is
    toggled at once in video mode, and in any other mode the camera is
    switched to video mode and the recording started 2500 ms later. *)
Theorem video_button_dispatch (cam : CameraView) (oldState : Z) :
  let out := _switchStateChanged BUTTON_VIDEO_SHUTTER oldState 1 cam in
  let ready := storageTotal cam <> 0 /\ 250 <= storageFree cam
               /\ photoStatus cam = PHOTO_CAPTURE_IDLE in
  (~ ready -> out = [Play _errorSound 1]) /\
  (ready -> cameraMode cam = CAM_MODE_VIDEO -> out = [Invoke toggleVideo]) /\
  (ready -> cameraMode cam <> CAM_MODE_VIDEO ->
   out = [Invoke setVideoMode; SingleShot 2500 _delayedStartVideo]).
Proof.
  cbv zeta. unfold _switchStateChanged. cbn [Z.eqb Pos.eqb].
  destruct (Z.eqb_spec (storageTotal cam) 0) as [Ht|Ht];
    [split; [reflexivity | split; intros (? & _); contradiction]|].
  destruct (Z.ltb_spec (storageFree cam) 250) as [Hf|Hf];
    [split; [reflexivity | split; intros (_ & ? & _); lia]|].
  destruct (photoStatus cam) eqn:Hp; cbn;
    try (split; [reflexivity | split; intros (_ & _ & ?); discriminate]).
  split; [intros H; exfalso; apply H; auto|].
  split.
  - intros _ ->. reflexivity.
  - intros _ Hm. destruct (cameraMode cam); [reflexivity | reflexivity | congruence].
Qed.

Lemma video_button_dispatch_witness :
  _switchStateChanged BUTTON_VIDEO_SHUTTER 0 1
    {| storageTotal := 32000; storageFree := 16000;
       photoStatus := PHOTO_CAPTURE_IDLE; cameraMode := CAM_MODE_PHOTO;
       videoStatus := VIDEO_CAPTURE_STATUS_STOPPED; photosInVideoMode := false |}
  = [Invoke setVideoMode; SingleShot 2500 _delayedStartVideo].
Proof.
  apply (video_button_dispatch
           {| storageTotal := 32000; storageFree := 16000;
              photoStatus := PHOTO_CAPTURE_IDLE; cameraMode := CAM_MODE_PHOTO;
              videoStatus := VIDEO_CAPTURE_STATUS_STOPPED;
              photosInVideoMode := false |} 0).
  - simpl. split; [lia | split; [lia | reflexivity]].
  - simpl. discriminate.
Defined.

(** The shutter button, pressed in video mode with the guard passed: while
    the recording is not stopped the press is refused with the failure
    sound; when it is stopped a photo is taken at once if the camera takes
    photos in video mode, and otherwise the camera is switched to photo
    mode and the photo taken 2500 ms later. *)
Theorem shutter_in_video_mode (cam : CameraView) (oldState : Z) :
  storageTotal cam <> 0 -> 250 <= storageFree cam ->
  photoStatus cam = PHOTO_CAPTURE_IDLE ->
  cameraMode cam = CAM_MODE_VIDEO ->
  _switchStateChanged BUTTON_CAMERA_SHUTTER oldState 1 cam =
    if bool_decide (videoStatus cam = VIDEO_CAPTURE_STATUS_STOPPED)
    then if photosInVideoMode cam then [Invoke takePhoto]
         else [Invoke setPhotoMode; SingleShot 2500 _delayedTakePhoto]
    else [Play _errorSound 1].
Proof.
  intros Ht Hf Hp Hm. unfold _switchStateChanged. cbn [Z.eqb Pos.eqb].
  destruct (Z.eqb_spec (storageTotal cam) 0); [contradiction|].
  destruct (Z.ltb_spec (storageFree cam) 250); [lia|].
  rewrite Hp, Hm. cbn.
  destruct (photosInVideoMode cam), (videoStatus cam); reflexivity.
Qed.

Lemma shutter_in_video_mode_witness :
  _switchStateChanged BUTTON_CAMERA_SHUTTER 0 1
    {| storageTotal := 32000; storageFree := 16000;
       photoStatus := PHOTO_CAPTURE_IDLE; cameraMode := CAM_MODE_VIDEO;
       videoStatus := VIDEO_CAPTURE_STATUS_RUNNING; photosInVideoMode := true |}
  = [Play _errorSound 1].
Proof.
  apply (shutter_in_video_mode
           {| storageTotal := 32000; storageFree := 16000;
              photoStatus := PHOTO_CAPTURE_IDLE; cameraMode := CAM_MODE_VIDEO;
              videoStatus := VIDEO_CAPTURE_STATUS_RUNNING;
              photosInVideoMode := true |} 0); simpl; (lia || reflexivity).
Defined.

(** ** Spot area: decoder and encoder on their own *)

Section SpotAreaCodec.

Import IEEE.

(** The decoder's arithmetic is exact for every byte: the two float
    roundings never move the quotient across a whole pixel. *)
Lemma spot_pixel_byte b W :
  0 <= b <= 255 -> 0 < W < 2 ^ 16 ->
  spot_pixel b (W * flt_unit) = Some (b * W / 100).
Proof.
  intros Hb HW. pose proof flt_unit_pos as HS. pose proof flt_unit_big as HSbig.
  unfold spot_pixel. rewrite flt_of_int_small by lia. cbn [mbind option_bind].
  rewrite flt_mul_pos by lia.
  set (n := b * W).
  assert (Hn : 0 <= n < 2 ^ 24) by (unfold n; nia).
  replace (b * flt_unit * W) with (n * 2 ^ 149) by (unfold n, flt_unit; lia).
  rewrite IEEEFacts.rnd_pos_exact by lia. fold flt_unit.
  assert (HnS : n * flt_unit <= (2 ^ 24 - 1) * flt_unit)
    by (apply Z.mul_le_mono_nonneg_r; lia).
  rewrite flt_finite_small by lia. cbn [mbind option_bind].
  unfold flt_100. rewrite flt_div_pos by lia.
  set (R3 := rnd_pos 24 (n * flt_unit) 100).
  pose proof (Z.div_mod n 100 ltac:(lia)) as Hdm.
  pose proof (Z.mod_pos_bound n 100 ltac:(lia)) as Hg.
  set (j := n / 100) in *. set (g := n mod 100) in *.
  assert (Hj : 0 <= j < 2 ^ 24).
  { split; [apply Z.div_pos; lia|]. apply Z.div_lt_upper_bound; lia. }
  assert (HjS : (j + 1) * flt_unit <= 2 ^ 24 * flt_unit)
    by (apply Z.mul_le_mono_nonneg_r; lia).
  assert (HjS0 : 0 <= j * flt_unit) by (apply Z.mul_nonneg_nonneg; lia).
  assert (HR3 : j * flt_unit <= R3 < (j + 1) * flt_unit).
  { destruct (Z.eq_dec g 0) as [Hg0|Hg0].
    - assert (HR3eq : R3 = j * flt_unit).
      { unfold R3. replace (n * flt_unit) with (j * flt_unit * 100) by lia.
        rewrite <- (Z.mul_1_l 100) at 2.
        rewrite IEEEFacts.rnd_pos_scale by lia.
        unfold flt_unit. apply IEEEFacts.rnd_pos_exact; lia. }
      lia.
    - assert (Hrel : 2 ^ 24 * Z.abs (100 * R3 - n * flt_unit) <= n * flt_unit).
      { apply IEEEFacts.rnd_pos_rel; [lia | lia |].
        assert (1 * flt_unit <= n * flt_unit)
          by (apply Z.mul_le_mono_nonneg_r; lia).
        apply Z.div_le_lower_bound; lia. }
      assert (HgS : 1 * flt_unit <= g * flt_unit <= 99 * flt_unit)
        by (split; apply Z.mul_le_mono_nonneg_r; lia).
      assert (HN : n * flt_unit = 100 * (j * flt_unit) + g * flt_unit) by lia.
      lia. }
  rewrite flt_finite_small by lia. cbn [mbind option_bind].
  unfold flt_to_int. rewrite flt_trunc_nonneg by lia.
  assert (Hq : R3 / flt_unit = j).
  { symmetry. apply (Z.div_unique_pos R3 flt_unit j (R3 - j * flt_unit)); lia. }
  rewrite Hq.
  destruct (Z.leb_spec (- 2 ^ 31) j); [|lia].
  destruct (Z.ltb_spec j (2 ^ 31)); [|lia].
  reflexivity.
Qed.

Lemma byte_range z : 0 <= Z.land z 255 <= 255.
Proof.
  change (Z.land z 255) with (Z.land z (Z.ones 8)). rewrite Z.land_ones by lia.
  pose proof (Z.mod_pos_bound z (2 ^ 8) ltac:(lia)). lia.
Qed.

Lemma spot_percent_range f v x :
  spot_percent f v = Some x -> 0 <= x <= 100.
Proof.
  unfold spot_percent. intros H.
  apply bind_Some in H as (q & _ & H).
  apply bind_Some in H as (r & _ & H).
  apply bind_Some in H as (t & Ht & H).
  unfold flt_to_uint8 in Ht.
  destruct (Z.leb_spec 0 (flt_trunc r)); [|discriminate].
  destruct (Z.ltb_spec (flt_trunc r) (2 ^ 8)); [|discriminate].
  injection Ht as <-. injection H as <-.
  destruct (Z.ltb_spec 100 (flt_trunc r)); lia.
Qed.

(** What a successful [setSpotArea] leaves behind when its guard passes. *)
Lemma setSpotArea_inv (p : Z * Z) (s s' : SpotContext) (pFact : Fact) :
  _isCGOET s = false -> _paramComplete s = true ->
  facts s !! kCAM_SPOTAREA = Some pFact ->
  setSpotArea p s = Some s' ->
  exists x y,
    0 <= x <= 100 /\ 0 <= y <= 100 /\
    s' = with_facts
           (<[kCAM_SPOTAREA :=
                setRawValue (to_uint16 (Z.lor (Z.shiftl x 8) y)) pFact]> (facts s)) s.
Proof.
  intros Hcgo Hpar Hfact H. unfold setSpotArea in H.
  rewrite Hcgo, Hpar, Hfact in H. cbn [negb andb] in H.
  apply bind_Some in H as (vw & _ & H).
  apply bind_Some in H as (vh & _ & H).
  apply bind_Some in H as (fx & _ & H).
  apply bind_Some in H as (fy & _ & H).
  apply bind_Some in H as (x & Hx & H).
  apply bind_Some in H as (y & Hy & H).
  injection H as <-.
  exists x, y. split; [exact (spot_percent_range _ _ _ Hx)|].
  split; [exact (spot_percent_range _ _ _ Hy) | reflexivity].
Qed.

End SpotAreaCodec.

(** The decoder is exact: for a frame below 65536 pixels per side the spot
    read back is the stored high byte as a percentage of the width and the
    stored low byte as a percentage of the height, both rounded down, for
    any stored value. *)
Theorem spotArea_decodes (s : SpotContext) (pFact : Fact) (W H : Z) :
  _isCGOET s = false -> _paramComplete s = true ->
  facts s !! kCAM_SPOTAREA = Some pFact ->
  _videoSize s = (W, H) ->
  0 < W < 2 ^ 16 -> 0 < H < 2 ^ 16 ->
  spotArea s =
    Some (Z.land (Z.shiftr (toUInt (rawValue pFact)) 8) 255 * W / 100,
          Z.land (toUInt (rawValue pFact)) 255 * H / 100).
Proof.
  intros Hcgo Hpar Hfact Hsize HW HH. unfold spotArea.
  rewrite Hcgo, Hpar, Hfact, Hsize. cbn [negb andb fst snd].
  rewrite !flt_of_int_small by lia. cbn [mbind option_bind].
  rewrite spot_pixel_byte by (apply byte_range || lia). cbn [mbind option_bind].
  rewrite spot_pixel_byte by (apply byte_range || lia). reflexivity.
Qed.

Lemma spotArea_decodes_witness :
  spotArea
    {| _isCGOET := false; _paramComplete := true; _videoSize := (1280, 720);
       facts := {[ kCAM_SPOTAREA := {| rawValue := 65535; enumValues := [] |} ]} |}
  = Some (3264, 1836).
Proof.
  apply (spotArea_decodes
           {| _isCGOET := false; _paramComplete := true; _videoSize := (1280, 720);
              facts := {[ kCAM_SPOTAREA := {| rawValue := 65535; enumValues := [] |} ]} |}
           {| rawValue := 65535; enumValues := [] |} 1280 720);
    first [reflexivity | lia].
Defined.

(** A successful [setSpotArea] stores two percentages: both bytes of the
    new parameter value are at most 100, the enumeration of the fact and
    every other fact are untouched, and so are the variant, the loading
    flag and the video size. *)
Theorem setSpotArea_stores_percentages (p : Z * Z) (s s' : SpotContext)
  (pFact : Fact) :
  _isCGOET s = false -> _paramComplete s = true ->
  facts s !! kCAM_SPOTAREA = Some pFact ->
  setSpotArea p s = Some s' ->
  exists pFact',
    facts s' !! kCAM_SPOTAREA = Some pFact' /\
    0 <= Z.land (Z.shiftr (toUInt (rawValue pFact')) 8) 255 <= 100 /\
    0 <= Z.land (toUInt (rawValue pFact')) 255 <= 100 /\
    0 <= rawValue pFact' < 2 ^ 16 /\
    enumValues pFact' = enumValues pFact /\
    (forall name, name <> kCAM_SPOTAREA -> facts s' !! name = facts s !! name) /\
    _isCGOET s' = _isCGOET s /\ _paramComplete s' = _paramComplete s /\
    _videoSize s' = _videoSize s.
Proof.
  intros Hcgo Hpar Hfact Hset.
  destruct (setSpotArea_inv p s s' pFact Hcgo Hpar Hfact Hset)
    as (x & y & Hx & Hy & ->).
  destruct (spot_unpack x y ltac:(lia) ltac:(lia)) as [Hux Huy].
  eexists. split; [cbn [facts with_facts]; apply lookup_insert_eq|].
  cbn [rawValue setRawValue enumValues]. rewrite Hux, Huy.
  split; [exact Hx|]. split; [exact Hy|].
  split; [unfold to_uint16; apply Z.mod_pos_bound; lia|].
  split; [reflexivity|].
  split; [|split; [reflexivity | split; reflexivity]].
  intros name Hname. cbn [facts with_facts]. apply lookup_insert_ne. congruence.
Qed.

Lemma setSpotArea_stores_percentages_witness :
  exists pFact',
    (with_facts
       (<[kCAM_SPOTAREA := {| rawValue := 12850; enumValues := [] |}]>
          (facts (spot_context 1280 720)))
       (spot_context 1280 720)).(facts) !! kCAM_SPOTAREA = Some pFact' /\
    0 <= Z.land (Z.shiftr (toUInt (rawValue pFact')) 8) 255 <= 100 /\
    0 <= Z.land (toUInt (rawValue pFact')) 255 <= 100.
Proof.
  assert (Hset : setSpotArea (640, 360) (spot_context 1280 720)
                 = Some (with_facts
                           (<[kCAM_SPOTAREA := {| rawValue := 12850; enumValues := [] |}]>
                              (facts (spot_context 1280 720)))
                           (spot_context 1280 720)))
    by (vm_compute; reflexivity).
  destruct (setSpotArea_stores_percentages (640, 360) (spot_context 1280 720) _
              {| rawValue := 0; enumValues := [] |}
              eq_refl eq_refl eq_refl Hset)
    as (pFact' & H1 & H2 & H3 & _).
  exists pFact'. split; [exact H1|]. split; [exact H2 | exact H3].
Defined.

(** Whatever point is set, inside the frame or not, the spot read back
    afterwards lies within the frame: both coordinates are between 0 and
    the frame size. *)
Theorem spot_read_back_in_frame (p : Z * Z) (s s' : SpotContext)
  (pFact : Fact) (W H : Z) :
  _isCGOET s = false -> _paramComplete s = true ->
  facts s !! kCAM_SPOTAREA = Some pFact ->
  _videoSize s = (W, H) ->
  0 < W < 2 ^ 16 -> 0 < H < 2 ^ 16 ->
  setSpotArea p s = Some s' ->
  exists x' y',
    spotArea s' = Some (x', y') /\ 0 <= x' <= W /\ 0 <= y' <= H.
Proof.
  intros Hcgo Hpar Hfact Hsize HW HH Hset.
  destruct (setSpotArea_inv p s s' pFact Hcgo Hpar Hfact Hset)
    as (x & y & Hx & Hy & ->).
  destruct (spot_unpack x y ltac:(lia) ltac:(lia)) as [Hux Huy].
  exists (x * W / 100), (y * H / 100). split.
  - unfold spotArea, with_facts. cbn [_isCGOET _paramComplete _videoSize facts].
    rewrite Hcgo, Hpar, Hsize. cbn [negb andb fst snd].
    rewrite lookup_insert_eq. cbn [rawValue setRawValue].
    rewrite !flt_of_int_small by lia. cbn [mbind option_bind].
    rewrite Hux, Huy.
    rewrite (spot_pixel_byte x W) by lia. cbn [mbind option_bind].
    rewrite (spot_pixel_byte y H) by lia. reflexivity.
  - split; split.
    + apply Z.div_pos; nia.
    + apply Z.div_le_upper_bound; nia.
    + apply Z.div_pos; nia.
    + apply Z.div_le_upper_bound; nia.
Qed.

Lemma spot_read_back_in_frame_witness :
  exists x' y',
    spotArea
      (with_facts
         (<[kCAM_SPOTAREA := {| rawValue := 25600; enumValues := [] |}]>
            (facts (spot_context 1280 720)))
         (spot_context 1280 720))
    = Some (x', y') /\ 0 <= x' <= 1280 /\ 0 <= y' <= 720.
Proof.
  assert (Hset : setSpotArea (2000, -5) (spot_context 1280 720)
                 = Some (with_facts
                           (<[kCAM_SPOTAREA := {| rawValue := 25600; enumValues := [] |}]>
                              (facts (spot_context 1280 720)))
                           (spot_context 1280 720)))
    by (vm_compute; reflexivity).
  apply (spot_read_back_in_frame (2000, -5) (spot_context 1280 720) _
           {| rawValue := 0; enumValues := [] |} 1280 720
           eq_refl eq_refl eq_refl eq_refl ltac:(lia) ltac:(lia) Hset).
Defined.

(** The edges of the spot-area pair: a negative coordinate is taken as 0;
    and on the thermal variant, before the parameters are loaded, or
    without a [CAM_SPOTAREA] fact, setting the spot changes nothing and
    the spot reads as (0, 0). *)
Theorem spot_area_edges (p : Z * Z) (s : SpotContext) :
  setSpotArea p s = setSpotArea (Z.max 0 (fst p), Z.max 0 (snd p)) s /\
  (_isCGOET s = true \/ _paramComplete s = false
   \/ facts s !! kCAM_SPOTAREA = None ->
   setSpotArea p s = Some s /\ spotArea s = Some (0, 0)).
Proof.
  split.
  - assert (Hclamp : forall z,
               (if z <? 0 then Some 0 else IEEE.flt_of_int z)
               = (if Z.max 0 z <? 0 then Some 0 else IEEE.flt_of_int (Z.max 0 z))).
    { intros z. destruct (Z.ltb_spec z 0).
      - rewrite Z.max_l by lia. reflexivity.
      - rewrite Z.max_r by lia. destruct (Z.ltb_spec z 0); [lia | reflexivity]. }
    unfold setSpotArea. cbn [fst snd].
    destruct (negb (_isCGOET s) && _paramComplete s); [|reflexivity].
    destruct (facts s !! kCAM_SPOTAREA) as [pFact|]; [|reflexivity].
    destruct (IEEE.flt_of_int (fst (_videoSize s))) as [vw|]; [|reflexivity].
    destruct (IEEE.flt_of_int (snd (_videoSize s))) as [vh|]; [|reflexivity].
    cbn [mbind option_bind].
    rewrite <- (Hclamp (fst p)).
    destruct (if fst p <? 0 then Some 0 else IEEE.flt_of_int (fst p)) as [fx|];
      [|reflexivity].
    cbn [mbind option_bind]. rewrite <- (Hclamp (snd p)). reflexivity.
  - unfold setSpotArea, spotArea. intros [-> | [-> | ->]].
    + split; reflexivity.
    + rewrite andb_false_r. split; reflexivity.
    + destruct (negb (_isCGOET s) && _paramComplete s); split; reflexivity.
Qed.

Lemma spot_area_edges_witness :
  let s := {| _isCGOET := true; _paramComplete := true; _videoSize := (640, 512);
              facts := {[ kCAM_SPOTAREA := {| rawValue := 12850; enumValues := [] |} ]} |} in
  setSpotArea (320, 256) s = Some s /\ spotArea s = Some (0, 0).
Proof.
  cbv zeta.
  apply (spot_area_edges (320, 256)
           {| _isCGOET := true; _paramComplete := true; _videoSize := (640, 512);
              facts := {[ kCAM_SPOTAREA := {| rawValue := 12850; enumValues := [] |} ]} |}).
  left. reflexivity.
Defined.
